(** * yomisplit: splitting the reading of a Japanese word by kanji

    A shallow embedding of [yomisplit/__init__.py] and the properties of
    its pattern compiler, matcher, canonicalizer, joyo classifier and
    unannotated splitter.

    Python strings are sequences of Unicode code points, so a string is a
    list of code points here.  The regular expressions the module writes
    as text are represented by their syntax trees, and the regular
    expression engine is a backtracking matcher with the engine's
    priorities (left alternative first, greedy before lazy).  Where the
    module splices a reading into a pattern unescaped, the tree is that
    of a reading without special characters; for the pattern of a
    reading the text is given as well, with the syntax that relates the
    two. *)

From Stdlib Require Import String Ascii DecimalNat.
From stdpp Require Import gmap list option.

Local Open Scope N_scope.
Local Open Scope nat_scope.

(** ** Strings *)

(** A code point. *)
Abbreviation char := N (only parsing).
(** A Python [str]. *)
Abbreviation pystr := (list N) (only parsing).

(** Decoding of the UTF-8 bytes of a literal of this file into the code
    points Python sees. *)
Fixpoint utf8 (bs : list N) : pystr :=
  match bs with
  | [] => []
  | b :: bs1 =>
    if (b <? 0x80)%N then b :: utf8 bs1
    else if (b <? 0xE0)%N then
      match bs1 with
      | b1 :: bs2 =>
        (N.land b 0x1F * 0x40 + N.land b1 0x3F)%N :: utf8 bs2
      | _ => []
      end
    else if (b <? 0xF0)%N then
      match bs1 with
      | b1 :: b2 :: bs3 =>
        (N.land b 0x0F * 0x1000 + N.land b1 0x3F * 0x40 + N.land b2 0x3F)%N
          :: utf8 bs3
      | _ => []
      end
    else
      match bs1 with
      | b1 :: b2 :: b3 :: bs4 =>
        (N.land b 0x07 * 0x40000 + N.land b1 0x3F * 0x1000
         + N.land b2 0x3F * 0x40 + N.land b3 0x3F)%N :: utf8 bs4
      | _ => []
      end
  end.

Fixpoint bytes_of (s : string) : list N :=
  match s with
  | EmptyString => []
  | String a s' => N_of_ascii a :: bytes_of s'
  end.

(** [u "はな"] is the Python string ['はな']. *)
Definition u (s : string) : pystr := utf8 (bytes_of s).
(** [ch "は"] is the single character ['は']. *)
Definition ch (s : string) : char := hd 0%N (u s).

(** ** Exceptions and results *)

Inductive exn :=
| IndexError
| KeyError
| AttributeError
| ValueError (msg : string)
| UnknownKanji (kanji : pystr)
| UnknownReading (kanji reading : pystr)
| ReError (msg : string).   (* the [error] of the regular expression library *)

Inductive result (A : Type) :=
| Ok (a : A)
| Raise (e : exn).
Arguments Ok {A} a.
Arguments Raise {A} e.

Definition bind {A B} (m : result A) (f : A → result B) : result B :=
  match m with
  | Ok a => f a
  | Raise e => Raise e
  end.

Notation "x <- m ;; k" := (bind m (fun x => k))
  (at level 100, m at next level, right associativity).

(** ** Regular expressions *)

(** The Unicode properties the module's patterns name, and the names
    the library accepts for a group.  Their tables belong to the regular
    expression library. *)
Class UnicodeDB := {
  is_Han : char → bool;            (* \p{Han} *)
  is_Hiragana : char → bool;       (* \p{Hiragana} *)
  is_word : char → bool;           (* \w *)
  is_digit : char → bool;          (* \d *)
  is_identifier : pystr → bool;    (* a name allowed in (?P<name>...) *)
}.

(** One-character matchers. *)
Inductive atom :=
| Lit (c : char)          (* the character itself, or [re.escape] of it *)
| Cls (cs : list char)    (* [c1c2...] *)
| PHan                    (* \p{Han} *)
| PHiragana               (* \p{Hiragana} *)
| NotWord                 (* \W *)
| Digit.                  (* \d *)

Inductive regex :=
| Eps                                   (* the empty pattern *)
| Atom (a : atom)
| Seq (r1 r2 : regex)                   (* r1r2 *)
| Alt (r1 r2 : regex)                   (* r1|r2 *)
| Opt (r : regex)                       (* r? *)
| Plus (a : atom)                       (* a+ *)
| PlusLazy (a : atom)                   (* a+? *)
| Group (name : option pystr) (r : regex) (* (r) and (?P<name>r) *)
| Bol                                   (* ^ *)
| Eol.                                  (* $ *)

(** A pattern written piece after piece. *)
Fixpoint seq_of (rs : list regex) : regex :=
  match rs with
  | [] => Eps
  | r :: rs' => Seq r (seq_of rs')
  end.

(** ['|'.join(rs)] *)
Fixpoint alt_join (rs : list regex) : regex :=
  match rs with
  | [] => Eps
  | [r] => r
  | r :: rs' => Alt r (alt_join rs')
  end.

(** The names of the named groups of a pattern, in the order they are
    written. *)
Fixpoint group_names (r : regex) : list pystr :=
  match r with
  | Group (Some name) r1 => name :: group_names r1
  | Group None r1 => group_names r1
  | Seq r1 r2 | Alt r1 r2 => group_names r1 ++ group_names r2
  | Opt r1 => group_names r1
  | _ => []
  end.

(** The groups closed so far, in order, each with its name if it has one
    and the text it captured. *)
Abbreviation captures := (list (option (list N) * list N)) (only parsing).

Definition NEWLINE : char := 10%N.

Section Engine.
Context `{UnicodeDB}.

Definition atom_ok (a : atom) (c : char) : bool :=
  match a with
  | Lit c' => bool_decide (c = c')
  | Cls cs => bool_decide (c ∈ cs)
  | PHan => is_Han c
  | PHiragana => is_Hiragana c
  | NotWord => negb (is_word c)
  | Digit => is_digit c
  end.

(** [a+]: as many characters as possible first. *)
Fixpoint plus_greedy (a : atom) (s : pystr)
    (k : pystr → option captures) : option captures :=
  match s with
  | [] => None
  | c :: s' =>
    if atom_ok a c then
      match plus_greedy a s' k with
      | Some m => Some m
      | None => k s'
      end
    else None
  end.

(** [a+?]: as few characters as possible first. *)
Fixpoint plus_lazy (a : atom) (s : pystr)
    (k : pystr → option captures) : option captures :=
  match s with
  | [] => None
  | c :: s' =>
    if atom_ok a c then
      match k s' with
      | Some m => Some m
      | None => plus_lazy a s' k
      end
    else None
  end.

(** [$] without the MULTILINE flag: at the end of the string, or just
    before a newline that ends the string. *)
Definition at_end (s : pystr) : bool :=
  match s with
  | [] => true
  | [c] => bool_decide (c = NEWLINE)
  | _ => false
  end.

(** The backtracking matcher.  [s] is what is left of [whole]; [k] is
    what remains to be matched after [r]. *)
Fixpoint rmatch (whole : pystr) (r : regex) (s : pystr) (caps : captures)
    (k : pystr → captures → option captures) : option captures :=
  match r with
  | Eps => k s caps
  | Atom a =>
    match s with
    | c :: s' => if atom_ok a c then k s' caps else None
    | [] => None
    end
  | Seq r1 r2 =>
    rmatch whole r1 s caps (fun s' caps' => rmatch whole r2 s' caps' k)
  | Alt r1 r2 =>
    match rmatch whole r1 s caps k with
    | Some m => Some m
    | None => rmatch whole r2 s caps k
    end
  | Opt r1 =>
    match rmatch whole r1 s caps k with
    | Some m => Some m
    | None => k s caps
    end
  | Plus a => plus_greedy a s (fun s' => k s' caps)
  | PlusLazy a => plus_lazy a s (fun s' => k s' caps)
  | Group name r1 =>
    rmatch whole r1 s caps
      (fun s' caps' =>
         k s' (caps' ++ [(name, take (length s - length s') s)]))
  | Bol => if bool_decide (length s = length whole) then k s caps else None
  | Eol => if at_end s then k s caps else None
  end.

(** [re.compile(r)]: the library refuses a pattern that has a group
    whose name is not an identifier. *)
Definition re_compile (r : regex) : result regex :=
  if forallb is_identifier (group_names r) then Ok r
  else Raise (ReError "bad character in group name").

(** [re.match(r, s)]: the match object (its groups) or [None]. *)
Definition re_match (r : regex) (s : pystr) : option captures :=
  rmatch s r s [] (fun _ caps => Some caps).

(** [m.groups()] *)
Definition groups (m : captures) : list pystr := m.*2.

(** [m.groupdict()], in slot order. *)
Definition groupdict (m : captures) : list (pystr * pystr) :=
  omap (fun g => match g.1 with
                 | Some n => Some (n, g.2)
                 | None => None
                 end) m.
End Engine.

(** ** Phonological equivalence *)

Definition DAKUON : gmap N (list N) :=
  list_to_map [
    (ch "か", u "かが");
    (ch "き", u "きぎ");
    (ch "く", u "くぐ");
    (ch "け", u "けげ");
    (ch "こ", u "こご");
    (ch "さ", u "さざ");
    (ch "し", u "しじ");
    (ch "す", u "すず");
    (ch "せ", u "せぜ");
    (ch "そ", u "そぞ");
    (ch "た", u "ただ");
    (ch "ち", u "ちぢじ");
    (ch "つ", u "つづず");
    (ch "て", u "てで");
    (ch "と", u "とど");
    (ch "は", u "はばぱ");
    (ch "ひ", u "ひびぴ");
    (ch "ふ", u "ふぶぷ");
    (ch "へ", u "へべぺ");
    (ch "ほ", u "ほぼぽ")
  ].

(** [hiragana[1:-1]] *)
Definition slice_1_m1 (s : pystr) : pystr := take (length s - 2) (drop 1 s).

(** [['つ', 'ち', 'く']] *)
Definition SOKUON_LAST : list N := [ch "つ"; ch "ち"; ch "く"].

Definition SMALL_TSU : char := ch "っ".

(** [japanese_matchreg]: the pieces of the returned pattern, in order.
    The source splices the characters of the reading into the text of
    the pattern; a character spliced in that way is the pattern that
    matches this very character as long as it is not one of the
    characters that are special in a pattern, which no kana is. *)
Definition japanese_matchreg (hiragana : pystr) : result (list regex) :=
  match hiragana with
  | [] => Raise IndexError
  | first :: _ =>
    let matchreg :=
      match DAKUON !! first with
      | Some cls => [Atom (Cls cls)]
      | None => [Atom (Lit first)]
      end in
    let matchreg := matchreg ++ ((Atom ∘ Lit) <$> slice_1_m1 hiragana) in
    if bool_decide (1 < length hiragana) then
      match list.last hiragana with
      | Some l =>
        if bool_decide (l ∈ SOKUON_LAST)
        then Ok (matchreg ++ [Opt (Atom (Cls [l; SMALL_TSU]))])
        else Ok (matchreg ++ [Atom (Lit l)])
      | None => Raise IndexError
      end
    else Ok matchreg
  end.

(** The text of a character class, [[c1c2...]]. *)
Definition class_text (cs : list char) : pystr := [ch "["] ++ cs ++ [ch "]"].

(** [japanese_matchreg] as the source writes it, character by character:
    the text of the returned pattern.  The values of the source's
    [DAKUON] table are the texts of the classes of [DAKUON] here. *)
Definition japanese_matchreg_text (hiragana : pystr) : result pystr :=
  match hiragana with
  | [] => Raise IndexError
  | first :: _ =>
    let matchreg := [] in
    let matchreg :=
      match DAKUON !! first with
      | Some cls => matchreg ++ class_text cls
      | None => matchreg ++ [first]
      end in
    let matchreg := matchreg ++ slice_1_m1 hiragana in
    if bool_decide (1 < length hiragana) then
      match list.last hiragana with
      | Some l =>
        if bool_decide (l ∈ SOKUON_LAST)
        then Ok (matchreg ++ class_text [l; SMALL_TSU] ++ [ch "?"])
        else Ok (matchreg ++ [l])
      | None => Raise IndexError
      end
    else Ok matchreg
  end.

(** ** The lexicon *)

(** The tables of [yomisplit.yomi] and [yomisplit.joyokanji]: a kanji
    to the list of its candidate readings. *)
Class Lexicon := {
  ONYOMI : gmap (list N) (list (list N));
  KUNYOMI : gmap (list N) (list (list N));
  JOYO_ONYOMI : gmap (list N) (list (list N));
  JOYO_KUNYOMI : gmap (list N) (list (list N));
}.

(** ** Helpers for Python built-ins *)

(** A [for] loop whose body may raise. *)
Fixpoint foldM {A B} (f : A → B → result A) (a : A) (l : list B) : result A :=
  match l with
  | [] => Ok a
  | b :: l' => a' <- f a b ;; foldM f a' l'
  end.

(** A list comprehension whose element expression may raise. *)
Fixpoint mapM {A B} (f : A → result B) (l : list A) : result (list B) :=
  match l with
  | [] => Ok []
  | a :: l' => b <- f a ;; bs <- mapM f l' ;; Ok (b :: bs)
  end.

(** [l.sort(key=key, reverse=True)]: the sort is stable, and with
    [reverse=True] elements of equal key keep their original order. *)
Fixpoint insert_desc {A} (key : A → nat) (y : A) (l : list A) : list A :=
  match l with
  | [] => [y]
  | x :: l' =>
    if bool_decide (key y < key x) then x :: insert_desc key y l'
    else y :: x :: l'
  end.

Fixpoint sort_desc {A} (key : A → nat) (l : list A) : list A :=
  match l with
  | [] => []
  | y :: l' => insert_desc key y (sort_desc key l')
  end.

(** [repr(n)] of a non-negative integer. *)
Fixpoint repr_uint (d : Decimal.uint) : pystr :=
  match d with
  | Decimal.Nil => []
  | Decimal.D0 d' => 0x30%N :: repr_uint d'
  | Decimal.D1 d' => 0x31%N :: repr_uint d'
  | Decimal.D2 d' => 0x32%N :: repr_uint d'
  | Decimal.D3 d' => 0x33%N :: repr_uint d'
  | Decimal.D4 d' => 0x34%N :: repr_uint d'
  | Decimal.D5 d' => 0x35%N :: repr_uint d'
  | Decimal.D6 d' => 0x36%N :: repr_uint d'
  | Decimal.D7 d' => 0x37%N :: repr_uint d'
  | Decimal.D8 d' => 0x38%N :: repr_uint d'
  | Decimal.D9 d' => 0x39%N :: repr_uint d'
  end.

Definition repr (n : nat) : pystr := repr_uint (Nat.to_uint n).

(** ** The module's functions *)

(** The repetition character. *)
Definition NOMA : char := ch "々".

Inductive yomi_type := On | Kun.

(** The variables of the loop of [yomi_matchreg].  [prevch] and
    [prevreg] are assigned together, so they are one optional pair. *)
Record compile_state := {
  matchreg : list regex;
  prev : option (N * regex);
  count : gmap N nat;
}.

Definition compile_init : compile_state :=
  {| matchreg := []; prev := None; count := ∅ |}.

Definition i_to_u : gmap N N :=
  list_to_map [
    (ch "い", ch "う");
    (ch "き", ch "く");
    (ch "し", ch "す");
    (ch "ち", ch "つ");
    (ch "に", ch "ぬ");
    (ch "ひ", ch "ふ");
    (ch "み", ch "む");
    (ch "り", ch "る")
  ].

(** ['いきしちにひみり'] *)
Definition I_COLUMN : pystr := u "いきしちにひみり".

(** The variables of the loop of [guess_split]. *)
Record guess_state := {
  kanjis : list N;
  matchreg_greedy : list regex;
  matchreg_nongreedy : list regex;
}.

Definition guess_init : guess_state :=
  {| kanjis := []; matchreg_greedy := []; matchreg_nongreedy := [] |}.

Section Yomisplit.
Context `{UnicodeDB} `{Lexicon}.

(** [japanese_match]: the match object or [None]. *)
Definition japanese_match (hiragana1 hiragana2 : pystr)
    : result (option captures) :=
  matchreg <- japanese_matchreg hiragana1 ;;
  Ok (re_match (seq_of ([Bol] ++ matchreg ++ [Eol])) hiragana2).

(** [re.match("(\W|\d)$", ch)] *)
Definition nonalpha (c : char) : bool :=
  bool_decide (is_Some
    (re_match (seq_of [Group None (Alt (Atom NotWord) (Atom Digit)); Eol])
              [c])).

(** The candidate readings gathered for one character. *)
Definition yomis_of (c : char) : list pystr :=
  let yomis := [] in
  let yomis := yomis ++ default [] (ONYOMI !! [c]) in
  let yomis := yomis ++ default [] (KUNYOMI !! [c]) in
  yomis.

(** The body of the loop of [yomi_matchreg]. *)
Definition compile_step (st : compile_state) (c : char)
    : result compile_state :=
  let yomis := yomis_of c in
  reg <- (if bool_decide (yomis ≠ []) then
            let yomis := sort_desc length yomis in
            yomis <- mapM japanese_matchreg yomis ;;
            Ok (alt_join (seq_of <$> yomis))
          else if bool_decide (c = NOMA) then
            match prev st with
            | Some (_, prevreg) => Ok prevreg
            | None =>
              Raise (ValueError "Repetition character 々 following nothing")
            end
          else Ok (Atom (Lit c))) ;;
  let '(count', groupname) :=
    match count st !! c with
    | Some n => (<[c := n + 1]> (count st), c :: repr (n + 1))
    | None => (<[c := 1]> (count st), [c])
    end in
  let piece :=
    if nonalpha c then Group None reg
    else Group (Some groupname) reg in
  Ok {| matchreg := matchreg st ++ [piece];
        prev := Some (c, reg);
        count := count' |}.

(** The pieces [yomi_matchreg] has written when its loop ends, one
    group per character of the word. *)
Definition yomi_pieces (kanjistring : pystr) : result (list regex) :=
  st <- foldM compile_step compile_init kanjistring ;;
  Ok (matchreg st).

Definition yomi_matchreg (kanjistring : pystr) : result regex :=
  pieces <- yomi_pieces kanjistring ;;
  re_compile (seq_of (pieces ++ [Eol])).

(** The two loops of [canonical_reading]. *)
Fixpoint scan_readings (creadings : list pystr) (foundreading : pystr)
    (tag : yomi_type) : result (option (pystr * yomi_type)) :=
  match creadings with
  | [] => Ok None
  | creading :: rest =>
    m <- japanese_match creading foundreading ;;
    if bool_decide (is_Some m) then Ok (Some (creading, tag))
    else scan_readings rest foundreading tag
  end.

Definition canonical_reading (kanji foundreading : pystr)
    : result (pystr * yomi_type) :=
  on <- match ONYOMI !! kanji with
        | Some creadings => scan_readings creadings foundreading On
        | None => Ok None
        end ;;
  match on with
  | Some found => Ok found
  | None =>
    match KUNYOMI !! kanji with
    | Some creadings =>
      kun <- scan_readings creadings foundreading Kun ;;
      match kun with
      | Some found => Ok found
      | None => Raise (UnknownReading kanji foundreading)
      end
    | None => Raise (UnknownKanji kanji)
    end
  end.

Definition yomidict (kanji reading : pystr)
    : result (list (pystr * pystr)) :=
  reg <- yomi_matchreg kanji ;;
  match re_match reg reading with
  | None => Raise (UnknownReading kanji reading)
  | Some m => Ok (groupdict m)
  end.

Definition is_joyo (kanji reading : pystr) : result bool :=
  if match JOYO_ONYOMI !! kanji with
     | Some ons => bool_decide (reading ∈ ons)
     | None => false
     end
  then Ok true
  else
    match JOYO_KUNYOMI !! kanji with
    | Some kuns =>
      if bool_decide (reading ∈ kuns) then Ok true
      else
        shifted <-
          (if bool_decide (1 < length reading) then
             match list.last reading with
             | None => Raise IndexError
             | Some l =>
               if bool_decide (l ∈ I_COLUMN) then
                 match i_to_u !! l with
                 | None => Raise KeyError
                 | Some v =>
                   let ureading :=
                     take (length reading - 1) reading ++ [v] in
                   Ok (bool_decide (ureading ∈ kuns))
                 end
               else Ok false
             end
           else Ok false) ;;
        if (shifted : bool) then Ok true
        else if existsb (fun kun => bool_decide (reading `prefix_of` kun)) kuns
        then Ok true
        else Ok false
    | None => Ok false
    end.

(** The body of the first loop of [guess_split]. *)
Definition guess_step (st : guess_state) (c : char) : guess_state :=
  if bool_decide (is_Some (re_match (Atom PHan) [c])) then
    {| kanjis := kanjis st ++ [c];
       matchreg_greedy :=
         matchreg_greedy st ++ [Group None (Plus PHiragana)];
       matchreg_nongreedy :=
         matchreg_nongreedy st ++ [Group None (PlusLazy PHiragana)] |}
  else
    {| kanjis := kanjis st;
       matchreg_greedy := matchreg_greedy st ++ [Atom (Lit c)];
       matchreg_nongreedy := matchreg_nongreedy st ++ [Atom (Lit c)] |}.

(** The body of the second loop of [guess_split]:
    [d[kanjis[idx]] = yomis[idx]]. *)
Definition guess_assign (kanjis : list char) (yomis : list pystr)
    (d : gmap N (list N)) (idx : nat) : result (gmap N (list N)) :=
  match kanjis !! idx, yomis !! idx with
  | Some k, Some y => Ok (<[k := y]> d)
  | _, _ => Raise IndexError
  end.

(** The first loop of [guess_split]. *)
Definition guess_loop (majiribun : pystr) : guess_state :=
  fold_left guess_step majiribun guess_init.

(** [guess_split] returns a dict or [None]. *)
Definition guess_split (majiribun reading : pystr)
    : result (option (gmap N (list N))) :=
  let st := guess_loop majiribun in
  match re_match (seq_of (matchreg_greedy st ++ [Eol])) reading with
  | Some m =>
    let yomis := groups m in
    match re_match (seq_of (matchreg_nongreedy st ++ [Eol])) reading with
    | None => Raise AttributeError
    | Some m' =>
      let yomis_nongreedy := groups m' in
      if bool_decide (yomis ≠ yomis_nongreedy) then Ok None
      else
        d <- foldM (guess_assign (kanjis st) yomis) ∅
                   (seq 0 (length (kanjis st))) ;;
        Ok (Some d)
    end
  | None => Ok None
  end.

(** [yomisplit]: the body is [pass]. *)
Definition yomisplit (kanjiword reading : pystr)
    : result (option (list (pystr * pystr))) :=
  Ok None.
End Yomisplit.

(** ** A small lexicon and character database for examples *)

(** The characters an identifier can start with, and those it can go on
    with. *)
Definition demo_id_start (c : char) : bool :=
  bool_decide (0x41 ≤ c ≤ 0x5A)%N
  || bool_decide (0x61 ≤ c ≤ 0x7A)%N
  || bool_decide (c = 0x5F)%N
  || bool_decide (0x3041 ≤ c ≤ 0x3096)%N
  || bool_decide (0x309D ≤ c ≤ 0x309F)%N
  || bool_decide (0x30A1 ≤ c ≤ 0x30FA)%N
  || bool_decide (0x30FC ≤ c ≤ 0x30FF)%N
  || bool_decide (0x4E00 ≤ c ≤ 0x9FFF)%N
  || bool_decide (0x3400 ≤ c ≤ 0x4DBF)%N
  || bool_decide (c = 0x3005)%N || bool_decide (c = 0x3007)%N
  || bool_decide (0xFF66 ≤ c ≤ 0xFF9D)%N.

Definition demo_id_continue (c : char) : bool :=
  demo_id_start c
  || bool_decide (0x30 ≤ c ≤ 0x39)%N
  || bool_decide (0xFF10 ≤ c ≤ 0xFF19)%N
  || bool_decide (0xFF9E ≤ c ≤ 0xFF9F)%N.

Definition demo_unicode : UnicodeDB := {|
  is_Han c := bool_decide (0x4E00 ≤ c ≤ 0x9FFF)%N
              || bool_decide (0x3400 ≤ c ≤ 0x4DBF)%N
              || bool_decide (c = 0x3005)%N || bool_decide (c = 0x3007)%N;
  is_Hiragana c := bool_decide (0x3041 ≤ c ≤ 0x3096)%N
                   || bool_decide (0x309D ≤ c ≤ 0x309F)%N;
  is_word c := bool_decide (0x30 ≤ c ≤ 0x39)%N
               || bool_decide (0x41 ≤ c ≤ 0x5A)%N
               || bool_decide (0x61 ≤ c ≤ 0x7A)%N
               || bool_decide (c = 0x5F)%N
               || bool_decide (0x3041 ≤ c ≤ 0x3096)%N
               || bool_decide (0x309D ≤ c ≤ 0x309F)%N
               || bool_decide (0x30A1 ≤ c ≤ 0x30FA)%N
               || bool_decide (0x30FC ≤ c ≤ 0x30FF)%N
               || bool_decide (0x4E00 ≤ c ≤ 0x9FFF)%N
               || bool_decide (0x3400 ≤ c ≤ 0x4DBF)%N
               || bool_decide (c = 0x3005)%N || bool_decide (c = 0x3007)%N
               || bool_decide (0xFF10 ≤ c ≤ 0xFF19)%N
               || bool_decide (0xFF66 ≤ c ≤ 0xFF9F)%N;
  is_digit c := bool_decide (0x30 ≤ c ≤ 0x39)%N
                || bool_decide (0xFF10 ≤ c ≤ 0xFF19)%N;
  is_identifier name :=
    match name with
    | [] => false
    | c :: rest => demo_id_start c && forallb demo_id_continue rest
    end;
|}.

Definition demo_lexicon : Lexicon := {|
  ONYOMI := list_to_map [
    (u "花", [u "か"; u "け"]);
    (u "見", [u "けん"]);
    (u "国", [u "こく"]);
    (u "歌", [u "か"]);
    (u "人", [u "じん"; u "にん"]);
    (u "胃", [u "い"])
  ];
  KUNYOMI := list_to_map [
    (u "花", [u "はな"]);
    (u "見", [u "み"]);
    (u "国", [u "くに"]);
    (u "歌", [u "うた"]);
    (u "人", [u "ひと"])
  ];
  JOYO_ONYOMI := list_to_map [
    (u "花", [u "か"]);
    (u "話", [u "わ"])
  ];
  JOYO_KUNYOMI := list_to_map [
    (u "花", [u "はな"]);
    (u "話", [u "はなす"; u "はなし"])
  ];
|}.

(** ** Notions used in the statements *)

(** A pattern without a capture group in it. *)
Fixpoint group_free (r : regex) : bool :=
  match r with
  | Group _ _ => false
  | Seq r1 r2 | Alt r1 r2 => group_free r1 && group_free r2
  | Opt r1 => group_free r1
  | _ => true
  end.

(** A capture slot: one group, no group inside it. *)
Definition is_slot (r : regex) : Prop :=
  ∃ name reg, r = Group name reg ∧ group_free reg = true.

(** The names of the groups of a sequence of pieces, in order. *)
Definition slot_names (pieces : list regex) : list (option pystr) :=
  omap (fun r => match r with
                 | Group name _ => Some name
                 | _ => None
                 end) pieces.

(** A piece of a pattern written piece after piece: a capture slot, or
    a pattern without groups. *)
Definition is_piece (r : regex) : Prop := is_slot r ∨ group_free r = true.

(** The two patterns of [guess_split] differ in their quantifiers only. *)
Definition same_but_lazy (g l : regex) : Prop :=
  (∃ c, g = Atom (Lit c) ∧ l = Atom (Lit c))
  ∨ (g = Group None (Plus PHiragana) ∧ l = Group None (PlusLazy PHiragana)).

(** The equivalence as the documentation words it: [b] is [a] with its
    first character replaced by a member of its class of [DAKUON] (or
    kept, when it has none), the middle unchanged and, when [a] has more
    than one character, the last one kept or, if it is one of つ ち く,
    replaced by っ. *)
Definition phonological_variant (a b : pystr) : Prop :=
  ∃ first rest first',
    a = first :: rest
    ∧ first' ∈ default [first] (DAKUON !! first)
    ∧ (rest = [] ∧ b = [first']
       ∨ ∃ middle l l',
           rest = middle ++ [l] ∧ b = first' :: middle ++ [l']
           ∧ (l' = l ∨ (l ∈ SOKUON_LAST ∧ l' = SMALL_TSU))).

(** What the pattern of [japanese_matchreg] accepts besides: the reading
    without its last character, when that is one of つ ち く. *)
Definition last_dropped (a b : pystr) : Prop :=
  ∃ first middle l first',
    a = first :: middle ++ [l] ∧ l ∈ SOKUON_LAST
    ∧ first' ∈ default [first] (DAKUON !! first)
    ∧ b = first' :: middle.

(** The pattern written for the first character of a reading. *)
Definition first_piece (first : char) : regex :=
  match DAKUON !! first with
  | Some cls => Atom (Cls cls)
  | None => Atom (Lit first)
  end.

(** The pattern written for the last character of a reading of more than
    one character. *)
Definition last_piece (l : char) : regex :=
  if bool_decide (l ∈ SOKUON_LAST) then Opt (Atom (Cls [l; SMALL_TSU]))
  else Atom (Lit l).

(** What the last piece and [$] accept. *)
Definition tail_ok (l : N) (s1 : list N) : Prop :=
  ∃ t nl, s1 = t ++ nl ∧ at_end nl = true
          ∧ (t = [l] ∨ (l ∈ SOKUON_LAST ∧ (t = [SMALL_TSU] ∨ t = []))).

(** [c] is the first of the candidates [cs] that matches [found]. *)
Definition first_match `{UnicodeDB} (cs : list (list N)) (found c : list N) : Prop :=
  ∃ before after m,
    cs = before ++ c :: after
    ∧ Forall (λ c', japanese_match c' found = Ok None) before
    ∧ japanese_match c found = Ok (Some m).

(** None of the candidates [cs] matches [found]. *)
Definition no_match `{UnicodeDB} (cs : list (list N)) (found : list N) : Prop :=
  Forall (λ c', japanese_match c' found = Ok None) cs.

(** The scan reaches an empty candidate before any match. *)
Definition empty_candidate `{UnicodeDB} (cs : list (list N)) (found : list N) : Prop :=
  ∃ before after,
    cs = before ++ [] :: after
    ∧ Forall (λ c', japanese_match c' found = Ok None) before.

(** A pattern that never matches the empty text. *)
Fixpoint consuming (r : regex) : bool :=
  match r with
  | Atom _ | Plus _ | PlusLazy _ => true
  | Seq r1 r2 => consuming r1 || consuming r2
  | Alt r1 r2 => consuming r1 && consuming r2
  | Group _ r1 => consuming r1
  | _ => false
  end.

(** No candidate reading of the lexicon is the empty string. *)
Definition lexicon_nonempty `{Lexicon} : Prop :=
  ∀ c, Forall (λ y : list N, y ≠ []) (yomis_of c).

(** The text with each kanji replaced by its capture, taken in order. *)
Fixpoint rebuild `{UnicodeDB} (text : list N) (yomis : list (list N))
    : list N :=
  match text with
  | [] => []
  | c :: text' =>
    if is_Han c then
      match yomis with
      | y :: yomis' => y ++ rebuild text' yomis'
      | [] => rebuild text' []
      end
    else c :: rebuild text' yomis
  end.

(** The piece [guess_split] writes for a character, in its greedy and
    in its lazy pattern. *)
Definition greedy_piece `{UnicodeDB} (c : N) : regex :=
  if is_Han c then Group None (Plus PHiragana) else Atom (Lit c).
Definition nongreedy_piece `{UnicodeDB} (c : N) : regex :=
  if is_Han c then Group None (PlusLazy PHiragana) else Atom (Lit c).

(** The texts the pattern of the candidate [y] accepts. *)
Definition accepts (y t : list N) : Prop :=
  phonological_variant y t ∨ last_dropped y t.

(** [r] consumes only texts of [P], and leaves the captures alone. *)
Definition sound_for `{UnicodeDB} (r : regex) (P : list N → Prop) : Prop :=
  ∀ whole s caps k m,
    rmatch whole r s caps k = Some m →
    ∃ pre s', s = pre ++ s' ∧ P pre ∧ k s' caps = Some m.

(** [r] can consume every text of [P]. *)
Definition complete_for `{UnicodeDB} (r : regex) (P : list N → Prop) : Prop :=
  ∀ whole pre s' caps k,
    P pre → is_Some (k s' caps) → is_Some (rmatch whole r (pre ++ s') caps k).

Definition exact_for `{UnicodeDB} (r : regex) (P : list N → Prop) : Prop :=
  sound_for r P ∧ complete_for r P.

(** What the last piece of a candidate consumes. *)
Definition last_ok (l : N) (t : list N) : Prop :=
  t = [l] ∨ (l ∈ SOKUON_LAST ∧ (t = [SMALL_TSU] ∨ t = [])).

(** The texts the group of the last character of a word read backwards
    can capture: a text one of the character's candidates accepts; for
    a repetition mark without candidates, what the character before it
    can capture; for any other character, the character itself. *)
Fixpoint lang_of `{Lexicon} (rev_prefix : list N) (t : list N) : Prop :=
  match rev_prefix with
  | [] => False
  | c :: before =>
    if decide (yomis_of c = []) then
      if decide (c = NOMA) then lang_of before t else t = [c]
    else ∃ y, y ∈ yomis_of c ∧ accepts y t
  end.

(** The texts the group of the character at position [i] of [w] can
    capture. *)
Definition slot_lang `{Lexicon} (w : list N) (i : nat) (t : list N) : Prop :=
  lang_of (reverse (take (S i) w)) t.

(** A way to split [s] for the text: one non-empty run of hiragana per
    kanji, the other characters as they are, and the end of the text. *)
Definition valid_split `{UnicodeDB} (text s : list N) (ys : list (list N))
    : Prop :=
  length ys = length (filter (λ c, is_Han c = true) text)
  ∧ Forall (λ y, y ≠ [] ∧ forallb is_Hiragana y = true) ys
  ∧ ∃ nl, at_end nl = true ∧ s = rebuild text ys ++ nl.

(** The characters that do not stand for themselves in a pattern. *)
Definition METACHARACTERS : pystr := u ".^$*+?{}[]\|()".

(** Those that do not stand for themselves between [[] and []]. *)
Definition CLASS_SPECIAL : pystr := METACHARACTERS ++ u "-&~".

(** A text without special characters: spliced into a pattern as it
    is, it is the pattern of that text. *)
Definition plain (s : pystr) : bool :=
  forallb (λ c, bool_decide (c ∉ METACHARACTERS)) s.

(** No candidate reading of the lexicon has a special character. *)
Definition lexicon_plain `{Lexicon} : Prop :=
  ∀ c, Forall (λ y : list N, plain y = true) (yomis_of c).

(** The syntax of the patterns of readings: [t] is the text of the
    pieces [rs].  A character that is not special is the pattern of
    that character, [[...]] is a class and [[...]?] an optional
    class. *)
Inductive pattern_text : pystr → list regex → Prop :=
| text_nil : pattern_text [] []
| text_lit (c : char) (t : pystr) (rs : list regex) :
    c ∉ METACHARACTERS → pattern_text t rs →
    pattern_text (c :: t) (Atom (Lit c) :: rs)
| text_cls (cs : list char) (t : pystr) (rs : list regex) :
    cs ≠ [] → Forall (λ c, c ∉ CLASS_SPECIAL) cs → pattern_text t rs →
    pattern_text (class_text cs ++ t) (Atom (Cls cs) :: rs)
| text_opt_cls (cs : list char) (t : pystr) (rs : list regex) :
    cs ≠ [] → Forall (λ c, c ∉ CLASS_SPECIAL) cs → pattern_text t rs →
    pattern_text (class_text cs ++ [ch "?"] ++ t) (Opt (Atom (Cls cs)) :: rs).

(** The text written for the first character of a reading, and for the
    last character of a reading of more than one character. *)
Definition first_text (first : char) : pystr :=
  match DAKUON !! first with
  | Some cls => class_text cls
  | None => [first]
  end.

Definition last_text (l : char) : pystr :=
  if bool_decide (l ∈ SOKUON_LAST) then class_text [l; SMALL_TSU] ++ [ch "?"]
  else [l].

(** The alternatives of a pattern, left to right: what its [|]s
    separate. *)
Fixpoint alternatives (r : regex) : list regex :=
  match r with
  | Alt r1 r2 => alternatives r1 ++ alternatives r2
  | _ => [r]
  end.

(** The pieces of a pattern, left to right: what it is the sequence
    of. *)
Fixpoint pieces_of (r : regex) : list regex :=
  match r with
  | Eps => []
  | Seq r1 r2 => r1 :: pieces_of r2
  | _ => [r]
  end.

(** [r] is the pattern of the candidate reading [y]: its pieces are
    those of the phonological expansion of [y]. *)
Definition expansion (y : pystr) (r : regex) : Prop :=
  japanese_matchreg y = Ok (pieces_of r).

(** Longest first: no element has a larger key than an element before it. *)
Definition descending {A} (key : A → nat) (l : list A) : Prop :=
  ∀ i j x y, i < j → l !! i = Some x → l !! j = Some y → key y ≤ key x.

(** How many times [c] occurs in [w]. *)
Definition occurrences (c : char) (w : pystr) : nat :=
  length (filter (λ x, x = c) w).

(** The position [i] of [w] holds the [occurrence w i c]-th [c] of [w],
    counted from 1. *)
Definition occurrence (w : pystr) (i : nat) (c : char) : nat :=
  occurrences c (take (S i) w).

(** The bare character for its first occurrence, the character and the
    occurrence count for the later ones. *)
Definition groupname_of (w : pystr) (i : nat) (c : char) : pystr :=
  if bool_decide (occurrence w i c = 1) then [c]
  else c :: repr (occurrence w i c).

Section CompilerNotions.
Context `{UnicodeDB} `{Lexicon}.

(** The pattern [compile_step] puts in the group of [c]. *)
Definition step_reg (st : compile_state) (c : char) (reg : regex) : Prop :=
  (yomis_of c ≠ []
   ∧ ∃ regs, mapM japanese_matchreg (sort_desc length (yomis_of c)) = Ok regs
             ∧ reg = alt_join (seq_of <$> regs))
  ∨ (yomis_of c = [] ∧ c = NOMA ∧ ∃ pc, prev st = Some (pc, reg))
  ∨ (yomis_of c = [] ∧ c ≠ NOMA ∧ reg = Atom (Lit c)).

Definition step_name (st : compile_state) (c : char) : option pystr :=
  if nonalpha c then None
  else Some (match count st !! c with
             | Some n => c :: repr (n + 1)
             | None => [c]
             end).

(** What holds of the loop variables of [yomi_matchreg] once the
    characters of [w] have been processed. *)
Definition compile_inv (w : pystr) (st : compile_state) : Prop :=
  length (matchreg st) = length w
  ∧ Forall is_slot (matchreg st)
  ∧ (∀ c, count st !! c = if bool_decide (occurrences c w = 0) then None
                          else Some (occurrences c w))
  ∧ match prev st with
    | None => w = []
    | Some (pc, preg) =>
      list.last w = Some pc ∧ group_free preg = true
      ∧ ∃ name, list.last (matchreg st) = Some (Group name preg)
    end.
End CompilerNotions.

(** * Properties *)

Section JoyoClassifier.
Context `{Lexicon}.

Lemma i_column_has_u (l : N) : l ∈ I_COLUMN → is_Some (i_to_u !! l).
Proof.
  intros Hl. apply list_elem_of_lookup in Hl as [i Hi].
  do 8 (destruct i as [|i];
        [ injection Hi as <-; vm_compute; eauto | ]).
  discriminate.
Qed.

(** The checks made once the kanji is found in [JOYO_KUNYOMI]. *)
Lemma joyo_kun_checks (kuns : list pystr) (reading : pystr) :
  ∃ b : bool,
    (if bool_decide (reading ∈ kuns) then Ok true
     else
       shifted <-
         (if bool_decide (1 < length reading) then
            match list.last reading with
            | None => Raise IndexError
            | Some l =>
              if bool_decide (l ∈ I_COLUMN) then
                match i_to_u !! l with
                | None => Raise KeyError
                | Some v =>
                  let ureading :=
                    take (length reading - 1) reading ++ [v] in
                  Ok (bool_decide (ureading ∈ kuns))
                end
              else Ok false
            end
          else Ok false) ;;
       if (shifted : bool) then Ok true
       else if existsb (fun kun => bool_decide (reading `prefix_of` kun)) kuns
       then Ok true
       else Ok false) = Ok b
    ∧ (b = true ↔
         reading ∈ kuns
         ∨ (1 < length reading
            ∧ ∃ (stem : pystr) (i v : N),
                reading = stem ++ [i] ∧ i ∈ I_COLUMN
                ∧ i_to_u !! i = Some v ∧ stem ++ [v] ∈ kuns)
         ∨ (∃ kun : pystr,
              kun ∈ kuns ∧ reading `prefix_of` kun ∧ reading ≠ kun)).
Proof.
  case_bool_decide as Hin.
  { exists true. tauto. }
  assert (Hpre : existsb (λ kun, bool_decide (reading `prefix_of` kun)) kuns
                 = true
                 ↔ ∃ kun, kun ∈ kuns ∧ reading `prefix_of` kun ∧ reading ≠ kun).
  { rewrite existsb_exists. split.
    - intros (kun & Hk & Hp). apply list_elem_of_In in Hk.
      apply bool_decide_eq_true in Hp.
      exists kun. split_and!; [done..|]. intros ->. done.
    - intros (kun & Hk & Hp & _). exists kun.
      split; [by apply list_elem_of_In|by apply bool_decide_eq_true]. }
  assert (Hshift : ∀ stem i, reading = stem ++ [i] →
            list.last reading = Some i
            ∧ take (length reading - 1) reading = stem).
  { intros stem i ->. rewrite list.last_snoc, length_app. simpl.
    split; [done|].
    replace (length stem + 1 - 1) with (length stem) by lia.
    by rewrite take_app_length. }
  case_bool_decide as Hlen; simpl.
  2:{ destruct (existsb _ kuns) eqn:Hex.
      - exists true. split; [done|]. split; [|done]. intros _.
        right; right. by apply Hpre.
      - exists false. split; [done|]. split; [done|].
        intros [?|[[? _]|Hp]]; [done..|].
        apply Hpre in Hp. congruence. }
  destruct (list.last reading) as [l|] eqn:Hlast.
  2:{ apply list.last_None in Hlast. subst. simpl in Hlen. lia. }
  apply list.last_Some in Hlast as [stem ->].
  destruct (Hshift stem l eq_refl) as [_ ->].
  case_bool_decide as Hil; simpl.
  - destruct (i_column_has_u l Hil) as [v Hv]. rewrite Hv. simpl.
    case_bool_decide as Hu; simpl.
    + exists true. split; [done|]. split; [|done]. intros _.
      right; left. split; [done|]. by exists stem, l, v.
    + destruct (existsb _ kuns) eqn:Hex.
      * exists true. split; [done|]. split; [|done]. intros _.
        right; right. by apply Hpre.
      * exists false. split; [done|]. split; [done|].
        intros [?|[(_ & stem' & i & v' & Heq & _ & Hv' & Hk)|Hp]]; [done| |].
        -- apply app_inj_tail in Heq as [<- <-].
           rewrite Hv in Hv'. injection Hv' as <-. done.
        -- apply Hpre in Hp. congruence.
  - destruct (existsb _ kuns) eqn:Hex.
    + exists true. split; [done|]. split; [|done]. intros _.
      right; right. by apply Hpre.
    + exists false. split; [done|]. split; [done|].
      intros [?|[(_ & stem' & i & v' & Heq & Hi & _)|Hp]]; [done| |].
      * apply app_inj_tail in Heq as [<- <-]. done.
      * apply Hpre in Hp. congruence.
Qed.

(** C8: [is_joyo] never raises, and answers [True] exactly when the
    reading is in the kanji's joyo on-yomi list, or in its joyo kun-yomi
    list, or is longer than one character, ends in one of
    い き し ち に ひ み り and is in the kun-yomi list once that last
    character is replaced by its u-column counterpart, or is a proper
    prefix of an entry of the kun-yomi list.  A kanji in neither joyo
    table gets [False]. *)
Theorem is_joyo_spec (kanji reading : pystr) :
  let ons := default [] (JOYO_ONYOMI !! kanji) in
  let kuns := default [] (JOYO_KUNYOMI !! kanji) in
  ∃ b : bool,
    is_joyo kanji reading = Ok b
    ∧ (b = true ↔
         reading ∈ ons
         ∨ reading ∈ kuns
         ∨ (1 < length reading
            ∧ ∃ (stem : pystr) (i v : N),
                reading = stem ++ [i] ∧ i ∈ I_COLUMN
                ∧ i_to_u !! i = Some v ∧ stem ++ [v] ∈ kuns)
         ∨ (∃ kun : pystr,
              kun ∈ kuns ∧ reading `prefix_of` kun ∧ reading ≠ kun))
    ∧ (JOYO_ONYOMI !! kanji = None → JOYO_KUNYOMI !! kanji = None →
       b = false).
Proof.
  intros ons kuns. unfold is_joyo. subst ons kuns.
  assert (Hnil : ∀ reading : pystr,
            ¬ (reading ∈ @nil pystr
               ∨ (1 < length reading
                  ∧ ∃ (stem : pystr) (i v : N),
                      reading = stem ++ [i] ∧ i ∈ I_COLUMN
                      ∧ i_to_u !! i = Some v ∧ stem ++ [v] ∈ @nil pystr)
               ∨ (∃ kun : pystr,
                    kun ∈ @nil pystr ∧ reading `prefix_of` kun
                    ∧ reading ≠ kun))).
  { intros r [Hk|[(_ & ? & ? & ? & _ & _ & _ & Hk)|(? & Hk & _)]];
      by apply elem_of_nil in Hk. }
  destruct (JOYO_ONYOMI !! kanji) as [ons|] eqn:Hon; simpl.
  - case_bool_decide as Hin.
    { exists true. split; [done|]. split; [|done]. simpl. tauto. }
    destruct (JOYO_KUNYOMI !! kanji) as [kuns|] eqn:Hkun; simpl.
    + destruct (joyo_kun_checks kuns reading) as (b & Hok & Hb).
      exists b. split; [exact Hok|]. split; [|done].
      rewrite Hb. simpl. tauto.
    + exists false. split; [done|]. split; [|done].
      split; [done|]. intros [?|Hr]; [done|]. by apply Hnil in Hr.
  - destruct (JOYO_KUNYOMI !! kanji) as [kuns|] eqn:Hkun; simpl.
    + destruct (joyo_kun_checks kuns reading) as (b & Hok & Hb).
      exists b. split; [exact Hok|]. split; [|done].
      rewrite Hb. simpl. split; [tauto|].
      intros [Hr|?]; [by apply elem_of_nil in Hr|done].
    + exists false. split; [done|]. split; [|done].
      split; [done|]. intros [Hr|Hr]; [by apply elem_of_nil in Hr|].
      by apply Hnil in Hr.
Qed.
End JoyoClassifier.

(** ** Python built-ins *)

Section Builtins.
Context {A B : Type}.

Lemma foldM_app (f : A → B → result A) (a : A) (l1 l2 : list B) :
  foldM f a (l1 ++ l2) = (a' <- foldM f a l1 ;; foldM f a' l2).
Proof.
  revert a. induction l1 as [|b l1 IH]; intros a; simpl; [done|].
  destruct (f a b); simpl; [apply IH|done].
Qed.

Lemma mapM_length (f : A → result B) (l : list A) (bs : list B) :
  mapM f l = Ok bs → length bs = length l.
Proof.
  revert bs. induction l as [|a l IH]; intros bs; simpl.
  - by intros [= <-].
  - destruct (f a); simpl; [|done].
    destruct (mapM f l); simpl; [|done].
    intros [= <-]. simpl. f_equal. by apply IH.
Qed.

Lemma mapM_Forall (f : A → result B) (P : B → Prop) (l : list A)
    (bs : list B) :
  (∀ a b, f a = Ok b → P b) → mapM f l = Ok bs → Forall P bs.
Proof.
  intros Hf. revert bs. induction l as [|a l IH]; intros bs; simpl.
  - intros [= <-]. constructor.
  - destruct (f a) eqn:Ha; simpl; [|done].
    destruct (mapM f l); simpl; [|done].
    intros [= <-]. constructor; eauto.
Qed.

Lemma mapM_pointwise (f : A → result B) (l : list A) (bs : list B) :
  mapM f l = Ok bs → Forall2 (λ a b, f a = Ok b) l bs.
Proof.
  revert bs. induction l as [|a l IH]; intros bs; simpl.
  - intros [= <-]. constructor.
  - destruct (f a) eqn:Ha; simpl; [|done].
    destruct (mapM f l); simpl; [|done].
    intros [= <-]. constructor; eauto.
Qed.

Lemma mapM_Ok (f : A → result B) (l : list A) :
  Forall (λ a, ∃ b, f a = Ok b) l → ∃ bs, mapM f l = Ok bs.
Proof.
  induction 1 as [|a l [b Hb] _ [bs Hbs]]; simpl; [by eexists|].
  rewrite Hb, Hbs. simpl. by eexists.
Qed.
End Builtins.

Section Sorting.
Context {A : Type} (key : A → nat).

Lemma insert_desc_perm (y : A) (l : list A) :
  insert_desc key y l ≡ₚ y :: l.
Proof.
  induction l as [|x l IH]; simpl; [done|].
  case_bool_decide; [|done].
  rewrite IH. apply Permutation_swap.
Qed.

Lemma sort_desc_perm (l : list A) : sort_desc key l ≡ₚ l.
Proof.
  induction l as [|y l IH]; simpl; [done|].
  by rewrite insert_desc_perm, IH.
Qed.

Lemma descending_cons (x : A) (l : list A) :
  descending key (x :: l) ↔ Forall (λ y, key y ≤ key x) l ∧ descending key l.
Proof.
  split.
  - intros Hd. split.
    + apply Forall_lookup. intros j y Hy.
      apply (Hd 0 (S j) x y); [lia|done..].
    + intros i j a b Hij Ha Hb. apply (Hd (S i) (S j) a b); [lia|done..].
  - intros [Hx Hd] i j a b Hij Ha Hb.
    destruct j as [|j]; [lia|]. simpl in Hb.
    destruct i as [|i]; simpl in Ha.
    + injection Ha as <-. eapply Forall_lookup in Hx; eauto.
    + apply (Hd i j a b); [lia|done..].
Qed.

Lemma insert_desc_descending (y : A) (l : list A) :
  descending key l → descending key (insert_desc key y l).
Proof.
  induction l as [|x l IH]; simpl; intros Hd.
  - apply descending_cons. split; [constructor|]. intros i j ??? Hi.
    by rewrite lookup_nil in Hi.
  - apply descending_cons in Hd as [Hx Hd].
    case_bool_decide as Hlt.
    + apply descending_cons. split; [|by apply IH].
      rewrite insert_desc_perm. constructor; [lia|done].
    + apply descending_cons. split.
      * constructor; [lia|].
        eapply Forall_impl; [|exact Hx]. simpl. intros a Ha. lia.
      * apply descending_cons. done.
Qed.

Lemma sort_desc_descending (l : list A) : descending key (sort_desc key l).
Proof.
  induction l as [|y l IH]; simpl.
  - intros i j ??? Hi. by rewrite lookup_nil in Hi.
  - by apply insert_desc_descending.
Qed.

Lemma insert_desc_stable (n : nat) (y : A) (l : list A) :
  filter (λ a, key a = n) (insert_desc key y l)
  = filter (λ a, key a = n) (y :: l).
Proof.
  induction l as [|x l IH]; simpl; [done|].
  case_bool_decide as Hlt; [|done].
  rewrite (filter_cons _ x), IH, !filter_cons.
  repeat case_decide; try done; lia.
Qed.

(** Elements of equal key keep the order they had. *)
Lemma sort_desc_stable (n : nat) (l : list A) :
  filter (λ a, key a = n) (sort_desc key l) = filter (λ a, key a = n) l.
Proof.
  induction l as [|y l IH]; simpl; [done|].
  rewrite insert_desc_stable, !filter_cons, IH. done.
Qed.
End Sorting.

(** ** The matcher *)

Section EngineFacts.
Context `{UnicodeDB}.

Lemma plus_greedy_sound (a : atom) (s : pystr)
    (k : pystr → option captures) (m : captures) :
  plus_greedy a s k = Some m →
  ∃ pre s', s = pre ++ s' ∧ pre ≠ [] ∧ k s' = Some m.
Proof.
  induction s as [|c s IH]; simpl; [done|].
  destruct (atom_ok a c); [|done].
  destruct (plus_greedy a s k) as [m'|] eqn:Hrec.
  - intros [= ->]. destruct (IH eq_refl) as (pre & s' & -> & _ & Hk).
    by exists (c :: pre), s'.
  - intros Hk. by exists [c], s.
Qed.

Lemma plus_lazy_sound (a : atom) (s : pystr)
    (k : pystr → option captures) (m : captures) :
  plus_lazy a s k = Some m →
  ∃ pre s', s = pre ++ s' ∧ pre ≠ [] ∧ k s' = Some m.
Proof.
  induction s as [|c s IH]; simpl; [done|].
  destruct (atom_ok a c); [|done].
  destruct (k s) as [m'|] eqn:Hk.
  - intros [= ->]. by exists [c], s.
  - intros Hrec. destruct (IH Hrec) as (pre & s' & -> & _ & Hk').
    by exists (c :: pre), s'.
Qed.

(** A pattern without groups consumes a prefix of the text and leaves
    the captures as they were. *)
Lemma rmatch_group_free (whole : pystr) (r : regex) (s : pystr)
    (caps : captures) (k : pystr → captures → option captures)
    (m : captures) :
  group_free r = true → rmatch whole r s caps k = Some m →
  ∃ pre s', s = pre ++ s' ∧ k s' caps = Some m.
Proof.
  revert s k.
  induction r as [|a|r1 IH1 r2 IH2|r1 IH1 r2 IH2|r1 IH1|a|a|name r1 IH1| |];
    intros s k Hfree; simpl in *.
  - intros Hk. by exists [], s.
  - destruct s as [|c s]; [done|]. destruct (atom_ok a c); [|done].
    intros Hk. by exists [c], s.
  - apply andb_prop in Hfree as [Hf1 Hf2]. intros Hm.
    apply IH1 in Hm as (pre1 & s1 & -> & Hm); [|done].
    apply IH2 in Hm as (pre2 & s2 & -> & Hm); [|done].
    exists (pre1 ++ pre2), s2. by rewrite <- app_assoc.
  - apply andb_prop in Hfree as [Hf1 Hf2].
    destruct (rmatch whole r1 s caps k) as [m'|] eqn:Hm1.
    + intros [= ->]. by eapply IH1.
    + by apply IH2.
  - destruct (rmatch whole r1 s caps k) as [m'|] eqn:Hm1.
    + intros [= ->]. by eapply IH1.
    + intros Hk. by exists [], s.
  - intros Hm. apply plus_greedy_sound in Hm as (pre & s' & -> & _ & Hk).
    by exists pre, s'.
  - intros Hm. apply plus_lazy_sound in Hm as (pre & s' & -> & _ & Hk).
    by exists pre, s'.
  - done.
  - case_bool_decide; [|done]. intros Hk. by exists [], s.
  - destruct (at_end s); [|done]. intros Hk. by exists [], s.
Qed.

Lemma take_consumed (pre s' : pystr) :
  take (length (pre ++ s') - length s') (pre ++ s') = pre.
Proof.
  rewrite length_app.
  replace (length pre + length s' - length s') with (length pre) by lia.
  apply take_app_length.
Qed.

(** A pattern made of pieces and closed by [$]: the match has one
    capture per slot, in order, under the slot's name; what is left
    after the pieces is the end of the text; and when every piece is a
    slot the captures, put end to end, are the text that was consumed. *)
Lemma rmatch_pieces (whole : pystr) (pieces : list regex) (s : pystr)
    (caps m : captures) :
  Forall is_piece pieces →
  rmatch whole (seq_of (pieces ++ [Eol])) s caps (λ _ c, Some c) = Some m →
  ∃ new s',
    m = caps ++ new ∧ new.*1 = slot_names pieces ∧ at_end s' = true
    ∧ (Forall is_slot pieces → s = concat new.*2 ++ s').
Proof.
  intros Hpieces. revert s caps.
  induction Hpieces as [|r pieces Hr _ IH]; intros s caps; simpl.
  - destruct (at_end s) eqn:Hend; [|done]. intros [= <-].
    exists [], s. by rewrite app_nil_r.
  - destruct Hr as [(name & reg & -> & Hfree)|Hfree].
    + simpl. intros Hm.
      apply rmatch_group_free in Hm as (pre & s1 & -> & Hm); [|done].
      rewrite take_consumed in Hm.
      apply IH in Hm as (new & s' & -> & Hnames & Hend & Hcat).
      exists ((name, pre) :: new), s'. split_and!.
      * by rewrite <- app_assoc.
      * change (name :: new.*1 = name :: slot_names pieces).
        by rewrite Hnames.
      * done.
      * intros Hslots. apply Forall_cons_1 in Hslots as [_ Hslots].
        simpl. rewrite <- app_assoc. f_equal. by apply Hcat.
    + intros Hm.
      apply rmatch_group_free in Hm as (pre & s1 & -> & Hm); [|done].
      apply IH in Hm as (new & s' & -> & Hnames & Hend & Hcat).
      exists new, s'. split_and!; [done| |done|].
      * rewrite Hnames. unfold slot_names. simpl.
        destruct r; try done.
      * intros Hslots. apply Forall_cons_1 in Hslots as [Hslot _].
        destruct Hslot as (name & reg & -> & _). done.
Qed.

Lemma plus_greedy_is_Some (a : atom) (s : pystr)
    (k : pystr → option captures) :
  is_Some (plus_greedy a s k) ↔
  ∃ pre s', s = pre ++ s' ∧ pre ≠ []
            ∧ forallb (atom_ok a) pre = true ∧ is_Some (k s').
Proof.
  split.
  - induction s as [|c s IH]; simpl; [by intros [? ?]|].
    destruct (atom_ok a c) eqn:Hc; [|by intros [? ?]].
    destruct (plus_greedy a s k) as [m'|] eqn:Hrec.
    + intros _. destruct IH as (pre & s' & -> & _ & Hall & Hk); [done|].
      exists (c :: pre), s'. simpl. by rewrite Hc.
    + intros Hk. exists [c], s. simpl. by rewrite Hc.
  - intros (pre & s' & -> & Hne & Hall & Hk).
    induction pre as [|c pre IH]; [done|]. simpl in *.
    apply andb_prop in Hall as [-> Hall].
    destruct pre as [|c' pre].
    + simpl. by destruct (plus_greedy a s' k).
    + destruct IH as [m' Hm']; [done..|]. by rewrite Hm'.
Qed.

Lemma plus_lazy_is_Some (a : atom) (s : pystr)
    (k : pystr → option captures) :
  is_Some (plus_lazy a s k) ↔
  ∃ pre s', s = pre ++ s' ∧ pre ≠ []
            ∧ forallb (atom_ok a) pre = true ∧ is_Some (k s').
Proof.
  split.
  - induction s as [|c s IH]; simpl; [by intros [? ?]|].
    destruct (atom_ok a c) eqn:Hc; [|by intros [? ?]].
    destruct (k s) as [m'|] eqn:Hk.
    + intros _. exists [c], s. simpl. by rewrite Hc, Hk.
    + intros Hrec. destruct IH as (pre & s' & -> & _ & Hall & Hk'); [done|].
      exists (c :: pre), s'. simpl. by rewrite Hc.
  - intros (pre & s' & -> & Hne & Hall & Hk).
    induction pre as [|c pre IH]; [done|]. simpl in *.
    apply andb_prop in Hall as [-> Hall].
    destruct pre as [|c' pre].
    + simpl. destruct Hk as [m' ->]. done.
    + destruct (k ((c' :: pre) ++ s')); [done|]. by apply IH.
Qed.

(** The greedy and the lazy pattern of [guess_split] match the same
    texts. *)
Lemma greedy_lazy_same_texts (whole : pystr) (g l : list regex)
    (s : pystr) (caps1 caps2 : captures) :
  Forall2 same_but_lazy g l →
  is_Some (rmatch whole (seq_of (g ++ [Eol])) s caps1 (λ _ c, Some c)) ↔
  is_Some (rmatch whole (seq_of (l ++ [Eol])) s caps2 (λ _ c, Some c)).
Proof.
  intros Hgl. revert s caps1 caps2.
  induction Hgl as [|g1 l1 g l Hone _ IH]; intros s caps1 caps2; simpl.
  - by destruct (at_end s).
  - destruct Hone as [(c & -> & ->)|[-> ->]]; simpl.
    + destruct s as [|c' s]; [done|]. destruct (bool_decide (c' = c)); [|done].
      apply IH.
    + rewrite plus_greedy_is_Some, plus_lazy_is_Some.
      split; intros (pre & s' & -> & Hne & Hall & Hk);
        exists pre, s'; (split_and!; [done..|]);
        eapply IH; exact Hk.
Qed.
End EngineFacts.

(** ** The pattern compiler *)

Lemma repr_uint_inj (d d' : Decimal.uint) : repr_uint d = repr_uint d' → d = d'.
Proof.
  revert d'. induction d; intros d'; destruct d'; simpl; try done;
    intros [= Heq]; f_equal; by apply IHd.
Qed.

Lemma repr_inj (n m : nat) : repr n = repr m → n = m.
Proof.
  intros Heq. apply repr_uint_inj in Heq.
  by apply DecimalNat.Unsigned.to_uint_inj.
Qed.

Lemma repr_nonempty (n : nat) : repr n ≠ [].
Proof.
  unfold repr. intros Heq.
  assert (Hnil : Nat.to_uint n = Decimal.Nil).
  { destruct (Nat.to_uint n); simpl in Heq; done. }
  pose proof (DecimalNat.Unsigned.to_of (Nat.to_uint n)) as Hnorm.
  rewrite DecimalNat.Unsigned.of_to, Hnil in Hnorm. discriminate.
Qed.

Lemma japanese_matchreg_group_free (hiragana : pystr) (rs : list regex) :
  japanese_matchreg hiragana = Ok rs → Forall (λ r, group_free r = true) rs.
Proof.
  unfold japanese_matchreg. destruct hiragana as [|first rest]; [done|].
  assert (Hhead : Forall (λ r, group_free r = true)
            (match DAKUON !! first with
             | Some cls => [Atom (Cls cls)]
             | None => [Atom (Lit first)]
             end ++ ((Atom ∘ Lit) <$> slice_1_m1 (first :: rest)))).
  { apply Forall_app. split.
    - generalize (DAKUON !! first). intros [cls|]; by repeat constructor.
    - apply Forall_fmap, Forall_true. intros c. reflexivity. }
  revert Hhead.
  generalize (match DAKUON !! first with
              | Some cls => [Atom (Cls cls)]
              | None => [Atom (Lit first)]
              end ++ ((Atom ∘ Lit) <$> slice_1_m1 (first :: rest))).
  intros head Hhead. cbv zeta.
  destruct (bool_decide (1 < length (first :: rest))); [|by intros [= <-]].
  destruct (list.last (first :: rest)) as [l|]; [|done].
  destruct (bool_decide (l ∈ SOKUON_LAST)); intros [= <-];
    apply Forall_app; (split; [exact Hhead|]);
    constructor; first [reflexivity|constructor].
Qed.

Lemma seq_of_group_free (rs : list regex) :
  Forall (λ r, group_free r = true) rs → group_free (seq_of rs) = true.
Proof. induction 1 as [|r rs Hr _ IH]; simpl; [done|]. by rewrite Hr, IH. Qed.

Lemma alt_join_group_free (rs : list regex) :
  Forall (λ r, group_free r = true) rs → group_free (alt_join rs) = true.
Proof.
  induction 1 as [|r rs Hr _ IH]; simpl; [done|].
  destruct rs; [done|]. simpl in *. by rewrite Hr, IH.
Qed.

Section Compiler.
Context `{UnicodeDB} `{Lexicon}.

Lemma nonalpha_spec (c : char) : nonalpha c = negb (is_word c) || is_digit c.
Proof.
  unfold nonalpha, re_match. simpl.
  destruct (is_word c), (is_digit c); reflexivity.
Qed.

Lemma compile_step_Ok (st st' : compile_state) (c : char) :
  compile_step st c = Ok st' →
  ∃ reg, step_reg st c reg
    ∧ matchreg st' = matchreg st ++ [Group (step_name st c) reg]
    ∧ prev st' = Some (c, reg)
    ∧ count st' = <[c := match count st !! c with
                         | Some n => n + 1
                         | None => 1
                         end]> (count st).
Proof.
  unfold compile_step, step_reg, step_name.
  case_bool_decide as Hy.
  - destruct (mapM _ _) as [regs|] eqn:Hregs; simpl; [|done].
    destruct (count st !! c); destruct (nonalpha c); intros [= <-]; simpl;
      (eexists; split; [left; split; [done|]; eexists; split; done|done]).
  - case_bool_decide as Hc.
    + destruct (prev st) as [[pc preg]|] eqn:Hprev; simpl; [|done].
      destruct (count st !! c); destruct (nonalpha c); intros [= <-]; simpl;
        (eexists; split; [right; left; split_and!; eauto|done]).
    + simpl.
      destruct (count st !! c); destruct (nonalpha c); intros [= <-]; simpl;
        (eexists; split; [right; right; split_and!; eauto|done]).
Qed.

Lemma occurrences_snoc (c x : N) (w : pystr) :
  occurrences c (w ++ [x])
  = occurrences c w + (if decide (x = c) then 1 else 0).
Proof.
  unfold occurrences. rewrite list.filter_app, length_app. f_equal.
  rewrite filter_cons. by case_decide.
Qed.

Lemma step_reg_group_free (st : compile_state) (c : char) (reg : regex) :
  (∀ pc preg, prev st = Some (pc, preg) → group_free preg = true) →
  step_reg st c reg → group_free reg = true.
Proof.
  intros Hprev [(_ & regs & Hregs & ->)|[(_ & _ & pc & Hp)|(_ & _ & ->)]].
  - apply alt_join_group_free, Forall_fmap.
    eapply Forall_impl;
      [|exact (mapM_Forall _ _ _ _ japanese_matchreg_group_free Hregs)].
    intros rs Hrs. by apply seq_of_group_free.
  - by eapply Hprev.
  - done.
Qed.

Lemma compile_inv_step (w : pystr) (st st' : compile_state) (c : char) :
  compile_inv w st → compile_step st c = Ok st' →
  compile_inv (w ++ [c]) st'.
Proof.
  intros (Hlen & Hslots & Hcount & Hprev) Hstep.
  apply compile_step_Ok in Hstep as (reg & Hreg & Hm & Hp & Hc).
  assert (Hfree : group_free reg = true).
  { eapply step_reg_group_free; [|exact Hreg].
    intros pc preg Heq. rewrite Heq in Hprev. tauto. }
  split_and!.
  - rewrite Hm, !length_app, Hlen. done.
  - rewrite Hm. apply Forall_app. split; [done|].
    constructor; [|constructor]. by eexists _, _.
  - intros c'. rewrite Hc, occurrences_snoc.
    destruct (decide (c = c')) as [<-|Hne].
    + rewrite lookup_insert_eq, Hcount.
      repeat case_bool_decide; try lia; f_equal; lia.
    + rewrite lookup_insert_ne by done. rewrite Hcount.
      repeat case_bool_decide; try lia; f_equal; lia.
  - rewrite Hp, Hm, !list.last_snoc. eauto.
Qed.

Lemma compile_init_inv : compile_inv [] compile_init.
Proof.
  split_and!; done.
Qed.

Lemma compile_prefix_inv (w : pystr) (st : compile_state) :
  foldM compile_step compile_init w = Ok st → compile_inv w st.
Proof.
  revert st. induction w as [|c w IH] using rev_ind; intros st.
  - intros [= <-]. apply compile_init_inv.
  - rewrite foldM_app.
    destruct (foldM compile_step compile_init w) as [st0|]; [|done].
    simpl. destruct (compile_step st0 c) as [st1|] eqn:Hstep; [|done].
    simpl. intros [= <-]. eapply compile_inv_step; eauto.
Qed.

Lemma compile_grows (st st' : compile_state) (l : pystr) :
  foldM compile_step st l = Ok st' →
  ∃ more, matchreg st' = matchreg st ++ more.
Proof.
  revert st. induction l as [|c l IH]; intros st; simpl.
  - intros [= <-]. exists []. by rewrite app_nil_r.
  - destruct (compile_step st c) as [st1|] eqn:Hstep; [|done]. simpl.
    intros Hrest. apply IH in Hrest as [more ->].
    apply compile_step_Ok in Hstep as (reg & _ & -> & _).
    eexists. by rewrite <- app_assoc.
Qed.

(** The piece written for the character at position [i]. *)
Lemma pieces_at (w : pystr) (st : compile_state) (i : nat) (c : char) :
  foldM compile_step compile_init w = Ok st → w !! i = Some c →
  ∃ sti reg more,
    foldM compile_step compile_init (take i w) = Ok sti
    ∧ compile_inv (take i w) sti
    ∧ step_reg sti c reg
    ∧ matchreg st = matchreg sti ++ Group (step_name sti c) reg :: more
    ∧ matchreg st !! i = Some (Group (step_name sti c) reg).
Proof.
  intros Hw Hi.
  rewrite <- (take_drop_middle w i c Hi), foldM_app in Hw.
  destruct (foldM compile_step compile_init (take i w)) as [sti|] eqn:Hsti;
    [|done].
  simpl in Hw.
  destruct (compile_step sti c) as [st1|] eqn:Hstep; [|done]. simpl in Hw.
  apply compile_grows in Hw as [more Hmore].
  pose proof (compile_prefix_inv _ _ Hsti) as Hinv.
  apply compile_step_Ok in Hstep as (reg & Hreg & Hm & _).
  exists sti, reg, more. rewrite Hmore, Hm, <- app_assoc. simpl.
  split_and!; [done..|].
  destruct Hinv as (Hlen & _).
  apply lookup_lt_Some in Hi.
  rewrite length_take_le in Hlen by lia.
  rewrite <- Hlen at 1. apply list_lookup_middle. done.
Qed.

Lemma step_name_spec (w : pystr) (sti : compile_state) (i : nat) (c : char) :
  compile_inv (take i w) sti → w !! i = Some c →
  step_name sti c
  = if negb (is_word c) || is_digit c then None
    else Some (groupname_of w i c).
Proof.
  intros (_ & _ & Hcount & _) Hi.
  unfold step_name, groupname_of, occurrence.
  rewrite nonalpha_spec. destruct (negb (is_word c) || is_digit c); [done|].
  f_equal. rewrite (take_S_r _ _ _ Hi), occurrences_snoc, Hcount.
  rewrite decide_True by done.
  repeat case_bool_decide; try lia; try done.
Qed.

Lemma yomi_pieces_Ok (word : pystr) (pieces : list regex) :
  yomi_pieces word = Ok pieces →
  ∃ st, foldM compile_step compile_init word = Ok st
        ∧ pieces = matchreg st.
Proof.
  unfold yomi_pieces.
  destruct (foldM compile_step compile_init word) as [st|]; [|done].
  intros [= <-]. by exists st.
Qed.

Lemma yomi_matchreg_Ok (kanji : pystr) (reg : regex) :
  yomi_matchreg kanji = Ok reg →
  ∃ pieces, yomi_pieces kanji = Ok pieces ∧ reg = seq_of (pieces ++ [Eol])
            ∧ forallb is_identifier (group_names reg) = true.
Proof.
  unfold yomi_matchreg, re_compile.
  destruct (yomi_pieces kanji) as [pieces|]; [|done]. simpl.
  destruct (forallb is_identifier (group_names (seq_of (pieces ++ [Eol]))))
    eqn:Hid; [|done].
  intros [= <-]. by exists pieces.
Qed.

Lemma yomidict_compiled (kanji reading : pystr) (reg : regex) :
  yomi_matchreg kanji = Ok reg →
  yomidict kanji reading
  = match re_match reg reading with
    | None => Raise (UnknownReading kanji reading)
    | Some m => Ok (groupdict m)
    end.
Proof. unfold yomidict. by intros ->. Qed.

Lemma yomidict_Ok (kanji reading : pystr) (d : list (pystr * pystr)) :
  yomidict kanji reading = Ok d →
  ∃ pieces m,
    yomi_pieces kanji = Ok pieces
    ∧ yomi_matchreg kanji = Ok (seq_of (pieces ++ [Eol]))
    ∧ re_match (seq_of (pieces ++ [Eol])) reading = Some m
    ∧ d = groupdict m.
Proof.
  intros Hd. destruct (yomi_matchreg kanji) as [reg|] eqn:Hreg.
  2:{ unfold yomidict in Hd. by rewrite Hreg in Hd. }
  rewrite (yomidict_compiled _ _ _ Hreg) in Hd.
  destruct (yomi_matchreg_Ok _ _ Hreg) as (pieces & Hp & -> & _).
  destruct (re_match (seq_of (pieces ++ [Eol])) reading) as [m|] eqn:Hm;
    [|done].
  injection Hd as <-. by exists pieces, m.
Qed.

Lemma occurrences_app (c : N) (w1 w2 : pystr) :
  occurrences c (w1 ++ w2) = occurrences c w1 + occurrences c w2.
Proof. unfold occurrences. by rewrite list.filter_app, length_app. Qed.

Lemma occurrence_lt (w : pystr) (i j : nat) (c : char) :
  i < j → w !! j = Some c → occurrence w i c < occurrence w j c.
Proof.
  intros Hij Hj. unfold occurrence.
  rewrite (take_S_r _ _ _ Hj), occurrences_snoc, decide_True by done.
  rewrite <- (take_drop (S i) (take j w)), take_take, occurrences_app.
  replace (S i `min` j) with (S i) by lia. lia.
Qed.

Lemma groupname_of_inj (w : pystr) (i j : nat) (c c' : char) :
  groupname_of w i c = groupname_of w j c' →
  c = c' ∧ occurrence w i c = occurrence w j c'.
Proof.
  unfold groupname_of. repeat case_bool_decide.
  - intros [= ->]. split; [done|congruence].
  - intros [= -> Heq]. symmetry in Heq. by apply repr_nonempty in Heq.
  - intros [= -> Heq]. by apply repr_nonempty in Heq.
  - intros [= -> Heq]. split; [done|]. by apply repr_inj.
Qed.

Lemma piece_name_at (word : pystr) (st : compile_state) (i : nat)
    (c : char) :
  foldM compile_step compile_init word = Ok st → word !! i = Some c →
  ∃ reg, matchreg st !! i
         = Some (Group (if negb (is_word c) || is_digit c then None
                        else Some (groupname_of word i c)) reg).
Proof.
  intros Hst Hi.
  destruct (pieces_at _ _ _ _ Hst Hi) as (sti & reg & _ & _ & Hinv & _ & _ & Hp).
  exists reg. by rewrite <- (step_name_spec _ _ _ _ Hinv Hi).
Qed.

(** C7: every character of the word gets one capture group.  The group
    of a character that [\W] or [\d] matches is unnamed; the group of
    any other character is named by the character alone at its first
    occurrence in the word and by the character followed by its
    occurrence count (2, 3, ...) at the later ones, and no two groups
    of the pattern have the same name. *)
Theorem slot_names_by_occurrence (word : pystr) (pieces : list regex) :
  yomi_pieces word = Ok pieces →
  (∀ i c, word !! i = Some c →
     ∃ reg, pieces !! i
            = Some (Group (if negb (is_word c) || is_digit c then None
                           else Some (groupname_of word i c)) reg))
  ∧ (∀ i j name ri rj,
       pieces !! i = Some (Group (Some name) ri) →
       pieces !! j = Some (Group (Some name) rj) → i = j).
Proof.
  intros Hp. apply yomi_pieces_Ok in Hp as (st & Hst & ->).
  split; [intros i c; by apply piece_name_at|].
  assert (Hlen : length (matchreg st) = length word)
    by apply (compile_prefix_inv _ _ Hst).
  assert (Hname : ∀ i name r,
            matchreg st !! i = Some (Group (Some name) r) →
            ∃ c, word !! i = Some c ∧ name = groupname_of word i c).
  { intros i name r Hi.
    destruct (lookup_lt_is_Some_2 word i) as [c Hc].
    { rewrite <- Hlen. by eapply lookup_lt_Some. }
    exists c. split; [done|].
    destruct (piece_name_at _ _ _ _ Hst Hc) as (reg & Hreg).
    rewrite Hreg in Hi. destruct (negb (is_word c) || is_digit c); congruence. }
  intros i j name ri rj Hi Hj.
  apply Hname in Hi as (ci & Hci & ->).
  apply Hname in Hj as (cj & Hcj & Heq).
  apply groupname_of_inj in Heq as [-> Hocc].
  destruct (Nat.lt_trichotomy i j) as [Hlt|[->|Hlt]]; [|done|].
  - pose proof (occurrence_lt _ _ _ _ Hlt Hcj). lia.
  - pose proof (occurrence_lt _ _ _ _ Hlt Hci). lia.
Qed.

Lemma alternatives_seq_of (rs : list regex) :
  alternatives (seq_of rs) = [seq_of rs].
Proof. by destruct rs. Qed.

Lemma pieces_of_seq_of (rs : list regex) : pieces_of (seq_of rs) = rs.
Proof. induction rs as [|r rs IH]; simpl; [done|]. by rewrite IH. Qed.

Lemma alternatives_alt_join (rs : list regex) :
  rs ≠ [] → Forall (λ r, alternatives r = [r]) rs →
  alternatives (alt_join rs) = rs.
Proof.
  intros Hne Hall. induction Hall as [|r rs Hr Hall IH]; [done|].
  destruct rs as [|r' rs]; [exact Hr|].
  change (alternatives r ++ alternatives (alt_join (r' :: rs))
          = r :: r' :: rs).
  rewrite Hr, IH; done.
Qed.

(** C6: at a character that has candidate readings in the lexicon, the
    pattern of its group is an alternation with one alternative per
    candidate, each the phonological expansion of its candidate.  Read
    left to right, the candidates are the on-yomi candidates followed
    by the kun-yomi candidates, rearranged longest first, candidates of
    equal length staying in the order they had (on-yomi before
    kun-yomi, each in table order). *)
Theorem alternation_longest_first (word : pystr) (pieces : list regex)
    (i : nat) (c : char) :
  yomi_pieces word = Ok pieces → word !! i = Some c →
  default [] (ONYOMI !! [c]) ++ default [] (KUNYOMI !! [c]) ≠ [] →
  ∃ name reg cands,
    pieces !! i = Some (Group name reg)
    ∧ Forall2 expansion cands (alternatives reg)
    ∧ cands ≡ₚ default [] (ONYOMI !! [c]) ++ default [] (KUNYOMI !! [c])
    ∧ descending length cands
    ∧ ∀ n, filter (λ y, length y = n) cands
           = filter (λ y, length y = n)
               (default [] (ONYOMI !! [c]) ++ default [] (KUNYOMI !! [c])).
Proof.
  intros Hp Hi Hne. apply yomi_pieces_Ok in Hp as (st & Hst & ->).
  destruct (pieces_at _ _ _ _ Hst Hi)
    as (sti & reg & _ & _ & _ & Hreg & _ & Hpiece).
  change (yomis_of c ≠ []) in Hne.
  destruct Hreg as [(_ & regs & Hregs & ->)|[(Hnil & _)|(Hnil & _)]];
    [|done..].
  exists (step_name sti c), (alt_join (seq_of <$> regs)),
         (sort_desc length (yomis_of c)).
  split_and!; [done| | | |].
  - rewrite alternatives_alt_join.
    + apply Forall2_fmap_r. apply mapM_pointwise in Hregs.
      eapply Forall2_impl; [|exact Hregs]. intros y rs Hy.
      unfold expansion. simpl. by rewrite pieces_of_seq_of.
    + intros Hnil%fmap_nil_inv. subst regs. apply mapM_length in Hregs.
      rewrite (Permutation_length (sort_desc_perm length (yomis_of c)))
        in Hregs.
      symmetry in Hregs. by apply length_zero_iff_nil in Hregs.
    + apply Forall_fmap, Forall_true. intros rs. apply alternatives_seq_of.
  - apply sort_desc_perm.
  - apply sort_desc_descending.
  - intros n. apply sort_desc_stable.
Qed.

(** C3 as amended: where the lexicon has no reading for the repetition
    mark, a word that starts with it is refused, and a repetition mark
    anywhere else gets the very pattern of the character before it;
    its group however is named like that of any other character, from
    the repetition mark itself and its own occurrence count. *)
Theorem repetition_mark (word : pystr) :
  default [] (ONYOMI !! [NOMA]) ++ default [] (KUNYOMI !! [NOMA]) = [] →
  (∀ rest, yomi_pieces (NOMA :: rest)
           = Raise (ValueError "Repetition character 々 following nothing"))
  ∧ (∀ pieces i,
       yomi_pieces word = Ok pieces → word !! (S i) = Some NOMA →
       ∃ name reg,
         pieces !! i = Some (Group name reg)
         ∧ pieces !! (S i)
           = Some (Group (if negb (is_word NOMA) || is_digit NOMA then None
                          else Some (groupname_of word (S i) NOMA)) reg)).
Proof.
  intros Hnoma. change (yomis_of NOMA = []) in Hnoma. split.
  - intros rest. unfold yomi_pieces. simpl. unfold compile_step at 1.
    rewrite Hnoma.
    rewrite (bool_decide_eq_false_2 (@nil pystr ≠ [])) by (by intros ?).
    rewrite (bool_decide_eq_true_2 (NOMA = NOMA)) by done. reflexivity.
  - intros pieces i Hp Hi. apply yomi_pieces_Ok in Hp as (st & Hst & ->).
    destruct (pieces_at _ _ _ _ Hst Hi)
      as (sti & reg & more & _ & Hinv & Hreg & Hm & Hpiece).
    rewrite (step_name_spec _ _ _ _ Hinv Hi) in Hpiece, Hm.
    destruct Hreg as [(Hy & _)|[(_ & _ & pc & Hprev)|(_ & Hc & _)]];
      [done| |done].
    destruct Hinv as (Hlen & _ & _ & Hlast). rewrite Hprev in Hlast.
    destruct Hlast as (_ & _ & name & Hlast).
    exists name, reg. split; [|done].
    rewrite Hm, lookup_app_l.
    2:{ rewrite Hlen, length_take_le; [lia|].
        apply lookup_lt_Some in Hi. lia. }
    rewrite list.last_lookup in Hlast.
    rewrite Hlen, length_take_le in Hlast
      by (apply lookup_lt_Some in Hi; lia).
    done.
Qed.
End Compiler.

(** ** Reading split *)

Lemma slot_names_slots (pieces : list regex) :
  Forall is_slot pieces → length (slot_names pieces) = length pieces.
Proof.
  induction 1 as [|r pieces (name & reg & -> & _) _ IH]; [done|].
  change (S (length (slot_names pieces)) = S (length pieces)). by rewrite IH.
Qed.

Lemma slot_names_lookup (pieces : list regex) (i : nat)
    (n : option (list N)) :
  Forall is_slot pieces → slot_names pieces !! i = Some n →
  ∃ reg, pieces !! i = Some (Group n reg).
Proof.
  intros Hslots. revert i.
  induction Hslots as [|r pieces (name & reg & -> & _) _ IH]; intros i;
    [done|].
  change (slot_names (Group name reg :: pieces))
    with (name :: slot_names pieces).
  destruct i as [|i]; simpl.
  - intros [= ->]. by exists reg.
  - apply IH.
Qed.

Lemma groupdict_all_named (m : list (option (list N) * list N)) :
  Forall (λ n : option (list N), is_Some n) m.*1 → (groupdict m).*2 = groups m.
Proof.
  induction m as [|[[n|] v] m IH]; intros Hall; [done| |].
  - apply Forall_cons_1 in Hall as [_ Hall].
    change (v :: (groupdict m).*2 = v :: groups m). by rewrite IH.
  - apply Forall_cons_1 in Hall as [[? Hn] _]. done.
Qed.

Lemma at_end_no_newline (consumed s' : pystr) :
  at_end s' = true → list.last (consumed ++ s') ≠ Some NEWLINE → s' = [].
Proof.
  intros Hend Hlast. destruct s' as [|c [|c' s']]; [done| |done].
  simpl in Hend. apply bool_decide_eq_true in Hend as ->.
  by rewrite list.last_snoc in Hlast.
Qed.

Section ReadingSplit.
Context `{UnicodeDB} `{Lexicon}.

(** C5 as amended: when [yomidict] returns and the reading does not end
    in a newline, the match has one capture per character of the word
    and the captures of all groups, named or not, put end to end in
    slot order are exactly the reading.  The returned mapping holds the
    named groups only; it holds every capture, and so spells the whole
    reading, when no character of the word is one that [\W] or [\d]
    matches. *)
Theorem yomidict_captures (kanji reading : pystr)
    (d : list (pystr * pystr)) :
  yomidict kanji reading = Ok d →
  list.last reading ≠ Some NEWLINE →
  ∃ reg m,
    yomi_matchreg kanji = Ok reg ∧ re_match reg reading = Some m
    ∧ d = groupdict m
    ∧ length (groups m) = length kanji
    ∧ concat (groups m) = reading
    ∧ (Forall (λ c, negb (is_word c) || is_digit c = false) kanji →
       concat d.*2 = reading).
Proof.
  intros Hd Hnl.
  apply yomidict_Ok in Hd as (pieces & m & Hpieces & Hcompiled & Hm & ->).
  exists (seq_of (pieces ++ [Eol])), m.
  split; [done|]. split; [done|]. split; [done|].
  apply yomi_pieces_Ok in Hpieces as (st & Hst & ->).
  destruct (compile_prefix_inv _ _ Hst) as (Hlen & Hslots & _).
  unfold re_match in Hm.
  apply rmatch_pieces in Hm as (new & s' & -> & Hnames & Hend & Hcat).
  2:{ eapply Forall_impl; [|exact Hslots]. intros r Hr. by left. }
  rewrite app_nil_l. specialize (Hcat Hslots).
  assert (Hs' : s' = []).
  { eapply at_end_no_newline; [done|]. by rewrite <- Hcat. }
  subst s'. rewrite app_nil_r in Hcat.
  assert (Hcount : length (groups new) = length kanji).
  { unfold groups. rewrite length_fmap, <- (length_fmap fst), Hnames.
    by rewrite slot_names_slots. }
  split; [done|]. split; [done|].
  intros Hword. rewrite groupdict_all_named; [done|].
  rewrite Hnames. apply Forall_lookup. intros i n Hn.
  apply slot_names_lookup in Hn as [reg Hreg]; [|done].
  destruct (lookup_lt_is_Some_2 kanji i) as [c Hc].
  { rewrite <- Hlen. by eapply lookup_lt_Some. }
  destruct (piece_name_at _ _ _ _ Hst Hc) as (reg' & Hreg').
  rewrite Hreg in Hreg'. injection Hreg' as -> _.
  eapply Forall_lookup in Hword; [|exact Hc]. simpl in Hword.
  rewrite Hword. by eexists.
Qed.
End ReadingSplit.

(** ** Splitting without a lexicon *)

Section Guess.
Context `{UnicodeDB}.

Lemma kanji_re_match (c : char) :
  bool_decide (is_Some (re_match (Atom PHan) [c])) = is_Han c.
Proof. unfold re_match. simpl. by destruct (is_Han c). Qed.

Lemma slot_names_snoc (pieces : list regex) (r : regex) :
  slot_names (pieces ++ [r]) = slot_names pieces ++ slot_names [r].
Proof. apply omap_app. Qed.

Lemma guess_step_kanji (st : guess_state) (c : char) :
  is_Han c = true →
  guess_step st c
  = {| kanjis := kanjis st ++ [c];
       matchreg_greedy :=
         matchreg_greedy st ++ [Group None (Plus PHiragana)];
       matchreg_nongreedy :=
         matchreg_nongreedy st ++ [Group None (PlusLazy PHiragana)] |}.
Proof. intros Hc. unfold guess_step. by rewrite kanji_re_match, Hc. Qed.

Lemma guess_step_other (st : guess_state) (c : char) :
  is_Han c = false →
  guess_step st c
  = {| kanjis := kanjis st;
       matchreg_greedy := matchreg_greedy st ++ [Atom (Lit c)];
       matchreg_nongreedy := matchreg_nongreedy st ++ [Atom (Lit c)] |}.
Proof. intros Hc. unfold guess_step. by rewrite kanji_re_match, Hc. Qed.

(** What the first loop of [guess_split] leaves in its variables. *)
Lemma guess_loop_inv (majiribun : pystr) :
  Forall2 same_but_lazy (matchreg_greedy (guess_loop majiribun))
                        (matchreg_nongreedy (guess_loop majiribun))
  ∧ Forall is_piece (matchreg_greedy (guess_loop majiribun))
  ∧ Forall is_piece (matchreg_nongreedy (guess_loop majiribun))
  ∧ length (slot_names (matchreg_greedy (guess_loop majiribun)))
    = length (kanjis (guess_loop majiribun))
  ∧ length (slot_names (matchreg_nongreedy (guess_loop majiribun)))
    = length (kanjis (guess_loop majiribun))
  ∧ kanjis (guess_loop majiribun) = filter (λ c, is_Han c = true) majiribun.
Proof.
  unfold guess_loop.
  induction majiribun as [|c w IH] using rev_ind.
  - simpl. split_and!; by constructor.
  - rewrite fold_left_app. simpl.
    destruct IH as (Hrel & Hg & Hl & Hng & Hnl & Hk).
    rewrite list.filter_app, filter_cons, filter_nil.
    destruct (is_Han c) eqn:Hc.
    + rewrite guess_step_kanji by done. simpl.
      rewrite !slot_names_snoc, !length_app, Hng, Hnl, Hk. simpl.
      split_and!; try done.
      * apply Forall2_app; [done|]. constructor; [|constructor]. by right.
      * apply Forall_app. split; [done|]. constructor; [|constructor].
        left. by eexists _, _.
      * apply Forall_app. split; [done|]. constructor; [|constructor].
        left. by eexists _, _.
    + rewrite guess_step_other by done. simpl.
      rewrite !slot_names_snoc, !length_app, Hng, Hnl, Hk, app_nil_r. simpl.
      split_and!; try done; try lia.
      * apply Forall2_app; [done|]. constructor; [|constructor].
        left. by eexists.
      * apply Forall_app. split; [done|]. constructor; [|constructor].
        by right.
      * apply Forall_app. split; [done|]. constructor; [|constructor].
        by right.
Qed.

(** The second loop of [guess_split] does not raise when there are at
    least as many captures as kanji, and leaves each kanji with the
    capture of its last occurrence. *)
Lemma guess_assign_loop (ks : list N) (ys : list pystr) (n : nat) :
  n ≤ length ks → n ≤ length ys →
  ∃ d, foldM (guess_assign ks ys) ∅ (seq 0 n) = Ok d
       ∧ ∀ j c, j < n → ks !! j = Some c →
                (∀ j', j < j' → j' < n → ks !! j' ≠ Some c) →
                d !! c = ys !! j.
Proof.
  induction n as [|n IH]; intros Hk Hy.
  - exists ∅. split; [done|]. intros; lia.
  - destruct IH as (d' & Hd' & Hlast); [lia..|].
    destruct (lookup_lt_is_Some_2 ks n) as [k Hkn]; [lia|].
    destruct (lookup_lt_is_Some_2 ys n) as [y Hyn]; [lia|].
    exists (<[k := y]> d'). split.
    + rewrite seq_S, foldM_app, Hd'. simpl.
      unfold guess_assign. by rewrite Hkn, Hyn.
    + intros j c Hj Hc Hlater.
      destruct (decide (j = n)) as [->|Hne].
      * rewrite Hkn in Hc. injection Hc as ->.
        by rewrite lookup_insert_eq.
      * assert (k ≠ c).
        { intros ->. apply (Hlater n); [lia..|done]. }
        rewrite lookup_insert_ne by done.
        apply Hlast; [lia|done|]. intros j' ??. apply Hlater; lia.
Qed.

Lemma guess_captures (majiribun reading : pystr) (m : captures) :
  re_match (seq_of (matchreg_greedy (guess_loop majiribun) ++ [Eol])) reading
  = Some m →
  length (groups m) = length (kanjis (guess_loop majiribun)).
Proof.
  destruct (guess_loop_inv majiribun) as (_ & Hg & _ & Hng & _).
  unfold re_match. intros Hm.
  apply rmatch_pieces in Hm as (new & s' & -> & Hnames & _); [|done].
  unfold groups. rewrite app_nil_l.
  by rewrite length_fmap, <- (length_fmap fst), Hnames.
Qed.

(** C4 as amended: [guess_split] raises nothing.  The greedy and the
    lazy pattern match the same readings; when they do not match the
    result is [None]; when they match with different captures the
    result is [None] as well, so that the caller cannot tell the two
    cases apart; when they match with the same captures the result is
    a mapping. *)
Theorem guess_split_outcomes (majiribun reading : pystr) :
  match
    re_match (seq_of (matchreg_greedy (guess_loop majiribun) ++ [Eol]))
             reading,
    re_match (seq_of (matchreg_nongreedy (guess_loop majiribun) ++ [Eol]))
             reading
  with
  | None, None => guess_split majiribun reading = Ok None
  | Some m, Some m' =>
    if bool_decide (groups m = groups m')
    then ∃ d, guess_split majiribun reading = Ok (Some d)
    else guess_split majiribun reading = Ok None
  | _, _ => False
  end.
Proof.
  destruct (guess_loop_inv majiribun) as (Hrel & _).
  pose proof (greedy_lazy_same_texts reading _ _ reading [] [] Hrel) as Hsame.
  pose proof (guess_captures majiribun reading) as Hcount.
  unfold guess_split, re_match in *.
  destruct (rmatch reading
              (seq_of (matchreg_greedy (guess_loop majiribun) ++ [Eol]))
              reading [] _) as [m|];
    destruct (rmatch reading
                (seq_of (matchreg_nongreedy (guess_loop majiribun) ++ [Eol]))
                reading [] _) as [m'|].
  - case_bool_decide as Heq.
    + rewrite bool_decide_eq_false_2 by (by intros ?).
      destruct (guess_assign_loop (kanjis (guess_loop majiribun)) (groups m)
                  (length (kanjis (guess_loop majiribun))))
        as (d & Hd & _); [lia|by rewrite Hcount|].
      exists d. by rewrite Hd.
    + by rewrite bool_decide_eq_true_2.
  - destruct Hsame as [Hsame _]. by destruct Hsame.
  - destruct Hsame as [_ Hsame]. by destruct Hsame.
  - done.
Qed.

(** C9: when [guess_split] returns a mapping, the mapping is keyed by
    the kanji character, and a kanji maps to the text captured at its
    last occurrence in the text, whatever was captured at its earlier
    occurrences. *)
Theorem guess_split_last_occurrence (majiribun reading : pystr)
    (d : gmap N (list N)) :
  guess_split majiribun reading = Ok (Some d) →
  ∃ m,
    re_match (seq_of (matchreg_greedy (guess_loop majiribun) ++ [Eol]))
             reading = Some m
    ∧ kanjis (guess_loop majiribun)
      = filter (λ c, is_Han c = true) majiribun
    ∧ length (groups m) = length (kanjis (guess_loop majiribun))
    ∧ ∀ j c,
        kanjis (guess_loop majiribun) !! j = Some c →
        (∀ j', j < j' → kanjis (guess_loop majiribun) !! j' ≠ Some c) →
        d !! c = groups m !! j.
Proof.
  unfold guess_split. intros Hd.
  destruct (re_match (seq_of (matchreg_greedy _ ++ [Eol])) reading)
    as [m|] eqn:Hm; [|done].
  destruct (re_match (seq_of (matchreg_nongreedy _ ++ [Eol])) reading)
    as [m'|]; [|done].
  case_bool_decide; [done|].
  pose proof (guess_captures _ _ _ Hm) as Hcount.
  destruct (guess_assign_loop (kanjis (guess_loop majiribun)) (groups m)
              (length (kanjis (guess_loop majiribun))))
    as (d' & Hd' & Hlast); [lia|by rewrite Hcount|].
  rewrite Hd' in Hd.
  injection Hd as <-.
  exists m. split_and!; [done|apply guess_loop_inv|done|].
  intros j c Hj Hlater. apply Hlast; [by eapply lookup_lt_Some|done|].
  intros j' ? _. by apply Hlater.
Qed.
End Guess.

(** ** Phonological equivalence *)

Lemma japanese_matchreg_single (first : N) :
  japanese_matchreg [first] = Ok [first_piece first].
Proof.
  unfold japanese_matchreg, first_piece.
  generalize (DAKUON !! first). intros d. destruct d; reflexivity.
Qed.

Lemma slice_1_m1_snoc (first l : N) (middle : list N) :
  slice_1_m1 (first :: middle ++ [l]) = middle.
Proof.
  unfold slice_1_m1.
  replace (length (first :: middle ++ [l]) - 2) with (length middle)
    by (simpl; rewrite length_app; simpl; lia).
  change (drop 1 (first :: middle ++ [l])) with (middle ++ [l]).
  by rewrite take_app_length.
Qed.

Lemma japanese_matchreg_multi (first l : N) (middle : list N) :
  japanese_matchreg (first :: middle ++ [l])
  = Ok (first_piece first :: ((Atom ∘ Lit) <$> middle) ++ [last_piece l]).
Proof.
  unfold japanese_matchreg, first_piece, last_piece.
  rewrite slice_1_m1_snoc.
  generalize (DAKUON !! first). intros d.
  rewrite bool_decide_eq_true_2 by (simpl; rewrite length_app; simpl; lia).
  replace (list.last (first :: middle ++ [l])) with (Some l).
  2:{ change (first :: middle ++ [l]) with ((first :: middle) ++ [l]).
      by rewrite list.last_snoc. }
  generalize (bool_decide (l ∈ SOKUON_LAST)). intros [|]; by destruct d.
Qed.

Lemma variant_single (first : N) (b0 : list N) :
  phonological_variant [first] b0 ↔
  ∃ first', first' ∈ default [first] (DAKUON !! first) ∧ b0 = [first'].
Proof.
  split.
  - intros (f & rest & first' & [= <- <-] & Hin &
            [[_ ->]|(middle & l & l' & Hrest & _)]).
    + by exists first'.
    + by destruct middle.
  - intros (first' & Hin & ->). exists first, [], first'. by eauto.
Qed.

Lemma variant_multi (first l : N) (middle b0 : list N) :
  phonological_variant (first :: middle ++ [l]) b0 ↔
  ∃ first' l',
    first' ∈ default [first] (DAKUON !! first)
    ∧ b0 = first' :: middle ++ [l']
    ∧ (l' = l ∨ (l ∈ SOKUON_LAST ∧ l' = SMALL_TSU)).
Proof.
  split.
  - intros (f & rest & first' & [= <- <-] & Hin &
            [[Hnil _]|(middle' & l0 & l' & Hrest & -> & Hl)]).
    + by destruct middle.
    + apply app_inj_tail in Hrest as [<- <-]. by exists first', l'.
  - intros (first' & l' & Hin & -> & Hl).
    exists first, (middle ++ [l]), first'. split_and!; [done..|].
    right. by exists middle, l, l'.
Qed.

Lemma dropped_single (first : N) (b0 : list N) : ¬ last_dropped [first] b0.
Proof. intros (f & middle & l & first' & [= _ Hnil] & _). by destruct middle. Qed.

Lemma dropped_multi (first l : N) (middle b0 : list N) :
  last_dropped (first :: middle ++ [l]) b0 ↔
  l ∈ SOKUON_LAST
  ∧ ∃ first', first' ∈ default [first] (DAKUON !! first)
              ∧ b0 = first' :: middle.
Proof.
  split.
  - intros (f & middle' & l' & first' & [= <- Hrest] & Hl & Hin & ->).
    apply app_inj_tail in Hrest as [<- <-]. split; [done|]. by exists first'.
  - intros (Hl & first' & Hin & ->). by exists first, middle, l, first'.
Qed.

Section Equivalence.
Context `{UnicodeDB}.

Lemma first_piece_atom (first : N) :
  ∃ a, first_piece first = Atom a
       ∧ ∀ c, atom_ok a c
              = bool_decide (c ∈ default [first] (DAKUON !! first)).
Proof.
  unfold first_piece. generalize (DAKUON !! first).
  intros [cls|]; eexists; (split; [reflexivity|]); intros c; simpl; [done|].
  apply bool_decide_ext. by rewrite list_elem_of_singleton.
Qed.

Lemma rmatch_lits (whole mid : list N) (rs : list regex) (s : list N)
    (caps : list (option (list N) * list N))
    (k : list N → list (option (list N) * list N)
         → option (list (option (list N) * list N))) :
  rmatch whole (seq_of (((Atom ∘ Lit) <$> mid) ++ rs)) s caps k
  = if bool_decide (mid `prefix_of` s)
    then rmatch whole (seq_of rs) (drop (length mid) s) caps k
    else None.
Proof.
  revert s. induction mid as [|c mid IH]; intros s.
  - rewrite bool_decide_eq_true_2 by apply prefix_nil. done.
  - destruct s as [|c' s].
    { rewrite bool_decide_eq_false_2 by apply prefix_nil_not. done. }
    change (rmatch whole (seq_of (((Atom ∘ Lit) <$> c :: mid) ++ rs))
              (c' :: s) caps k)
      with (if bool_decide (c' = c)
            then rmatch whole (seq_of (((Atom ∘ Lit) <$> mid) ++ rs)) s caps k
            else None).
    case_bool_decide as Hc.
    + subst c'. rewrite IH. simpl.
      apply (f_equal (λ b : bool, if b then _ else _)), bool_decide_ext.
      split; [apply prefix_cons|apply prefix_cons_inv_2].
    + rewrite bool_decide_eq_false_2; [done|].
      intros Hp. apply prefix_cons_inv_1 in Hp. congruence.
Qed.

Lemma rmatch_last (whole : list N) (l : N) (s1 : list N)
    (caps : list (option (list N) * list N)) :
  is_Some (rmatch whole (seq_of [last_piece l; Eol]) s1 caps (λ _ c, Some c))
  ↔ tail_ok l s1.
Proof.
  assert (Hyes : ∀ P : Prop, P → is_Some (Some caps) ↔ P).
  { intros P HP. split; [done|by eauto]. }
  assert (Hno : ∀ P : Prop, ¬ P → is_Some (@None (list (option (list N) * list N))) ↔ P).
  { intros P HP. split; [by intros [? ?]|done]. }
  unfold last_piece, tail_ok. case_bool_decide as Hl.
  - destruct s1 as [|c s2]; simpl.
    { apply Hyes. exists [], []. split_and!; [done..|].
      right. split; [done|]. by right. }
    destruct (bool_decide (c ∈ [l; SMALL_TSU])) eqn:Hc.
    + apply bool_decide_eq_true in Hc.
      assert (Hc' : [c] = [l] ∨ l ∈ SOKUON_LAST ∧ ([c] = [SMALL_TSU] ∨ [c] = [])).
      { apply elem_of_cons in Hc as [->|Hc]; [by left|].
        apply list_elem_of_singleton in Hc as ->. right. by eauto. }
      destruct s2 as [|c2 s3]; simpl.
      { apply Hyes. by exists [c], []. }
      destruct s3 as [|c3 s4]; simpl.
      * case_bool_decide as Hnl.
        -- apply Hyes. exists [c], [c2]. split_and!; [done| |done].
           simpl. by apply bool_decide_eq_true.
        -- apply Hno.
           intros (t & nl & Heq & Hend & [->|[_ [->| ->]]]);
             simplify_eq/=; by rewrite bool_decide_eq_false_2 in Hend.
      * apply Hno.
        intros (t & nl & Heq & Hend & [->|[_ [->| ->]]]); by simplify_eq/=.
    + apply bool_decide_eq_false in Hc.
      destruct s2 as [|c2 s3]; simpl.
      * case_bool_decide as Hnl.
        -- apply Hyes. exists [], [c]. split_and!; [done| |].
           ++ simpl. by apply bool_decide_eq_true.
           ++ right. split; [done|]. by right.
        -- apply Hno.
           intros (t & nl & Heq & Hend & [->|[_ [->| ->]]]); simplify_eq/=.
           ++ apply Hc. repeat constructor.
           ++ apply Hc. repeat constructor.
           ++ by rewrite bool_decide_eq_false_2 in Hend.
      * apply Hno.
        intros (t & nl & Heq & Hend & [->|[_ [->| ->]]]); simplify_eq/=.
        -- apply Hc. repeat constructor.
        -- apply Hc. repeat constructor.
  - destruct s1 as [|c s2]; simpl.
    { apply Hno. intros (t & nl & Heq & _ & [->|[? _]]); [by destruct nl|done]. }
    case_bool_decide as Hc.
    + subst c. destruct (at_end s2) eqn:Hend.
      * apply Hyes. exists [l], s2. split_and!; [done..|]. by left.
      * apply Hno. intros (t & nl & Heq & Hnl & [->|[? _]]); [|done].
        simplify_eq/=. congruence.
    + apply Hno. intros (t & nl & Heq & Hnl & [->|[? _]]); [|done].
      by simplify_eq/=.
Qed.

(** What [japanese_match] accepts: the variants the documentation
    describes and the reading without a final つ, ち or く, each also with
    one newline after it. *)
Lemma japanese_match_accepts (a b : list N) :
  a ≠ [] →
  ∃ m, japanese_match a b = Ok m
       ∧ (is_Some m ↔
          ∃ b0 nl, b = b0 ++ nl ∧ at_end nl = true
                   ∧ (phonological_variant a b0 ∨ last_dropped a b0)).
Proof.
  destruct a as [|first rest]; [done|]. intros _.
  destruct (first_piece_atom first) as (a0 & Hfirst & Hok).
  assert (Hno : ∀ P : Prop,
            ¬ P → is_Some (@None (list (option (list N) * list N))) ↔ P).
  { intros P HP. split; [by intros [? ?]|done]. }
  destruct rest as [|l middle _] using rev_ind.
  - unfold japanese_match. rewrite japanese_matchreg_single, Hfirst.
    eexists. split; [reflexivity|].
    unfold re_match. simpl. rewrite bool_decide_eq_true_2 by done.
    destruct b as [|c b1].
    { apply Hno. intros (b0 & nl & Heq & _ & [Hv|Hd]).
      - apply variant_single in Hv as (f' & _ & ->). done.
      - by apply dropped_single in Hd. }
    rewrite Hok. case_bool_decide as Hc.
    + destruct (at_end b1) eqn:Hend.
      * split; [intros _|by eauto]. exists [c], b1. split_and!; [done..|].
        left. apply variant_single. by exists c.
      * apply Hno. intros (b0 & nl & Heq & Hnl & [Hv|Hd]);
          [|by apply dropped_single in Hd].
        apply variant_single in Hv as (f' & _ & ->).
        simpl in Heq; simplify_eq. congruence.
    + apply Hno. intros (b0 & nl & Heq & Hnl & [Hv|Hd]);
        [|by apply dropped_single in Hd].
      apply variant_single in Hv as (f' & Hin & ->). simpl in Heq; by simplify_eq.
  - unfold japanese_match. rewrite japanese_matchreg_multi, Hfirst.
    eexists. split; [reflexivity|].
    unfold re_match.
    replace ([Bol] ++ (Atom a0 :: ((Atom ∘ Lit) <$> middle) ++ [last_piece l])
             ++ [Eol])
      with (Bol :: Atom a0
            :: (((Atom ∘ Lit) <$> middle) ++ [last_piece l; Eol]))
      by (simpl; by rewrite <- app_assoc).
    cbn [seq_of rmatch]. rewrite bool_decide_eq_true_2 by done.
    destruct b as [|c b1].
    { apply Hno. intros (b0 & nl & Heq & _ & [Hv|Hd]).
      - apply variant_multi in Hv as (f' & l' & _ & -> & _). done.
      - apply dropped_multi in Hd as (_ & f' & _ & ->). done. }
    rewrite Hok. case_bool_decide as Hc.
    2:{ apply Hno. intros (b0 & nl & Heq & _ & [Hv|Hd]).
        - apply variant_multi in Hv as (f' & l' & Hin & -> & _).
          simpl in Heq; by simplify_eq.
        - apply dropped_multi in Hd as (_ & f' & Hin & ->). simpl in Heq; by simplify_eq. }
    rewrite rmatch_lits. case_bool_decide as Hp.
    2:{ apply Hno. intros (b0 & nl & Heq & _ & [Hv|Hd]).
        - apply variant_multi in Hv as (f' & l' & _ & -> & _).
          simpl in Heq; simplify_eq. apply Hp. rewrite <- app_assoc. by eexists.
        - apply dropped_multi in Hd as (_ & f' & _ & ->).
          simpl in Heq; simplify_eq. apply Hp. by eexists. }
    destruct Hp as [s1 ->]. rewrite drop_app_length, rmatch_last.
    split.
    + intros (t & nl & -> & Hnl & Ht). exists (c :: middle ++ t), nl.
      split; [simpl; by rewrite <- app_assoc|]. split; [done|].
      destruct Ht as [->|[Hl [->| ->]]].
      * left. apply variant_multi. exists c, l. by eauto.
      * left. apply variant_multi. exists c, SMALL_TSU. by eauto.
      * right. rewrite app_nil_r. apply dropped_multi. by eauto.
    + intros (b0 & nl & Heq & Hnl & [Hv|Hd]).
      * apply variant_multi in Hv as (f' & l' & _ & -> & Hl').
        injection Heq as _ Heq. rewrite <- app_assoc in Heq.
        apply app_inv_head in Heq as ->.
        exists [l'], nl. split_and!; [done..|].
        destruct Hl' as [->|[Hl ->]]; [by left|]. right. by eauto.
      * apply dropped_multi in Hd as (Hl & f' & _ & ->).
        injection Heq as _ Heq. apply app_inv_head in Heq as ->.
        exists [], nl. split_and!; [done..|]. right. by eauto.
Qed.
End Equivalence.

(** ** Canonical readings *)

Section Canonicalizer.
Context `{UnicodeDB} `{Lexicon}.

Lemma scan_readings_none (creadings : list pystr) (foundreading : pystr)
    (tag : yomi_type) :
  Forall (λ creading, japanese_match creading foundreading = Ok None)
         creadings →
  scan_readings creadings foundreading tag = Ok None.
Proof.
  induction 1 as [|creading rest Hm _ IH]; simpl; [done|].
  rewrite Hm. simpl. exact IH.
Qed.

(** C1: a kanji that has on-yomi candidates but is not a key of the
    kun-yomi table is reported as unknown, not its reading, when none
    of its candidates matches the reading that was found. *)
Theorem canonical_reading_on_only (kanji foundreading : pystr)
    (creadings : list pystr) :
  ONYOMI !! kanji = Some creadings →
  KUNYOMI !! kanji = None →
  Forall (λ creading, japanese_match creading foundreading = Ok None)
         creadings →
  canonical_reading kanji foundreading = Raise (UnknownKanji kanji).
Proof.
  intros Hon Hkun Hnone. unfold canonical_reading.
  rewrite Hon, Hkun. by rewrite scan_readings_none.
Qed.
End Canonicalizer.

(** ** Outcomes of the canonicalizer *)

Lemma DAKUON_has_key (first : N) (cls : list N) :
  DAKUON !! first = Some cls → first ∈ cls.
Proof.
  unfold DAKUON. intros Hl. apply elem_of_list_to_map_2 in Hl.
  repeat (apply elem_of_cons in Hl as [Hl|Hl];
          [injection Hl as -> ->; vm_compute; repeat constructor|]).
  by apply elem_of_nil in Hl.
Qed.

Lemma first_in_class (first : N) : first ∈ default [first] (DAKUON !! first).
Proof.
  destruct (DAKUON !! first) as [cls|] eqn:Hd.
  - by apply DAKUON_has_key.
  - apply list_elem_of_singleton. done.
Qed.

Lemma japanese_matchreg_Ok (first : N) (rest : list N) :
  ∃ rs, japanese_matchreg (first :: rest) = Ok rs.
Proof.
  destruct rest as [|l middle _] using rev_ind.
  - rewrite japanese_matchreg_single. by eexists.
  - rewrite japanese_matchreg_multi. by eexists.
Qed.

(** ** The text of the pattern of a reading *)

Lemma plain_Forall (s : list N) :
  plain s = true ↔ Forall (λ c, c ∉ METACHARACTERS) s.
Proof.
  unfold plain. rewrite forallb_forall, list.Forall_forall.
  split; intros Hs c Hc.
  - apply list_elem_of_In in Hc. apply Hs in Hc.
    by apply bool_decide_eq_true in Hc.
  - apply bool_decide_eq_true, Hs. by apply list_elem_of_In.
Qed.

Lemma class_special_meta (c : N) : c ∉ CLASS_SPECIAL → c ∉ METACHARACTERS.
Proof. intros Hc Hm. apply Hc. unfold CLASS_SPECIAL. apply elem_of_app. by left. Qed.

Lemma DAKUON_class (first : N) (cls : list N) :
  DAKUON !! first = Some cls →
  cls ≠ [] ∧ Forall (λ c, c ∉ CLASS_SPECIAL) cls.
Proof.
  unfold DAKUON. intros Hl. apply elem_of_list_to_map_2 in Hl.
  repeat (apply elem_of_cons in Hl as [Hl|Hl];
          [injection Hl as -> ->; split; [by vm_compute|];
           apply (bool_decide_unpack _); by vm_compute|]).
  by apply elem_of_nil in Hl.
Qed.

Lemma SOKUON_class (l : N) :
  l ∈ SOKUON_LAST → Forall (λ c, c ∉ CLASS_SPECIAL) [l; SMALL_TSU].
Proof.
  intros Hl.
  repeat (apply elem_of_cons in Hl as [->|Hl];
          [apply (bool_decide_unpack _); by vm_compute|]).
  by apply elem_of_nil in Hl.
Qed.

Lemma japanese_matchreg_text_single (first : N) :
  japanese_matchreg_text [first] = Ok (first_text first).
Proof.
  unfold japanese_matchreg_text, first_text.
  generalize (DAKUON !! first). intros d.
  change (slice_1_m1 [first]) with (@nil N).
  rewrite bool_decide_eq_false_2 by (simpl; lia).
  destruct d; by rewrite app_nil_l, app_nil_r.
Qed.

Lemma japanese_matchreg_text_multi (first l : N) (middle : list N) :
  japanese_matchreg_text (first :: middle ++ [l])
  = Ok (first_text first ++ middle ++ last_text l).
Proof.
  unfold japanese_matchreg_text, first_text, last_text.
  rewrite slice_1_m1_snoc.
  generalize (DAKUON !! first). intros d.
  rewrite bool_decide_eq_true_2 by (simpl; rewrite length_app; simpl; lia).
  replace (list.last (first :: middle ++ [l])) with (Some l).
  2:{ change (first :: middle ++ [l]) with ((first :: middle) ++ [l]).
      by rewrite list.last_snoc. }
  generalize (bool_decide (l ∈ SOKUON_LAST)). intros [|]; destruct d;
    by rewrite !app_nil_l, <- !app_assoc.
Qed.

Lemma pattern_text_app (t1 t2 : list N) (rs1 rs2 : list regex) :
  pattern_text t1 rs1 → pattern_text t2 rs2 →
  pattern_text (t1 ++ t2) (rs1 ++ rs2).
Proof.
  intros H1 H2. induction H1 as [|c t rs Hc _ IH|cs t rs Hne Hcs _ IH
                                 |cs t rs Hne Hcs _ IH]; [done|..].
  - by apply text_lit.
  - rewrite <- app_assoc. by apply text_cls.
  - rewrite <- !app_assoc. by apply text_opt_cls.
Qed.

Lemma pattern_text_lits (t : list N) :
  plain t = true → pattern_text t ((Atom ∘ Lit) <$> t).
Proof.
  rewrite plain_Forall. induction 1 as [|c t Hc _ IH]; [constructor|].
  by apply text_lit.
Qed.

Lemma pattern_text_first (first : N) :
  first ∉ METACHARACTERS → pattern_text (first_text first) [first_piece first].
Proof.
  intros Hf. unfold first_text, first_piece.
  destruct (DAKUON !! first) as [cls|] eqn:Hd.
  - apply DAKUON_class in Hd as [Hne Hcls].
    rewrite <- (app_nil_r (class_text cls)). apply text_cls; [done..|constructor].
  - apply text_lit; [done|constructor].
Qed.

Lemma pattern_text_last (l : N) :
  l ∉ METACHARACTERS → pattern_text (last_text l) [last_piece l].
Proof.
  intros Hl. unfold last_text, last_piece. case_bool_decide as Hs.
  - rewrite <- (app_nil_r [ch "?"]).
    apply text_opt_cls; [done|by apply SOKUON_class|constructor].
  - apply text_lit; [done|constructor].
Qed.

Lemma lbracket_special : ch "[" ∈ METACHARACTERS.
Proof. apply (bool_decide_unpack _). by vm_compute. Qed.

Lemma rbracket_special : ch "]" ∈ CLASS_SPECIAL.
Proof. apply (bool_decide_unpack _). by vm_compute. Qed.

Lemma question_special : ch "?" ∈ METACHARACTERS ∧ ch "?" ≠ ch "[".
Proof. split; apply (bool_decide_unpack _); by vm_compute. Qed.

Lemma class_text_cons (cs t : list N) :
  class_text cs ++ t = ch "[" :: cs ++ ch "]" :: t.
Proof. unfold class_text. simpl. by rewrite <- app_assoc. Qed.

Lemma pattern_text_head (c : N) (t : list N) (rs : list regex) :
  pattern_text (c :: t) rs → c ∉ METACHARACTERS ∨ c = ch "[".
Proof.
  intros Ht. remember (c :: t) as ct eqn:Hct.
  destruct Ht as [|c' t' rs' Hc' _|cs t' rs' _ _ _|cs t' rs' _ _ _].
  - done.
  - injection Hct as -> _. by left.
  - rewrite class_text_cons in Hct. injection Hct as -> _. by right.
  - rewrite class_text_cons in Hct. injection Hct as -> _. by right.
Qed.

Lemma class_text_inj (cs cs' t t' : list N) :
  Forall (λ c, c ∉ CLASS_SPECIAL) cs → Forall (λ c, c ∉ CLASS_SPECIAL) cs' →
  class_text cs ++ t = class_text cs' ++ t' → cs = cs' ∧ t = t'.
Proof.
  rewrite !class_text_cons. intros Hcs Hcs' [= Heq]. revert cs' Hcs' Heq.
  induction Hcs as [|c cs Hc _ IH]; intros cs' Hcs' Heq.
  - destruct Hcs' as [|c' cs' Hc' _]; simpl in Heq.
    + by injection Heq as ->.
    + injection Heq as <- _. destruct Hc'. apply rbracket_special.
  - destruct Hcs' as [|c' cs' Hc' Hcs']; simpl in Heq.
    + injection Heq as -> _. destruct Hc. apply rbracket_special.
    + injection Heq as -> Heq. apply IH in Heq as [-> ->]; done.
Qed.

Lemma pattern_text_functional (t : list N) (rs : list regex) :
  pattern_text t rs → ∀ rs', pattern_text t rs' → rs' = rs.
Proof.
  induction 1 as [|c t rs Hc Ht IH|cs t rs Hne Hcs Ht IH
                  |cs t rs Hne Hcs Ht IH]; intros rs' H'.
  - remember (@nil N) as tt eqn:Htt.
    destruct H' as [|c' t' rs' _ _|cs' t' rs' _ _ _|cs' t' rs' _ _ _];
      [done|done|rewrite class_text_cons in Htt; done..].
  - remember (c :: t) as tt eqn:Htt.
    destruct H' as [|c' t' rs' _ Ht'|cs' t' rs' _ _ _|cs' t' rs' _ _ _].
    + done.
    + injection Htt as -> ->. f_equal. by apply IH.
    + rewrite class_text_cons in Htt. injection Htt as <- _.
      destruct Hc. apply lbracket_special.
    + rewrite class_text_cons in Htt. injection Htt as <- _.
      destruct Hc. apply lbracket_special.
  - remember (class_text cs ++ t) as tt eqn:Htt.
    destruct H' as [|c' t' rs' Hc' _|cs' t' rs' _ Hcs' Ht'
                    |cs' t' rs' _ Hcs' Ht'].
    + rewrite class_text_cons in Htt. done.
    + rewrite class_text_cons in Htt. injection Htt as -> _.
      destruct Hc'. apply lbracket_special.
    + apply class_text_inj in Htt as [Hcs_eq Ht_eq]; [|done..]. subst.
      f_equal. by apply IH.
    + apply class_text_inj in Htt as [Hcs_eq Ht_eq]; [|done..]. subst.
      apply pattern_text_head in Ht.
      destruct question_special as [Hq Hq']. by destruct Ht.
  - remember (class_text cs ++ [ch "?"] ++ t) as tt eqn:Htt.
    destruct H' as [|c' t' rs' Hc' _|cs' t' rs' _ Hcs' Ht'
                    |cs' t' rs' _ Hcs' Ht'].
    + rewrite class_text_cons in Htt. done.
    + rewrite class_text_cons in Htt. injection Htt as -> _.
      destruct Hc'. apply lbracket_special.
    + apply class_text_inj in Htt as [Hcs_eq Ht_eq]; [|done..]. subst.
      apply pattern_text_head in Ht'.
      destruct question_special as [Hq Hq']. by destruct Ht'.
    + apply class_text_inj in Htt as [Hcs_eq Ht_eq]; [|done..].
      injection Ht_eq as Ht_eq. subst. f_equal. by apply IH.
Qed.

(** X1: for a reading without special characters, the text
    [japanese_matchreg] writes is the text of the pieces of the model,
    and of no other pieces: the class of the first character or the
    character itself, the middle as it is, and the last character as
    it is or, for つ ち く, as an optional class with っ.  Both raise
    [IndexError] on the empty reading. *)
Theorem japanese_matchreg_parses (hiragana : list N) :
  plain hiragana = true →
  match hiragana with
  | [] => japanese_matchreg_text hiragana = Raise IndexError
          ∧ japanese_matchreg hiragana = Raise IndexError
  | _ => ∃ t rs,
      japanese_matchreg_text hiragana = Ok t
      ∧ japanese_matchreg hiragana = Ok rs
      ∧ pattern_text t rs
      ∧ ∀ rs', pattern_text t rs' → rs' = rs
  end.
Proof.
  intros Hplain. destruct hiragana as [|first rest]; [done|].
  apply plain_Forall in Hplain. apply Forall_cons_1 in Hplain as [Hf Hrest].
  assert (Hhave : ∃ t rs,
            japanese_matchreg_text (first :: rest) = Ok t
            ∧ japanese_matchreg (first :: rest) = Ok rs ∧ pattern_text t rs).
  { destruct rest as [|l middle _] using rev_ind.
    - exists (first_text first), [first_piece first].
      rewrite japanese_matchreg_text_single, japanese_matchreg_single.
      split_and!; [done..|]. by apply pattern_text_first.
    - apply Forall_app in Hrest as [Hmid Hl].
      apply Forall_cons_1 in Hl as [Hl _].
      eexists _, _.
      rewrite japanese_matchreg_text_multi, japanese_matchreg_multi.
      split_and!; [reflexivity..|].
      apply (pattern_text_app _ _ [_]); [by apply pattern_text_first|].
      apply pattern_text_app; [|by apply pattern_text_last].
      by apply pattern_text_lits, plain_Forall. }
  destruct Hhave as (t & rs & Ht & Hrs & Hp). exists t, rs.
  split_and!; [done..|]. by apply pattern_text_functional.
Qed.

Section Variants.
Context `{UnicodeDB}.

Lemma japanese_match_variant (first v : N) (rest : list N) :
  v ∈ default [first] (DAKUON !! first) →
  ∃ m, japanese_match (first :: rest) (v :: rest) = Ok (Some m).
Proof.
  intros Hv.
  destruct (japanese_match_accepts (first :: rest) (v :: rest))
    as (m & Hm & Hiff); [done|].
  destruct Hiff as [_ [m' ->]]; [|by exists m'].
  exists (v :: rest), []. rewrite app_nil_r. split_and!; [done..|].
  left. exists first, rest, v. split_and!; [done..|].
  destruct rest as [|l middle _] using rev_ind; [by left|].
  right. exists middle, l, l. by eauto.
Qed.

(** X2: for a first argument without special characters,
    [japanese_match] raises [IndexError] when that argument is empty.
    Otherwise it accepts [b] exactly when [b], less one newline at its
    end if it has one, is the first argument with its first character
    replaced by a member of its class, and its last character kept, or
    (for つ ち く) replaced by っ or left out. *)
Theorem japanese_match_language (a b : list N) :
  plain a = true →
  match a with
  | [] => japanese_match a b = Raise IndexError
  | _ :: _ =>
    ∃ m, japanese_match a b = Ok m
         ∧ (is_Some m ↔
            ∃ b0 nl, b = b0 ++ nl ∧ at_end nl = true
                     ∧ (phonological_variant a b0 ∨ last_dropped a b0))
  end.
Proof.
  intros _. destruct a as [|first rest]; [reflexivity|].
  by apply japanese_match_accepts.
Qed.

(** X3: a reading without special characters whose first character is
    replaced by any member of its voicing class, the character itself
    included, matches: every such reading matches itself. *)
Theorem japanese_match_voiced (first v : N) (rest : list N) :
  plain (first :: rest) = true →
  v ∈ default [first] (DAKUON !! first) →
  ∃ m, japanese_match (first :: rest) (v :: rest) = Ok (Some m).
Proof. intros _. apply japanese_match_variant. Qed.
End Variants.

Section CanonicalOutcomes.
Context `{UnicodeDB} `{Lexicon}.

Lemma japanese_match_nonempty (c found : list N) :
  c ≠ [] → japanese_match c found = Ok None ∨ ∃ m, japanese_match c found = Ok (Some m).
Proof.
  intros Hc. destruct (japanese_match_accepts c found Hc) as (m & -> & _).
  destruct m; eauto.
Qed.

Lemma scan_readings_spec (cs : list (list N)) (found : list N) (tag : yomi_type) :
  match scan_readings cs found tag with
  | Ok None => no_match cs found
  | Ok (Some (c, t)) => t = tag ∧ first_match cs found c
  | Raise e => e = IndexError ∧ empty_candidate cs found
  end.
Proof.
  induction cs as [|c cs IH]; simpl; [constructor|].
  destruct c as [|first rest].
  { simpl. split; [done|]. exists [], cs. split; [done|constructor]. }
  destruct (japanese_match_nonempty (first :: rest) found) as [Hm|[m Hm]];
    [done| |]; rewrite Hm; simpl.
  - destruct (scan_readings cs found tag) as [[[c t]|]|e].
    + destruct IH as (-> & before & after & m & -> & Hb & Hc).
      split; [done|]. exists ((first :: rest) :: before), after, m.
      split_and!; [done| |done]. by constructor.
    + by constructor.
    + destruct IH as (-> & before & after & -> & Hb). split; [done|].
      exists ((first :: rest) :: before), after. split; [done|]. by constructor.
  - split; [done|]. exists [], cs, m. split_and!; [done| |done]. constructor.
Qed.

Lemma canonical_reading_cases (kanji found : list N) :
  match canonical_reading kanji found with
  | Ok (c, On) => first_match (default [] (ONYOMI !! kanji)) found c
  | Ok (c, Kun) =>
    no_match (default [] (ONYOMI !! kanji)) found
    ∧ first_match (default [] (KUNYOMI !! kanji)) found c
  | Raise (UnknownKanji k) =>
    k = kanji ∧ KUNYOMI !! kanji = None
    ∧ no_match (default [] (ONYOMI !! kanji)) found
  | Raise (UnknownReading k r) =>
    k = kanji ∧ r = found ∧ is_Some (KUNYOMI !! kanji)
    ∧ no_match (default [] (ONYOMI !! kanji)) found
    ∧ no_match (default [] (KUNYOMI !! kanji)) found
  | Raise IndexError =>
    empty_candidate (default [] (ONYOMI !! kanji)) found
    ∨ (no_match (default [] (ONYOMI !! kanji)) found
       ∧ empty_candidate (default [] (KUNYOMI !! kanji)) found)
  | Raise _ => False
  end.
Proof.
  unfold canonical_reading.
  assert (Hon : match
            match ONYOMI !! kanji with
            | Some creadings => scan_readings creadings found On
            | None => Ok None
            end
          with
          | Ok None => no_match (default [] (ONYOMI !! kanji)) found
          | Ok (Some (c, t)) =>
            t = On ∧ first_match (default [] (ONYOMI !! kanji)) found c
          | Raise e =>
            e = IndexError
            ∧ empty_candidate (default [] (ONYOMI !! kanji)) found
          end).
  { destruct (ONYOMI !! kanji) as [cs|]; [apply scan_readings_spec|].
    constructor. }
  destruct (match ONYOMI !! kanji with
            | Some creadings => scan_readings creadings found On
            | None => Ok None
            end) as [[[c t]|]|e]; simpl.
  - by destruct Hon as [-> Hon].
  - destruct (KUNYOMI !! kanji) as [cs|] eqn:Hkun; simpl; [|done].
    pose proof (scan_readings_spec cs found Kun) as Hk.
    destruct (scan_readings cs found Kun) as [[[c t]|]|e]; simpl.
    + by destruct Hk as [-> Hk].
    + split_and!; eauto.
    + destruct Hk as [-> Hk]. by right.
  - destruct Hon as [-> Hon]. by left.
Qed.

(** X4: every outcome of [canonical_reading].  The reading returned is
    the first matching candidate of the on-yomi list, or, when no
    on-yomi candidate matches, of the kun-yomi list; [UnknownReading]
    needs the kanji in [KUNYOMI] and no match in either list;
    [UnknownKanji] needs the kanji out of [KUNYOMI] and no on-yomi
    match; an empty candidate reached before a match gives
    [IndexError]; nothing else is raised. *)
Theorem canonical_reading_outcomes (kanji found : list N) :
  match canonical_reading kanji found with
  | Ok (c, On) => first_match (default [] (ONYOMI !! kanji)) found c
  | Ok (c, Kun) =>
    no_match (default [] (ONYOMI !! kanji)) found
    ∧ first_match (default [] (KUNYOMI !! kanji)) found c
  | Raise (UnknownKanji k) =>
    k = kanji ∧ KUNYOMI !! kanji = None
    ∧ no_match (default [] (ONYOMI !! kanji)) found
  | Raise (UnknownReading k r) =>
    k = kanji ∧ r = found ∧ is_Some (KUNYOMI !! kanji)
    ∧ no_match (default [] (ONYOMI !! kanji)) found
    ∧ no_match (default [] (KUNYOMI !! kanji)) found
  | Raise IndexError =>
    empty_candidate (default [] (ONYOMI !! kanji)) found
    ∨ (no_match (default [] (ONYOMI !! kanji)) found
       ∧ empty_candidate (default [] (KUNYOMI !! kanji)) found)
  | Raise _ => False
  end.
Proof. apply canonical_reading_cases. Qed.

(** X5: where no candidate of the kanji is empty, a reading listed for
    the kanji in either table is recognised: [canonical_reading] returns
    a candidate that matches it. *)
Theorem canonical_reading_of_candidate (kanji r : list N) :
  Forall (λ c, c ≠ []) (default [] (ONYOMI !! kanji)) →
  Forall (λ c, c ≠ []) (default [] (KUNYOMI !! kanji)) →
  r ∈ default [] (KUNYOMI !! kanji)
  ∨ (r ∈ default [] (ONYOMI !! kanji)) →
  ∃ c tag m,
    canonical_reading kanji r = Ok (c, tag)
    ∧ japanese_match c r = Ok (Some m).
Proof.
  intros Hon Hkun Hr.
  assert (Hself : ∀ cs, Forall (λ c, c ≠ []) cs → r ∈ cs → ¬ no_match cs r).
  { intros cs Hne Hin Hno.
    eapply (proj1 (list.Forall_forall _ _)) in Hno; [|exact Hin].
    eapply (proj1 (list.Forall_forall _ _)) in Hne; [|exact Hin].
    destruct r as [|first rest]; [done|].
    destruct (japanese_match_variant first first rest (first_in_class first))
      as [m Hm]. congruence. }
  assert (Hnoempty : ∀ cs, Forall (λ c, c ≠ []) cs → ¬ empty_candidate cs r).
  { intros cs Hne (before & after & -> & _).
    apply Forall_app in Hne as [_ Hne]. by apply Forall_cons_1 in Hne as [? _]. }
  pose proof (canonical_reading_cases kanji r) as Hout.
  destruct (canonical_reading kanji r) as [[c [|]]|e].
  - destruct Hout as (_ & _ & m & _ & _ & Hm). by exists c, On, m.
  - destruct Hout as (_ & _ & _ & m & _ & _ & Hm). by exists c, Kun, m.
  - exfalso. destruct e; try done.
    + destruct Hout as [He|[_ He]]; by eapply Hnoempty in He.
    + destruct Hout as (_ & Hnone & Hno).
      rewrite Hnone in Hr. destruct Hr as [Hr|Hr]; [by apply elem_of_nil in Hr|].
      by eapply Hself in Hno.
    + destruct Hout as (_ & _ & _ & Hno & Hnok).
      destruct Hr as [Hr|Hr]; [by eapply Hself in Hnok|by eapply Hself in Hno].
Qed.
End CanonicalOutcomes.

(** ** Captures are never empty *)

Section Consuming.
Context `{UnicodeDB}.

Lemma rmatch_consuming (whole : list N) (r : regex) (s : list N)
    (caps : list (option (list N) * list N))
    (k : list N → list (option (list N) * list N)
         → option (list (option (list N) * list N)))
    (m : list (option (list N) * list N)) :
  group_free r = true → consuming r = true →
  rmatch whole r s caps k = Some m →
  ∃ pre s', s = pre ++ s' ∧ pre ≠ [] ∧ k s' caps = Some m.
Proof.
  revert s k.
  induction r as [|a|r1 IH1 r2 IH2|r1 IH1 r2 IH2|r1 IH1|a|a|name r1 IH1| |];
    intros s k Hfree Hcons; simpl in *; try done.
  - destruct s as [|c s]; [done|]. destruct (atom_ok a c); [|done].
    intros Hk. by exists [c], s.
  - apply andb_prop in Hfree as [Hf1 Hf2]. intros Hm.
    destruct (consuming r1) eqn:Hc1.
    + apply IH1 in Hm as (pre1 & s1 & -> & Hne & Hm); [|done..].
      apply rmatch_group_free in Hm as (pre2 & s2 & -> & Hm); [|done].
      exists (pre1 ++ pre2), s2. rewrite <- app_assoc. split_and!; [done| |done].
      by destruct pre1.
    + apply rmatch_group_free in Hm as (pre1 & s1 & -> & Hm); [|done].
      apply IH2 in Hm as (pre2 & s2 & -> & Hne & Hm); [|done..].
      exists (pre1 ++ pre2), s2. rewrite <- app_assoc. split_and!; [done| |done].
      intros [_ ?]%app_eq_nil. done.
  - apply andb_prop in Hfree as [Hf1 Hf2].
    apply andb_prop in Hcons as [Hc1 Hc2].
    destruct (rmatch whole r1 s caps k) as [m'|] eqn:Hm1.
    + intros [= ->]. by eapply IH1.
    + by apply IH2.
  - intros Hm. by apply plus_greedy_sound in Hm.
  - intros Hm. by apply plus_lazy_sound in Hm.
Qed.

Lemma concat_nonempty_length (l : list (list N)) :
  Forall (λ y, y ≠ []) l → length l ≤ length (concat l).
Proof.
  induction 1 as [|y l Hy _ IH]; simpl; [done|].
  rewrite length_app. destruct y; [done|]. simpl. lia.
Qed.

(** A pattern made of slots that consume: every capture is non-empty. *)
Lemma rmatch_slots_nonempty (whole : list N) (pieces : list regex)
    (s : list N) (caps m : list (option (list N) * list N)) :
  Forall is_slot pieces → Forall (λ r, consuming r = true) pieces →
  rmatch whole (seq_of (pieces ++ [Eol])) s caps (λ _ c, Some c) = Some m →
  ∃ new s',
    m = caps ++ new ∧ length new = length pieces
    ∧ Forall (λ y, y ≠ []) new.*2 ∧ s = concat new.*2 ++ s'.
Proof.
  intros Hslots. revert s caps.
  induction Hslots as [|r pieces (name & reg & -> & Hfree) _ IH];
    intros s caps Hcons; simpl.
  - destruct (at_end s); [|done]. intros [= <-].
    exists [], s. by rewrite app_nil_r.
  - apply Forall_cons_1 in Hcons as [Hc Hcons]. simpl in Hc. intros Hm.
    apply rmatch_consuming in Hm as (pre & s1 & -> & Hne & Hm); [|done..].
    rewrite take_consumed in Hm.
    apply IH in Hm as (new & s' & -> & Hlen & Hall & ->); [|done].
    exists ((name, pre) :: new), s'. split_and!.
    + by rewrite <- app_assoc.
    + simpl. by rewrite Hlen.
    + by constructor.
    + simpl. by rewrite <- app_assoc.
Qed.
End Consuming.

Lemma japanese_matchreg_consuming (h : list N) (rs : list regex) :
  japanese_matchreg h = Ok rs → consuming (seq_of rs) = true.
Proof.
  destruct h as [|first rest]; [done|].
  assert (Hfirst : consuming (first_piece first) = true).
  { unfold first_piece. generalize (DAKUON !! first). by intros [cls|]. }
  destruct rest as [|l middle _] using rev_ind.
  - rewrite japanese_matchreg_single. intros [= <-].
    change (consuming (first_piece first) || false = true).
    by rewrite Hfirst.
  - rewrite japanese_matchreg_multi. intros [= <-].
    change (consuming (first_piece first) || consuming (seq_of (((Atom ∘ Lit) <$> middle) ++ [last_piece l])) = true).
    by rewrite Hfirst.
Qed.

Lemma alt_join_consuming (rs : list regex) :
  rs ≠ [] → Forall (λ r, consuming r = true) rs →
  consuming (alt_join rs) = true.
Proof.
  intros Hne Hall. induction Hall as [|r rs Hr Hall IH]; [done|].
  destruct rs as [|r' rs]; [done|].
  change (consuming r && consuming (alt_join (r' :: rs)) = true).
  rewrite Hr. by apply IH.
Qed.

Section ShortReadings.
Context `{UnicodeDB} `{Lexicon}.

Lemma step_reg_consuming (st : compile_state) (c : N) (reg : regex) :
  (∀ pc preg, prev st = Some (pc, preg) → consuming preg = true) →
  step_reg st c reg → consuming reg = true.
Proof.
  intros Hprev [(Hy & regs & Hregs & ->)|[(_ & _ & pc & Hp)|(_ & _ & ->)]].
  - apply alt_join_consuming.
    + apply mapM_length in Hregs. intros Hnil%fmap_nil_inv. subst regs.
      simpl in Hregs. symmetry in Hregs.
      rewrite (Permutation_length (sort_desc_perm length (yomis_of c))) in Hregs.
      by apply length_zero_iff_nil in Hregs.
    + apply Forall_fmap.
      eapply Forall_impl;
        [|exact (mapM_Forall _ _ _ _ japanese_matchreg_consuming Hregs)].
      done.
  - by eapply Hprev.
  - done.
Qed.

Lemma compile_consuming (w : list N) (st : compile_state) :
  foldM compile_step compile_init w = Ok st →
  Forall (λ r, consuming r = true) (matchreg st)
  ∧ ∀ pc preg, prev st = Some (pc, preg) → consuming preg = true.
Proof.
  revert st. induction w as [|c w IH] using rev_ind; intros st.
  - intros [= <-]. split; [constructor|done].
  - rewrite foldM_app.
    destruct (foldM compile_step compile_init w) as [st0|]; [|done].
    simpl. destruct (compile_step st0 c) as [st1|] eqn:Hstep; [|done].
    simpl. intros [= <-]. destruct (IH st0 eq_refl) as [Hall Hprev].
    apply compile_step_Ok in Hstep as (reg & Hreg & -> & -> & _).
    pose proof (step_reg_consuming _ _ _ Hprev Hreg) as Hc.
    split.
    + apply Forall_app. split; [done|]. by constructor.
    + by intros pc preg [= _ <-].
Qed.

(** X6: once the pattern of a word compiles, [yomidict] raises nothing
    but [UnknownReading]; when it returns, no captured substring is
    empty, so that a reading shorter than the word is always refused. *)
Theorem yomidict_refuses_short (kanji reading : list N) (reg : regex) :
  yomi_matchreg kanji = Ok reg →
  match yomidict kanji reading with
  | Ok d => length kanji ≤ length reading ∧ Forall (λ kv, kv.2 ≠ []) d
  | Raise e =>
    e = UnknownReading kanji reading
  end.
Proof.
  intros Hreg. rewrite (yomidict_compiled _ _ _ Hreg).
  apply yomi_matchreg_Ok in Hreg as (pieces & Hp & -> & _).
  destruct (re_match (seq_of (pieces ++ [Eol])) reading) as [m|] eqn:Hm;
    [|done].
  apply yomi_pieces_Ok in Hp as (st & Hst & ->).
  destruct (compile_prefix_inv _ _ Hst) as (Hlen & Hslots & _).
  destruct (compile_consuming _ _ Hst) as [Hcons _].
  unfold re_match in Hm.
  apply rmatch_slots_nonempty in Hm as (new & s' & -> & Hn & Hall & Hcat);
    [|done..].
  rewrite app_nil_l. split.
  - rewrite Hcat, length_app, <- Hlen, <- Hn, <- (length_fmap snd new).
    pose proof (concat_nonempty_length _ Hall). lia.
  - clear -Hall. induction new as [|[[n|] v] new IH].
    + constructor.
    + apply Forall_cons_1 in Hall as [Hv Hall].
      change (Forall (λ kv, kv.2 ≠ []) ((n, v) :: groupdict new)).
      constructor; [done|by apply IH].
    + apply Forall_cons_1 in Hall as [Hv Hall].
      change (Forall (λ kv : list N * list N, kv.2 ≠ []) (groupdict new)).
      by apply IH.
Qed.
End ShortReadings.

(** ** When compiling fails *)

Lemma group_names_free (r : regex) : group_free r = true → group_names r = [].
Proof.
  induction r as [|a|r1 IH1 r2 IH2|r1 IH1 r2 IH2|r1 IH1|a|a|name r1 IH1| |];
    simpl; try done.
  - intros [H1 H2]%andb_prop. by rewrite IH1, IH2.
  - intros [H1 H2]%andb_prop. by rewrite IH1, IH2.
Qed.

Lemma forallb_false {A} (f : A → bool) (l : list A) :
  forallb f l = false → ∃ x, x ∈ l ∧ f x = false.
Proof.
  induction l as [|a l IH]; simpl; [done|].
  destruct (f a) eqn:Ha; simpl.
  - intros (x & Hx & Hf)%IH. exists x. split; [by right|done].
  - intros _. exists a. split; [by left|done].
Qed.

Lemma group_names_slots (pieces : list regex) (name : list N) :
  Forall is_slot pieces →
  name ∈ group_names (seq_of (pieces ++ [Eol]))
  ↔ ∃ i reg, pieces !! i = Some (Group (Some name) reg).
Proof.
  induction 1 as [|r pieces (n & reg & -> & Hfree) _ IH].
  - simpl. split; [by intros ?%elem_of_nil|by intros (i & reg & ?)].
  - change (group_names (seq_of ((Group n reg :: pieces) ++ [Eol])))
      with (group_names (Group n reg)
            ++ group_names (seq_of (pieces ++ [Eol]))).
    rewrite elem_of_app, IH. split.
    + intros [Hin|(i & reg' & Hi)].
      * destruct n as [n|]; simpl in Hin; rewrite group_names_free in Hin
          by done; [|by apply elem_of_nil in Hin].
        apply list_elem_of_singleton in Hin as ->. by exists 0, reg.
      * by exists (S i), reg'.
    + intros ([|i] & reg' & Hi); simpl in Hi.
      * injection Hi as -> ->. left. simpl. apply elem_of_cons. by left.
      * right. by exists i, reg'.
Qed.

Section CompileFailures.
Context `{UnicodeDB} `{Lexicon}.

Lemma compile_step_total (st : compile_state) (c : N) :
  lexicon_nonempty →
  (yomis_of c = [] → c = NOMA → is_Some (prev st)) →
  ∃ st', compile_step st c = Ok st' ∧ is_Some (prev st').
Proof.
  intros Hlex Hprev. unfold compile_step.
  assert (Hreg : ∃ reg,
            (if bool_decide (yomis_of c ≠ []) then
               yomis <- mapM japanese_matchreg (sort_desc length (yomis_of c)) ;;
               Ok (alt_join (seq_of <$> yomis))
             else if bool_decide (c = NOMA) then
               match prev st with
               | Some (_, prevreg) => Ok prevreg
               | None =>
                 Raise (ValueError "Repetition character 々 following nothing")
               end
             else Ok (Atom (Lit c))) = Ok reg).
  { case_bool_decide as Hy.
    - destruct (mapM_Ok japanese_matchreg (sort_desc length (yomis_of c)))
        as [regs Hregs].
      + rewrite sort_desc_perm.
        eapply Forall_impl; [|exact (Hlex c)]. simpl.
        intros [|first rest] Hne; [done|].
        apply japanese_matchreg_Ok.
      + rewrite Hregs. by eexists.
    - case_bool_decide as Hc; [|by eexists].
      destruct Hprev as [[pc preg] Hp]; [by destruct (yomis_of c)|done|].
      rewrite Hp. by eexists. }
  destruct Hreg as [reg ->]. simpl.
  destruct (count st !! c); eexists; split; try reflexivity; by eexists.
Qed.

Lemma compile_rest_total (st : compile_state) (l : list N) :
  lexicon_nonempty → is_Some (prev st) →
  ∃ st', foldM compile_step st l = Ok st'.
Proof.
  intros Hlex. revert st. induction l as [|c l IH]; intros st Hprev; simpl.
  - by eexists.
  - destruct (compile_step_total st c Hlex) as (st1 & -> & Hp1); [done|].
    simpl. by apply IH.
Qed.

Lemma yomi_pieces_cases (word : list N) :
  lexicon_nonempty →
  match yomi_pieces word with
  | Ok pieces =>
    length pieces = length word
    ∧ ¬ (head word = Some NOMA ∧ yomis_of NOMA = [])
  | Raise e =>
    e = ValueError "Repetition character 々 following nothing"
    ∧ head word = Some NOMA ∧ yomis_of NOMA = []
  end.
Proof.
  intros Hlex.
  assert (Hhead : head word = Some NOMA ∧ yomis_of NOMA = [] →
            yomi_pieces word
            = Raise (ValueError "Repetition character 々 following nothing")).
  { intros [Hh Hy]. destruct word as [|c l]; [done|].
    injection Hh as ->. unfold yomi_pieces. simpl.
    unfold compile_step at 1. rewrite Hy.
    rewrite (bool_decide_eq_false_2 (@nil (list N) ≠ [])) by (by intros ?).
    rewrite (bool_decide_eq_true_2 (NOMA = NOMA)) by done. reflexivity. }
  destruct (yomi_pieces word) as [pieces|e] eqn:Hp.
  { split.
    - apply yomi_pieces_Ok in Hp as (st & Hst & ->).
      apply (compile_prefix_inv _ _ Hst).
    - intros Hbad. by specialize (Hhead Hbad). }
  destruct (decide (head word = Some NOMA ∧ yomis_of NOMA = [])) as [Hbad|Hok].
  { pose proof (Hhead Hbad) as He. injection He as ->. by destruct Hbad. }
  exfalso. unfold yomi_pieces in Hp. destruct word as [|c l]; [done|].
  simpl in Hp.
  destruct (compile_step_total compile_init c Hlex) as (st1 & Hst1 & Hp1).
  { intros Hy ->. destruct Hok. done. }
  rewrite Hst1 in Hp. simpl in Hp.
  destruct (compile_rest_total st1 l Hlex Hp1) as [st' Hst'].
  by rewrite Hst' in Hp.
Qed.

(** X7: with a lexicon whose candidates are not empty and have no
    special character, [yomi_matchreg] fails in two cases only: with
    the [ValueError] of the loop, for a repetition mark at the head of
    the word that the lexicon has no reading for; and, the loop done,
    with the library's error when the name of a group (a character
    that neither [\W] nor [\d] matches, with its occurrence count) is
    not an identifier.  In every other case it returns a pattern with
    one group per character of the word. *)
Theorem yomi_matchreg_raises (word : list N) :
  lexicon_nonempty → lexicon_plain →
  match yomi_matchreg word with
  | Ok reg =>
    ¬ (head word = Some NOMA ∧ yomis_of NOMA = [])
    ∧ (∀ i c, word !! i = Some c → negb (is_word c) || is_digit c = false →
              is_identifier (groupname_of word i c) = true)
    ∧ ∃ pieces, yomi_pieces word = Ok pieces
                ∧ reg = seq_of (pieces ++ [Eol])
                ∧ length pieces = length word
                ∧ Forall is_slot pieces
  | Raise (ValueError msg) =>
    msg = "Repetition character 々 following nothing"%string
    ∧ head word = Some NOMA ∧ yomis_of NOMA = []
  | Raise (ReError msg) =>
    msg = "bad character in group name"%string
    ∧ ¬ (head word = Some NOMA ∧ yomis_of NOMA = [])
    ∧ ∃ i c, word !! i = Some c
             ∧ negb (is_word c) || is_digit c = false
             ∧ is_identifier (groupname_of word i c) = false
  | Raise _ => False
  end.
Proof.
  intros Hlex _. pose proof (yomi_pieces_cases word Hlex) as Hcases.
  unfold yomi_matchreg, re_compile.
  destruct (yomi_pieces word) as [pieces|e] eqn:Hp; simpl.
  2:{ destruct Hcases as (-> & Hh & Hy). done. }
  destruct Hcases as [Hlen Hok].
  apply yomi_pieces_Ok in Hp as (st & Hst & ->).
  assert (Hslots : Forall is_slot (matchreg st))
    by apply (compile_prefix_inv _ _ Hst).
  destruct (forallb is_identifier
              (group_names (seq_of (matchreg st ++ [Eol])))) eqn:Hid.
  - split; [done|]. split; [|by exists (matchreg st)].
    intros i c Hi Hnamed.
    destruct (piece_name_at _ _ _ _ Hst Hi) as (reg & Hreg).
    rewrite Hnamed in Hreg.
    rewrite forallb_forall in Hid. apply Hid, list_elem_of_In.
    apply group_names_slots; [done|]. by exists i, reg.
  - split; [done|]. split; [done|].
    apply forallb_false in Hid as (n & Hn & Hbad).
    apply group_names_slots in Hn as (i & reg & Hi); [|done].
    destruct (lookup_lt_is_Some_2 word i) as [c Hc].
    { rewrite <- Hlen. by eapply lookup_lt_Some. }
    destruct (piece_name_at _ _ _ _ Hst Hc) as (reg' & Hreg').
    rewrite Hi in Hreg'. exists i, c.
    destruct (negb (is_word c) || is_digit c); [done|].
    injection Hreg' as -> _. done.
Qed.
End CompileFailures.

(** ** Rebuilding the reading from a guessed split *)

Section GuessRebuild.
Context `{UnicodeDB}.

Lemma guess_loop_pieces (text : list N) :
  matchreg_greedy (guess_loop text) = greedy_piece <$> text
  ∧ matchreg_nongreedy (guess_loop text) = nongreedy_piece <$> text.
Proof.
  unfold guess_loop. induction text as [|c w [IHg IHl]] using rev_ind; [done|].
  rewrite fold_left_app, !fmap_app. simpl.
  unfold greedy_piece, nongreedy_piece.
  destruct (is_Han c) eqn:Hc.
  - rewrite guess_step_kanji by done. simpl. by rewrite IHg, IHl.
  - rewrite guess_step_other by done. simpl. by rewrite IHg, IHl.
Qed.

Lemma plus_greedy_captures (a : atom) (s : list N)
    (k : list N → option (list (option (list N) * list N)))
    (m : list (option (list N) * list N)) :
  plus_greedy a s k = Some m →
  ∃ pre s', s = pre ++ s' ∧ pre ≠ [] ∧ forallb (atom_ok a) pre = true
            ∧ k s' = Some m.
Proof.
  induction s as [|c s IH]; simpl; [done|].
  destruct (atom_ok a c) eqn:Hc; [|done].
  destruct (plus_greedy a s k) as [m'|] eqn:Hrec.
  - intros [= ->]. destruct (IH eq_refl) as (pre & s' & -> & _ & Hall & Hk).
    exists (c :: pre), s'. simpl. by rewrite Hc.
  - intros Hk. exists [c], s. simpl. by rewrite Hc.
Qed.

(** What a match of the greedy pattern looks like. *)
Lemma rmatch_guess (whole text s : list N)
    (caps m : list (option (list N) * list N)) :
  rmatch whole (seq_of ((greedy_piece <$> text) ++ [Eol])) s caps
         (λ _ c, Some c) = Some m →
  ∃ new s',
    m = caps ++ new
    ∧ length new = length (filter (λ c, is_Han c = true) text)
    ∧ Forall (λ y, y ≠ [] ∧ forallb is_Hiragana y = true) new.*2
    ∧ at_end s' = true
    ∧ s = rebuild text new.*2 ++ s'.
Proof.
  revert s caps. induction text as [|c text IH]; intros s caps.
  - simpl. destruct (at_end s) eqn:Hend; [|done]. intros [= <-].
    exists [], s. rewrite app_nil_r. split_and!; done.
  - rewrite fmap_cons, filter_cons. unfold greedy_piece at 1.
    destruct (is_Han c) eqn:Hc; simpl.
    + intros Hm.
      apply plus_greedy_captures in Hm as (pre & s1 & -> & Hne & Hall & Hm).
      rewrite take_consumed in Hm.
      apply IH in Hm as (new & s' & -> & Hlen & Hcaps & Hend & ->).
      exists ((None, pre) :: new), s'. split_and!.
      * by rewrite <- app_assoc.
      * simpl. by rewrite Hlen.
      * by constructor.
      * done.
      * simpl. by rewrite Hc, <- app_assoc.
    + destruct s as [|c' s]; [done|]. case_bool_decide as Heq; [|done].
      subst c'. intros Hm.
      apply IH in Hm as (new & s' & -> & Hlen & Hcaps & Hend & ->).
      exists new, s'. split_and!; [done..|]. simpl. by rewrite Hc.
Qed.

Lemma guess_assign_dom (ks : list N) (ys : list (list N)) (n : nat)
    (d : gmap N (list N)) :
  foldM (guess_assign ks ys) ∅ (seq 0 n) = Ok d →
  ∀ c, d !! c = None ↔ c ∉ take n ks.
Proof.
  revert d. induction n as [|n IH]; intros d.
  - intros [= <-] c. rewrite take_0. split; [intros _|done].
    apply not_elem_of_nil.
  - rewrite seq_S, foldM_app.
    destruct (foldM (guess_assign ks ys) ∅ (seq 0 n)) as [d'|]; [|done].
    simpl. unfold guess_assign.
    destruct (ks !! n) as [k|] eqn:Hk; [|done].
    destruct (ys !! n) as [y|]; [|done]. intros [= <-] c.
    rewrite (take_S_r _ _ _ Hk), elem_of_app, list_elem_of_singleton.
    destruct (decide (k = c)) as [->|Hne].
    + rewrite lookup_insert_eq. split; [done|]. intros Hc. destruct Hc. by right.
    + rewrite lookup_insert_ne by done. rewrite (IH d' eq_refl c).
      split; [intros Hc [?|?]; by eauto|]. intros Hc ?. apply Hc. by left.
Qed.

Lemma rebuild_subst (text : list N) (ys : list (list N))
    (g : N → option (list N)) :
  length ys = length (filter (λ c, is_Han c = true) text) →
  (∀ j c, filter (λ c, is_Han c = true) text !! j = Some c → g c = ys !! j) →
  (∀ c, c ∈ text → is_Han c = false → g c = None) →
  rebuild text ys = flat_map (λ c, default [c] (g c)) text.
Proof.
  revert ys. induction text as [|c text IH]; intros ys Hlen Hk Ho; [done|].
  simpl. rewrite filter_cons in Hlen, Hk.
  destruct (is_Han c) eqn:Hc.
  - rewrite decide_True in Hlen, Hk by done.
    destruct ys as [|y ys]; [done|].
    rewrite (Hk 0 c eq_refl). simpl. f_equal. apply IH.
    + simpl in Hlen. lia.
    + intros j c' Hj. apply (Hk (S j) c' Hj).
    + intros c' Hin. apply Ho. by right.
  - rewrite decide_False in Hlen, Hk by done.
    rewrite (Ho c) by (done || by left). simpl. f_equal. apply IH; [done..|].
    intros c' Hin. apply Ho. by right.
Qed.

(** X8: when [guess_split] returns a mapping, its keys are the kanji of
    the text, each value is one of the captures, the captures are
    non-empty runs of hiragana, and the reading (up to a final newline)
    is the text with every kanji replaced by its capture; when no kanji
    is repeated, replacing each kanji by its value in the mapping gives
    the reading back. *)
Theorem guess_split_rebuilds (majiribun reading : list N)
    (d : gmap N (list N)) :
  guess_split majiribun reading = Ok (Some d) →
  ∃ yomis nl,
    length yomis = length (filter (λ c, is_Han c = true) majiribun)
    ∧ Forall (λ y, y ≠ [] ∧ forallb is_Hiragana y = true) yomis
    ∧ at_end nl = true
    ∧ reading = rebuild majiribun yomis ++ nl
    ∧ (∀ c, is_Some (d !! c) ↔ c ∈ majiribun ∧ is_Han c = true)
    ∧ (∀ c y, d !! c = Some y → y ∈ yomis)
    ∧ (NoDup (filter (λ c, is_Han c = true) majiribun) →
       reading = flat_map (λ c, default [c] (d !! c)) majiribun ++ nl).
Proof.
  unfold guess_split. intros Hd.
  destruct (guess_loop_pieces majiribun) as [Hg _].
  destruct (guess_loop_inv majiribun) as (_ & _ & _ & _ & _ & Hks).
  destruct (re_match (seq_of (matchreg_greedy _ ++ [Eol])) reading)
    as [m|] eqn:Hm; [|done].
  destruct (re_match (seq_of (matchreg_nongreedy _ ++ [Eol])) reading)
    as [m'|]; [|done].
  case_bool_decide; [done|].
  destruct (foldM _ ∅ _) as [d'|] eqn:Hd'; [|done].
  simpl in Hd. injection Hd as ->.
  unfold re_match in Hm. rewrite Hg in Hm.
  apply rmatch_guess in Hm as (new & nl & -> & Hlen & Hcaps & Hend & Hread).
  rewrite app_nil_l in Hd'. rewrite Hks in Hd'.
  set (ks := filter (λ c, is_Han c = true) majiribun) in *.
  assert (Hlen' : length (groups new) = length ks).
  { unfold groups. by rewrite length_fmap. }
  destruct (guess_assign_loop ks (groups new) (length ks))
    as (d0 & Hd0 & Hlast); [lia..|].
  rewrite Hd' in Hd0. injection Hd0 as <-.
  pose proof (guess_assign_dom _ _ _ _ Hd') as Hdom.
  rewrite firstn_all in Hdom.
  assert (Hin : ∀ c, is_Some (d !! c) ↔ c ∈ ks).
  { intros c. rewrite <- not_eq_None_Some, Hdom.
    destruct (decide (c ∈ ks)); [|tauto]. split; [done|]. tauto. }
  assert (Hval : ∀ c y, d !! c = Some y →
            ∃ j, ks !! j = Some c ∧ groups new !! j = Some y
                 ∧ ∀ j', j < j' → ks !! j' ≠ Some c).
  { intros c y Hy.
    assert (Hc : c ∈ ks) by (apply Hin; by eexists).
    assert (Hex : ∃ j, ks !! j = Some c ∧ ∀ j', j < j' → ks !! j' ≠ Some c).
    { clear -Hc. induction ks as [|k ks IH]; [by apply elem_of_nil in Hc|].
      destruct (decide (c ∈ ks)) as [Hin|Hnin].
      - destruct (IH Hin) as (j & Hj & Hl). exists (S j). split; [done|].
        intros [|j'] ?; [lia|]. apply Hl. lia.
      - apply elem_of_cons in Hc as [->|?]; [|done]. exists 0. split; [done|].
        intros [|j'] ? Hj'; [lia|]. apply Hnin.
        by eapply list_elem_of_lookup_2. }
    destruct Hex as (j & Hj & Hl). exists j. split_and!; [done| |done].
    rewrite <- Hy. symmetry. apply Hlast; [by eapply lookup_lt_Some|done|].
    intros j' ? _. by apply Hl. }
  exists (groups new), nl. split_and!; [done..| | |].
  - intros c. rewrite Hin. unfold ks. rewrite list_elem_of_filter. tauto.
  - intros c y Hy. destruct (Hval c y Hy) as (j & _ & Hj & _).
    by eapply list_elem_of_lookup_2.
  - intros Hnd. rewrite Hread. f_equal. apply rebuild_subst; [done| |].
    + intros j c Hj. apply Hlast; [by eapply lookup_lt_Some|done|].
      intros j' Hlt _ Hj'.
      pose proof (NoDup_lookup _ _ _ _ Hnd Hj Hj'). lia.
    + intros c Hc Hn. apply Hdom. unfold ks. rewrite list_elem_of_filter.
      intros [? _]. congruence.
Qed.

(** X9: a text without kanji is matched as it is: the result is the
    empty mapping when the reading is the text itself, possibly followed
    by a newline, and [None] otherwise. *)
Theorem guess_split_no_kanji (majiribun reading : list N) :
  Forall (λ c, is_Han c = false) majiribun →
  guess_split majiribun reading
  = if bool_decide (majiribun `prefix_of` reading)
       && at_end (drop (length majiribun) reading)
    then Ok (Some ∅) else Ok None.
Proof.
  intros Hno. unfold guess_split.
  destruct (guess_loop_pieces majiribun) as [Hg Hl].
  destruct (guess_loop_inv majiribun) as (_ & _ & _ & _ & _ & Hks).
  assert (Hnil : filter (λ c, is_Han c = true) majiribun = []).
  { clear -Hno. induction Hno as [|c l Hc _ IH]; [done|].
    rewrite filter_cons, decide_False by (by rewrite Hc). done. }
  assert (Hlit : ∀ f : N → regex,
            (∀ c, is_Han c = false → f c = Atom (Lit c)) →
            f <$> majiribun = (Atom ∘ Lit) <$> majiribun).
  { intros f Hf. clear -Hno Hf. induction Hno as [|c l Hc _ IH]; [done|].
    rewrite !fmap_cons, IH. f_equal. by apply Hf. }
  rewrite Hg, Hl, Hks, Hnil.
  rewrite (Hlit greedy_piece), (Hlit nongreedy_piece);
    [|intros c Hc; unfold nongreedy_piece; by rewrite Hc
     |intros c Hc; unfold greedy_piece; by rewrite Hc].
  unfold re_match. rewrite rmatch_lits.
  case_bool_decide as Hp; simpl; [|done].
  destruct (at_end (drop (length majiribun) reading)); [|done].
  by rewrite bool_decide_eq_false_2 by (by intros ?).
Qed.
End GuessRebuild.

(** ** Prefixes of joyo readings; keys of a reading split *)

Section JoyoPrefixes.
Context `{Lexicon}.

(** X10: every prefix of a joyo kun-yomi entry, the empty string
    included, is classified as a joyo reading. *)
Theorem is_joyo_prefix (kanji reading kun : list N) (kuns : list (list N)) :
  JOYO_KUNYOMI !! kanji = Some kuns → kun ∈ kuns →
  reading `prefix_of` kun →
  is_joyo kanji reading = Ok true.
Proof.
  intros Hk Hkun Hpre. unfold is_joyo. rewrite Hk.
  destruct (match JOYO_ONYOMI !! kanji with
            | Some ons => bool_decide (reading ∈ ons)
            | None => false
            end); [done|].
  destruct (joyo_kun_checks kuns reading) as (b & Hb & Hiff).
  assert (Htrue : b = true).
  { apply Hiff. destruct (decide (reading = kun)) as [->|Hne]; [by left|].
    right; right. by exists kun. }
  subst b. exact Hb.
Qed.
End JoyoPrefixes.

Lemma groupdict_elem (m : list (option (list N) * list N)) (n v : list N) :
  (n, v) ∈ groupdict m ↔ (Some n, v) ∈ m.
Proof.
  unfold groupdict. rewrite list_elem_of_omap. split.
  - intros ([[n'|] v'] & Hin & Heq); simplify_eq/=. done.
  - intros Hin. by exists (Some n, v).
Qed.

Lemma groupdict_NoDup (m : list (option (list N) * list N)) :
  (∀ i j n v v', m !! i = Some (Some n, v) → m !! j = Some (Some n, v') →
                 i = j) →
  NoDup (groupdict m).*1.
Proof.
  induction m as [|[[n|] v] m IH]; intros Hinj.
  - constructor.
  - change (NoDup (n :: (groupdict m).*1)). constructor.
    + intros Hin. apply list_elem_of_fmap in Hin as ([n' v'] & -> & Hin).
      apply groupdict_elem, list_elem_of_lookup in Hin as [j Hj].
      specialize (Hinj 0 (S j) n' v v' eq_refl Hj). done.
    + apply IH. intros i j n' v1 v2 Hi Hj.
      specialize (Hinj (S i) (S j) n' v1 v2 Hi Hj). lia.
  - change (NoDup (groupdict m).*1).
    apply IH. intros i j n' v1 v2 Hi Hj.
    specialize (Hinj (S i) (S j) n' v1 v2 Hi Hj). lia.
Qed.

Lemma slot_names_lookup_2 (pieces : list regex) (i : nat)
    (n : option (list N)) (reg : regex) :
  Forall is_slot pieces → pieces !! i = Some (Group n reg) →
  slot_names pieces !! i = Some n.
Proof.
  intros Hslots. revert i.
  induction Hslots as [|r pieces (name & reg' & -> & _) _ IH]; intros i;
    [done|].
  change (slot_names (Group name reg' :: pieces))
    with (name :: slot_names pieces).
  destruct i as [|i]; simpl; [by intros [= -> _]|]. apply IH.
Qed.

Section SlotKeys.
Context `{UnicodeDB} `{Lexicon}.

(** X11: the keys of the mapping [yomidict] returns are pairwise
    distinct, and they are the names given to the characters of the word
    that are neither punctuation nor digits. *)
Theorem yomidict_keys (kanji reading : list N) (d : list (list N * list N)) :
  yomidict kanji reading = Ok d →
  NoDup d.*1
  ∧ ∀ key, key ∈ d.*1 ↔
      ∃ i c, kanji !! i = Some c
             ∧ negb (is_word c) || is_digit c = false
             ∧ key = groupname_of kanji i c.
Proof.
  intros Hd.
  apply yomidict_Ok in Hd as (pieces & m & Hpieces & _ & Hm & ->).
  apply yomi_pieces_Ok in Hpieces as (st & Hst & ->).
  destruct (compile_prefix_inv _ _ Hst) as (Hlen & Hslots & _).
  unfold re_match in Hm.
  apply rmatch_pieces in Hm as (new & s' & -> & Hnames & _).
  2:{ eapply Forall_impl; [|exact Hslots]. intros r Hr. by left. }
  rewrite app_nil_l.
  assert (Hat : ∀ i n v, new !! i = Some (Some n, v) →
            ∃ c, kanji !! i = Some c
                 ∧ negb (is_word c) || is_digit c = false
                 ∧ n = groupname_of kanji i c).
  { intros i n v Hi.
    assert (Hn : slot_names (matchreg st) !! i = Some (Some n)).
    { rewrite <- Hnames, list_lookup_fmap, Hi. done. }
    apply slot_names_lookup in Hn as [reg Hreg]; [|done].
    destruct (lookup_lt_is_Some_2 kanji i) as [c Hc].
    { rewrite <- Hlen. by eapply lookup_lt_Some. }
    destruct (piece_name_at _ _ _ _ Hst Hc) as (reg' & Hreg').
    rewrite Hreg in Hreg'. exists c. split; [done|].
    destruct (negb (is_word c) || is_digit c); [done|].
    by injection Hreg' as -> _. }
  split.
  - apply groupdict_NoDup. intros i j n v v' Hi Hj.
    destruct (Hat _ _ _ Hi) as (ci & Hci & _ & ->).
    destruct (Hat _ _ _ Hj) as (cj & Hcj & _ & Heq).
    apply groupname_of_inj in Heq as [-> Hocc].
    destruct (Nat.lt_trichotomy i j) as [Hlt|[->|Hlt]]; [|done|].
    + pose proof (occurrence_lt _ _ _ _ Hlt Hcj). lia.
    + pose proof (occurrence_lt _ _ _ _ Hlt Hci). lia.
  - intros key. rewrite list_elem_of_fmap. split.
    + intros ([n v] & -> & Hin).
      apply groupdict_elem, list_elem_of_lookup in Hin as [i Hi].
      destruct (Hat _ _ _ Hi) as (c & Hc & Hw & ->). by exists i, c.
    + intros (i & c & Hc & Hw & ->).
      destruct (piece_name_at _ _ _ _ Hst Hc) as (reg & Hreg).
      rewrite Hw in Hreg.
      assert (Hn : slot_names (matchreg st) !! i
                   = Some (Some (groupname_of kanji i c))).
      { by eapply slot_names_lookup_2. }
      rewrite <- Hnames, list_lookup_fmap in Hn.
      destruct (new !! i) as [[n v]|] eqn:Hi; [|done].
      simpl in Hn. injection Hn as ->.
      exists (groupname_of kanji i c, v). split; [done|].
      apply groupdict_elem. by eapply list_elem_of_lookup_2.
Qed.
End SlotKeys.

(** ** What a reading split captures *)

Section CandidateLanguage.
Context `{UnicodeDB}.

Lemma exact_for_iff (r : regex) (P Q : list N → Prop) :
  (∀ t, P t ↔ Q t) → exact_for r P → exact_for r Q.
Proof.
  intros HPQ [Hs Hc]. split.
  - intros whole s caps k m Hm.
    destruct (Hs _ _ _ _ _ Hm) as (pre & s' & -> & HP & Hk).
    exists pre, s'. split_and!; [done| |done]. by apply HPQ.
  - intros whole pre s' caps k HQ Hk. apply Hc; [|done]. by apply HPQ.
Qed.

Lemma exact_lit (c : N) : exact_for (Atom (Lit c)) (λ t, t = [c]).
Proof.
  split.
  - intros whole s caps k m. simpl. destruct s as [|c' s]; [done|].
    case_bool_decide as Hc; [|done]. subst c'. intros Hk. by exists [c], s.
  - intros whole pre s' caps k -> Hk. simpl.
    by rewrite bool_decide_eq_true_2.
Qed.

Lemma exact_last (l : N) : exact_for (seq_of [last_piece l]) (last_ok l).
Proof.
  unfold last_piece, last_ok. split.
  - intros whole s caps k m. case_bool_decide as Hl; simpl.
    + destruct s as [|c s].
      { intros Hk. exists [], []. split_and!; [done| |done]. right. by eauto. }
      case_bool_decide as Hc.
      * destruct (k s caps) as [m'|] eqn:Hk.
        -- intros [= ->]. exists [c], s. split_and!; [done| |done].
           apply elem_of_cons in Hc as [->|Hc]; [by left|].
           apply list_elem_of_singleton in Hc as ->. right. by eauto.
        -- intros Hk'. exists [], (c :: s). split_and!; [done| |done].
           right. by eauto.
      * intros Hk'. exists [], (c :: s). split_and!; [done| |done].
        right. by eauto.
    + destruct s as [|c s]; [done|]. case_bool_decide as Hc; [|done].
      subst c. intros Hk. exists [l], s. split_and!; [done| |done]. by left.
  - intros whole pre s' caps k Hpre [m Hk]. case_bool_decide as Hl; simpl.
    + destruct Hpre as [->|[_ [->| ->]]]; simpl.
      * rewrite bool_decide_eq_true_2 by repeat constructor.
        rewrite Hk. by eexists.
      * rewrite bool_decide_eq_true_2 by repeat constructor.
        rewrite Hk. by eexists.
      * destruct s' as [|c s]; [rewrite Hk; by eexists|].
        case_bool_decide; [|rewrite Hk; by eexists].
        destruct (k s caps); [by eexists|]. rewrite Hk. by eexists.
    + destruct Hpre as [->|[? _]]; [|done]. simpl.
      rewrite bool_decide_eq_true_2 by done. rewrite Hk. by eexists.
Qed.

Lemma accepts_single (first : N) (t : list N) :
  accepts [first] t ↔
  ∃ f', f' ∈ default [first] (DAKUON !! first) ∧ t = [f'].
Proof.
  unfold accepts. rewrite variant_single. split; [|by left].
  intros [?|Hd]; [done|]. by apply dropped_single in Hd.
Qed.

Lemma accepts_multi (first l : N) (middle t : list N) :
  accepts (first :: middle ++ [l]) t ↔
  ∃ f' tl, f' ∈ default [first] (DAKUON !! first) ∧ last_ok l tl
           ∧ t = f' :: middle ++ tl.
Proof.
  unfold accepts, last_ok. rewrite variant_multi, dropped_multi. split.
  - intros [(f' & l' & Hf & -> & Hl)|(Hl & f' & Hf & ->)].
    + exists f', [l']. split_and!; [done| |done].
      destruct Hl as [->|[? ->]]; [by left|]. right. by eauto.
    + exists f', []. rewrite app_nil_r. split_and!; [done| |done].
      right. by eauto.
  - intros (f' & tl & Hf & [->|[Hl [->| ->]]] & ->).
    + left. exists f', l. by eauto.
    + left. exists f', SMALL_TSU. by eauto.
    + right. rewrite app_nil_r. by eauto.
Qed.

(** The pattern of a candidate consumes exactly the texts it accepts. *)
Lemma exact_candidate (y : list N) (rs : list regex) :
  japanese_matchreg y = Ok rs → exact_for (seq_of rs) (accepts y).
Proof.
  destruct y as [|first rest]; [intros ?; discriminate|].
  destruct (first_piece_atom first) as (a0 & Hfirst & Hok).
  destruct rest as [|l middle _] using rev_ind.
  - rewrite japanese_matchreg_single, Hfirst. intros [= <-].
    eapply exact_for_iff; [intros t; symmetry; apply accepts_single|].
    split.
    + intros whole s caps k m. cbn [seq_of rmatch].
      destruct s as [|c s]; [intros ?; discriminate|].
      rewrite Hok. case_bool_decide as Hc; [|intros ?; discriminate].
      intros Hk. exists [c], s. split_and!; [reflexivity| |exact Hk].
      exists c. split; [exact Hc|reflexivity].
    + intros whole pre s' caps k (f' & Hf & ->) Hk. cbn [seq_of rmatch app].
      rewrite Hok. rewrite bool_decide_eq_true_2 by exact Hf. exact Hk.
  - rewrite japanese_matchreg_multi, Hfirst. intros [= <-].
    eapply exact_for_iff; [intros t; symmetry; apply accepts_multi|].
    destruct (exact_last l) as [Hls Hlc].
    split.
    + intros whole s caps k m.
      cbn [seq_of rmatch]. destruct s as [|c s]; [intros ?; discriminate|].
      rewrite Hok. case_bool_decide as Hc; [|intros ?; discriminate].
      rewrite rmatch_lits. case_bool_decide as Hp; [|intros ?; discriminate].
      destruct Hp as [s2 ->]. rewrite drop_app_length. intros Hm.
      apply Hls in Hm as (tl & s3 & -> & Htl & Hk).
      exists (c :: middle ++ tl), s3. split_and!.
      * cbn [app]. by rewrite <- app_assoc.
      * exists c, tl. split_and!; [exact Hc|exact Htl|reflexivity].
      * exact Hk.
    + intros whole pre s' caps k (f' & tl & Hf & Htl & ->) Hk.
      cbn [seq_of rmatch app]. rewrite Hok.
      rewrite bool_decide_eq_true_2 by exact Hf.
      rewrite <- app_assoc, rmatch_lits.
      rewrite bool_decide_eq_true_2 by (eexists; reflexivity).
      rewrite drop_app_length. apply Hlc; [exact Htl|exact Hk].
Qed.
End CandidateLanguage.

Lemma mapM_Forall2 {A B} (f : A → result B) (l : list A) (bs : list B) :
  mapM f l = Ok bs → Forall2 (λ b a, f a = Ok b) bs l.
Proof.
  revert bs. induction l as [|a l IH]; intros bs; simpl.
  - intros [= <-]. constructor.
  - destruct (f a) eqn:Ha; simpl; [|done].
    destruct (mapM f l); simpl; [|done].
    intros [= <-]. constructor; eauto.
Qed.

Section SlotSequences.
Context `{UnicodeDB}.

Lemma exact_alt_join (rs : list regex) (ys : list (list N)) :
  Forall2 (λ r y, exact_for r (accepts y)) rs ys → rs ≠ [] →
  exact_for (alt_join rs) (λ t, ∃ y, y ∈ ys ∧ accepts y t).
Proof.
  induction 1 as [|r y rs ys [Hs Hc] Hrest IH]; [done|]. intros _.
  destruct rs as [|r' rs].
  { apply Forall2_nil_inv_l in Hrest as ->.
    split.
    - intros whole s caps k m Hm.
      destruct (Hs _ _ _ _ _ Hm) as (pre & s' & -> & HP & Hk).
      exists pre, s'. split_and!; [done| |done]. exists y. split; [|done].
      repeat constructor.
    - intros whole pre s' caps k (y' & Hy & HP) Hk.
      apply list_elem_of_singleton in Hy as ->. by apply Hc. }
  destruct IH as [IHs IHc]; [done|].
  change (alt_join (r :: r' :: rs)) with (Alt r (alt_join (r' :: rs))).
  split.
  - intros whole s caps k m. cbn [rmatch].
    destruct (rmatch whole r s caps k) as [m'|] eqn:Hm1.
    + intros [= ->].
      destruct (Hs _ _ _ _ _ Hm1) as (pre & s' & -> & HP & Hk).
      exists pre, s'. split_and!; [done| |done]. exists y. split; [|done].
      repeat constructor.
    + intros Hm.
      destruct (IHs _ _ _ _ _ Hm) as (pre & s' & -> & (y' & Hy & HP) & Hk).
      exists pre, s'. split_and!; [done| |done]. exists y'. split; [|done].
      by constructor.
  - intros whole pre s' caps k (y' & Hy & HP) Hk. cbn [rmatch].
    destruct (rmatch whole r (pre ++ s') caps k) as [m'|] eqn:Hm1;
      [by eexists|].
    apply elem_of_cons in Hy as [->|Hy].
    + pose proof (Hc whole pre s' caps k HP Hk) as [? Hsome]. congruence.
    + apply IHc; [|done]. by exists y'.
Qed.

(** A sequence of slots closed by [$]: the captures are texts of the
    slots' languages, and the pattern matches every such sequence of
    texts. *)
Lemma rmatch_slots_sound (whole : list N) (pieces : list regex)
    (Ps : list (list N → Prop)) (s : list N)
    (caps m : list (option (list N) * list N)) :
  Forall2 (λ r P, ∃ n reg, r = Group n reg ∧ sound_for reg P) pieces Ps →
  rmatch whole (seq_of (pieces ++ [Eol])) s caps (λ _ c, Some c) = Some m →
  ∃ new s',
    m = caps ++ new ∧ Forall2 (λ P t, P t) Ps new.*2
    ∧ at_end s' = true ∧ s = concat new.*2 ++ s'.
Proof.
  intros Hall. revert s caps.
  induction Hall as [|r P pieces Ps (n & reg & -> & Hs) _ IH];
    intros s caps; simpl.
  - destruct (at_end s) eqn:Hend; [|done]. intros [= <-].
    exists [], s. rewrite app_nil_r. split_and!; [done|constructor|done..].
  - intros Hm. apply Hs in Hm as (pre & s1 & -> & HP & Hm).
    rewrite take_consumed in Hm.
    apply IH in Hm as (new & s' & -> & Hnew & Hend & ->).
    exists ((n, pre) :: new), s'. split_and!.
    + by rewrite <- app_assoc.
    + by constructor.
    + done.
    + simpl. by rewrite <- app_assoc.
Qed.

Lemma rmatch_slots_complete (whole : list N) (pieces : list regex)
    (Ps : list (list N → Prop)) (ts : list (list N)) (nl : list N)
    (caps : list (option (list N) * list N)) :
  Forall2 (λ r P, ∃ n reg, r = Group n reg ∧ complete_for reg P) pieces Ps →
  Forall2 (λ P t, P t) Ps ts → at_end nl = true →
  is_Some (rmatch whole (seq_of (pieces ++ [Eol])) (concat ts ++ nl) caps
                  (λ _ c, Some c)).
Proof.
  intros Hall. revert ts caps.
  induction Hall as [|r P pieces Ps (n & reg & -> & Hc) _ IH];
    intros ts caps Hts Hend.
  - apply Forall2_nil_inv_l in Hts as ->. simpl. rewrite Hend. by eexists.
  - apply Forall2_cons_inv_l in Hts as (t & ts' & HP & Hts & ->).
    simpl. rewrite <- app_assoc. apply Hc; [done|]. by apply IH.
Qed.
End SlotSequences.

Section SplitSoundness.
Context `{UnicodeDB} `{Lexicon}.

Lemma lang_of_cons (c : N) (before t : list N) :
  lang_of (c :: before) t
  = if decide (yomis_of c = []) then
      if decide (c = NOMA) then lang_of before t else t = [c]
    else ∃ y, y ∈ yomis_of c ∧ accepts y t.
Proof. reflexivity. Qed.

Lemma step_reg_exact (st : compile_state) (c : N) (reg : regex)
    (before : list N) :
  (∀ pc preg, prev st = Some (pc, preg) → exact_for preg (lang_of before)) →
  step_reg st c reg → exact_for reg (lang_of (c :: before)).
Proof.
  intros Hprev [(Hy & regs & Hregs & ->)|[(Hy & -> & pc & Hp)|(Hy & Hc & ->)]].
  - apply (exact_for_iff _
             (λ t, ∃ y, y ∈ sort_desc length (yomis_of c) ∧ accepts y t)).
    { intros t. rewrite lang_of_cons.
      destruct (decide (yomis_of c = [])); [done|].
      split; intros (y & Hin & Ha); exists y; (split; [|exact Ha]).
      - by rewrite (sort_desc_perm length (yomis_of c)) in Hin.
      - by rewrite (sort_desc_perm length (yomis_of c)). }
    apply exact_alt_join.
    + apply Forall2_fmap_l. apply mapM_Forall2 in Hregs.
      eapply Forall2_impl; [|exact Hregs]. intros rs y. apply exact_candidate.
    + apply mapM_length in Hregs. intros Hnil%fmap_nil_inv. subst regs.
      simpl in Hregs. symmetry in Hregs.
      rewrite (Permutation_length (sort_desc_perm length (yomis_of c)))
        in Hregs.
      by apply length_zero_iff_nil in Hregs.
  - apply (exact_for_iff _ (lang_of before)); [|by eapply Hprev].
    intros t. rewrite lang_of_cons.
    destruct (decide (yomis_of NOMA = [])); [|done].
    by destruct (decide (NOMA = NOMA)).
  - apply (exact_for_iff _ (λ t, t = [c])); [|apply exact_lit].
    intros t. rewrite lang_of_cons.
    destruct (decide (yomis_of c = [])); [|done].
    by destruct (decide (c = NOMA)).
Qed.

Lemma compile_exact (w : list N) (st : compile_state) :
  foldM compile_step compile_init w = Ok st →
  ∀ pc preg, prev st = Some (pc, preg) → exact_for preg (lang_of (reverse w)).
Proof.
  revert st. induction w as [|c w IH] using rev_ind; intros st.
  - by intros [= <-].
  - rewrite foldM_app.
    destruct (foldM compile_step compile_init w) as [st0|]; [|done].
    simpl. destruct (compile_step st0 c) as [st1|] eqn:Hstep; [|done].
    simpl. intros [= <-] pc preg Hp.
    apply compile_step_Ok in Hstep as (reg & Hreg & _ & Hp' & _).
    rewrite Hp' in Hp. injection Hp as <- <-.
    rewrite reverse_snoc. eapply step_reg_exact; [|done]. by apply IH.
Qed.

Lemma pieces_exact (w : list N) (st : compile_state) :
  foldM compile_step compile_init w = Ok st →
  Forall2 (λ r P, ∃ n reg, r = Group n reg ∧ exact_for reg P)
          (matchreg st) ((λ i, slot_lang w i) <$> seq 0 (length w)).
Proof.
  intros Hst.
  destruct (compile_prefix_inv _ _ Hst) as (Hlen & _).
  apply Forall2_same_length_lookup_2.
  { by rewrite length_fmap, length_seq. }
  intros i r P Hr HP.
  apply list_lookup_fmap_Some in HP as (i' & -> & Hi).
  apply lookup_seq in Hi as [-> Hi]. simpl.
  destruct (lookup_lt_is_Some_2 w i Hi) as [c Hc].
  destruct (pieces_at _ _ _ _ Hst Hc)
    as (sti & reg & more & Hsti & _ & Hreg & _ & Hpiece).
  rewrite Hpiece in Hr. injection Hr as <-.
  eexists _, reg. split; [done|].
  unfold slot_lang. rewrite (take_S_r _ _ _ Hc), reverse_snoc.
  eapply step_reg_exact; [|done]. by apply compile_exact.
Qed.

(** X12: when [yomidict] returns, the reading, less a final newline if
    it has one, is cut into one non-overlapping piece per character of
    the word, in order, and the piece of each character is a text its
    group can capture: a text accepted by one of the character's
    candidates; for a repetition mark, a text the character before it
    could capture; for a character without candidates, the character
    itself.  Every value of the returned mapping is one of the pieces. *)
Theorem yomidict_sound (kanji reading : list N)
    (d : list (list N * list N)) :
  yomidict kanji reading = Ok d →
  ∃ caps nl,
    reading = concat caps ++ nl ∧ at_end nl = true
    ∧ length caps = length kanji
    ∧ (∀ i t, caps !! i = Some t → slot_lang kanji i t)
    ∧ (∀ key v, (key, v) ∈ d → v ∈ caps).
Proof.
  intros Hd.
  apply yomidict_Ok in Hd as (pieces & m & Hpieces & _ & Hm & ->).
  apply yomi_pieces_Ok in Hpieces as (st & Hst & ->).
  pose proof (pieces_exact _ _ Hst) as Hex.
  unfold re_match in Hm.
  apply rmatch_slots_sound
    with (Ps := (λ i, slot_lang kanji i) <$> seq 0 (length kanji)) in Hm
    as (new & nl & -> & Hnew & Hend & Hcat).
  2:{ eapply Forall2_impl; [|exact Hex].
      intros r P (n & reg & -> & [Hs _]). by eexists _, _. }
  rewrite app_nil_l. exists new.*2, nl.
  assert (Hlen : length new.*2 = length kanji).
  { apply Forall2_length in Hnew.
    by rewrite length_fmap, length_seq in Hnew. }
  split_and!; [done..| |].
  - intros i t Ht.
    eapply Forall2_lookup_r in Hnew as (P & HP & HPt); [|exact Ht].
    apply list_lookup_fmap_Some in HP as (i' & -> & Hi).
    by apply lookup_seq in Hi as [-> _].
  - intros key v Hin. apply groupdict_elem in Hin.
    apply list_elem_of_fmap. by exists (Some key, v).
Qed.

(** X13: when the pattern of a word compiles, [yomidict] accepts every
    reading made, character by character, of a text the character's
    group can capture, optionally followed by a newline. *)
Theorem yomidict_complete (kanji : list N) (reg : regex)
    (ts : list (list N)) (nl : list N) :
  yomi_matchreg kanji = Ok reg →
  length ts = length kanji →
  (∀ i t, ts !! i = Some t → slot_lang kanji i t) →
  at_end nl = true →
  ∃ d, yomidict kanji (concat ts ++ nl) = Ok d.
Proof.
  intros Hreg Hlen Hts Hend. rewrite (yomidict_compiled _ _ _ Hreg).
  apply yomi_matchreg_Ok in Hreg as (pieces & Hpieces & -> & _).
  apply yomi_pieces_Ok in Hpieces as (st & Hst & ->).
  pose proof (pieces_exact _ _ Hst) as Hex.
  destruct (rmatch_slots_complete (concat ts ++ nl) (matchreg st)
              ((λ i, slot_lang kanji i) <$> seq 0 (length kanji)) ts nl [])
    as [m Hm]; [| |done|].
  - eapply Forall2_impl; [|exact Hex].
    intros r P (n & reg' & -> & [_ Hc]). by eexists _, _.
  - apply Forall2_same_length_lookup_2.
    { by rewrite length_fmap, length_seq. }
    intros i P t HP Ht.
    apply list_lookup_fmap_Some in HP as (i' & -> & Hi).
    apply lookup_seq in Hi as [-> _]. by apply Hts.
  - unfold re_match. rewrite Hm. by eexists.
Qed.
End SplitSoundness.

(** ** A guessed split is the only split *)

Section SplitUniqueness.
Context `{UnicodeDB}.

Lemma plus_lazy_captures (a : atom) (s : list N)
    (k : list N → option (list (option (list N) * list N)))
    (m : list (option (list N) * list N)) :
  plus_lazy a s k = Some m →
  ∃ pre s', s = pre ++ s' ∧ pre ≠ [] ∧ forallb (atom_ok a) pre = true
            ∧ k s' = Some m
            ∧ ∀ pre' s'', s = pre' ++ s'' → pre' ≠ [] → is_Some (k s'') →
                          length pre ≤ length pre'.
Proof.
  induction s as [|c s IH]; simpl; [done|].
  destruct (atom_ok a c) eqn:Hc; [|done].
  destruct (k s) as [m'|] eqn:Hk.
  - intros [= ->]. exists [c], s. simpl. rewrite Hc.
    split_and!; [done..|]. intros [|??] ? _ ? _; [done|simpl; lia].
  - intros Hrec.
    destruct (IH Hrec) as (pre & s' & -> & _ & Hall & Hk' & Hmin).
    exists (c :: pre), s'. simpl. rewrite Hc. split_and!; [done..|].
    intros [|c' pre'] s'' Heq Hne Hs; [done|].
    injection Heq as <- Heq. simpl.
    destruct pre' as [|c'' pre'].
    + simpl in Heq. subst s''. rewrite Hk in Hs. by destruct Hs.
    + specialize (Hmin (c'' :: pre') s'' Heq). simpl in Hmin.
      assert (length pre ≤ S (length pre')); [by apply Hmin|simpl; lia].
Qed.

Lemma plus_greedy_longest (a : atom) (s : list N)
    (k : list N → option (list (option (list N) * list N)))
    (m : list (option (list N) * list N)) :
  plus_greedy a s k = Some m →
  ∃ pre s', s = pre ++ s' ∧ pre ≠ [] ∧ forallb (atom_ok a) pre = true
            ∧ k s' = Some m
            ∧ ∀ pre' s'', s = pre' ++ s'' → pre' ≠ [] →
                          forallb (atom_ok a) pre' = true →
                          is_Some (k s'') → length pre' ≤ length pre.
Proof.
  induction s as [|c s IH]; simpl; [done|].
  destruct (atom_ok a c) eqn:Hc; [|done].
  destruct (plus_greedy a s k) as [m'|] eqn:Hrec.
  - intros [= ->].
    destruct (IH eq_refl) as (pre & s' & -> & _ & Hall & Hk & Hmax).
    exists (c :: pre), s'. simpl. rewrite Hc. split_and!; [done..|].
    intros [|c' pre'] s'' Heq Hne Hok Hs; [done|].
    injection Heq as <- Heq. simpl in *.
    apply andb_prop in Hok as [_ Hok].
    destruct pre' as [|c'' pre']; [simpl; lia|].
    assert (length (c'' :: pre') ≤ length pre); [by apply (Hmax _ s'')|].
    simpl in *. lia.
  - intros Hk. exists [c], s. simpl. rewrite Hc. split_and!; [done..|].
    intros [|c' pre'] s'' Heq Hne Hok Hs; [done|].
    injection Heq as <- Heq. simpl in *.
    apply andb_prop in Hok as [_ Hok].
    destruct pre' as [|c'' pre']; [simpl; lia|]. exfalso.
    assert (Hsome : is_Some (plus_greedy a s k)).
    { apply plus_greedy_is_Some. by exists (c'' :: pre'), s''. }
    rewrite Hrec in Hsome. by destruct Hsome.
Qed.

Lemma valid_split_nil (s : list N) (yss : list (list N)) :
  valid_split [] s yss ↔ yss = [] ∧ at_end s = true.
Proof.
  unfold valid_split. split.
  - intros (Hlen & _ & nl & Hend & ->). destruct yss; [done|]. done.
  - intros [-> Hend]. split_and!; [done|constructor|]. by exists s.
Qed.

Lemma valid_split_kanji (c : N) (text s : list N) (yss : list (list N)) :
  is_Han c = true →
  valid_split (c :: text) s yss ↔
  ∃ y yss' s', yss = y :: yss' ∧ s = y ++ s' ∧ y ≠ []
               ∧ forallb is_Hiragana y = true ∧ valid_split text s' yss'.
Proof.
  intros Hc. unfold valid_split. rewrite filter_cons, decide_True by done.
  split.
  - intros (Hlen & Hall & nl & Hend & ->).
    destruct yss as [|y yss]; [done|].
    apply Forall_cons_1 in Hall as [[Hy Hh] Hall].
    exists y, yss, (rebuild text yss ++ nl). simpl. rewrite Hc.
    split_and!; [done|by rewrite <- app_assoc|done..| |done|by exists nl].
    simpl in Hlen. lia.
  - intros (y & yss' & s' & -> & -> & Hy & Hh & Hlen & Hall & nl & Hend & ->).
    split_and!; [simpl; by rewrite Hlen|by constructor|].
    exists nl. split; [done|]. simpl. by rewrite Hc, <- app_assoc.
Qed.

Lemma valid_split_other (c : N) (text s : list N) (yss : list (list N)) :
  is_Han c = false →
  valid_split (c :: text) s yss ↔ ∃ s', s = c :: s' ∧ valid_split text s' yss.
Proof.
  intros Hc. unfold valid_split.
  rewrite filter_cons, decide_False by (by rewrite Hc).
  split.
  - intros (Hlen & Hall & nl & Hend & ->).
    exists (rebuild text yss ++ nl). simpl. rewrite Hc.
    split_and!; [done..|]. by exists nl.
  - intros (s' & -> & Hlen & Hall & nl & Hend & ->).
    split_and!; [done..|]. exists nl. split; [done|]. simpl. by rewrite Hc.
Qed.

(** What a match of the lazy pattern looks like. *)
Lemma rmatch_guess_lazy (whole text s : list N)
    (caps m : list (option (list N) * list N)) :
  rmatch whole (seq_of ((nongreedy_piece <$> text) ++ [Eol])) s caps
         (λ _ c, Some c) = Some m →
  ∃ new, m = caps ++ new ∧ valid_split text s new.*2.
Proof.
  revert s caps. induction text as [|c text IH]; intros s caps.
  - simpl. destruct (at_end s) eqn:Hend; [|done]. intros [= <-].
    exists []. rewrite app_nil_r. split; [done|]. by apply valid_split_nil.
  - rewrite fmap_cons. unfold nongreedy_piece at 1.
    destruct (is_Han c) eqn:Hc.
    + cbn [app seq_of rmatch]. intros Hm.
      apply plus_lazy_captures in Hm
        as (pre & s1 & -> & Hne & Hall & Hm & _).
      rewrite take_consumed in Hm.
      apply IH in Hm as (new & -> & Hsplit).
      exists ((None, pre) :: new). split; [by rewrite <- app_assoc|].
      apply valid_split_kanji; [done|]. by exists pre, new.*2, s1.
    + cbn [app seq_of rmatch atom_ok].
      destruct s as [|c' s]; [done|]. case_bool_decide as Heq; [|done].
      subst c'. intros Hm.
      apply IH in Hm as (new & -> & Hsplit).
      exists new. split; [done|]. apply valid_split_other; [done|].
      by exists s.
Qed.

Lemma rmatch_guess_greedy (whole text s : list N)
    (caps m : list (option (list N) * list N)) :
  rmatch whole (seq_of ((greedy_piece <$> text) ++ [Eol])) s caps
         (λ _ c, Some c) = Some m →
  ∃ new, m = caps ++ new ∧ valid_split text s new.*2.
Proof.
  intros Hm.
  apply rmatch_guess in Hm as (new & nl & -> & Hlen & Hcaps & Hend & ->).
  exists new. split; [done|]. split_and!.
  - by rewrite length_fmap.
  - done.
  - by exists nl.
Qed.

(** The greedy pattern matches every text that has a split. *)
Lemma valid_split_matches (whole text s : list N) (ys : list (list N))
    (caps : list (option (list N) * list N)) :
  valid_split text s ys →
  is_Some (rmatch whole (seq_of ((greedy_piece <$> text) ++ [Eol])) s caps
                  (λ _ c, Some c)).
Proof.
  revert s ys caps. induction text as [|c text IH]; intros s ys caps.
  - intros [_ Hend]%valid_split_nil. simpl. rewrite Hend. by eexists.
  - rewrite fmap_cons. unfold greedy_piece at 1.
    destruct (is_Han c) eqn:Hc.
    + intros (y & ys' & s' & -> & -> & Hy & Hh & Hsplit)%valid_split_kanji;
        [|done].
      cbn [app seq_of rmatch]. apply plus_greedy_is_Some.
      exists y, s'. split_and!; [done..|]. by apply (IH _ ys').
    + intros (s' & -> & Hsplit)%valid_split_other; [|done].
      cbn [app seq_of rmatch atom_ok]. rewrite bool_decide_eq_true_2 by done.
      by apply (IH _ ys).
Qed.

(** When the greedy and the lazy match capture the same texts, no other
    split exists. *)
Lemma same_captures_unique (whole text s : list N)
    (capsg capsl newg newl : list (option (list N) * list N))
    (ys : list (list N)) :
  rmatch whole (seq_of ((greedy_piece <$> text) ++ [Eol])) s capsg
         (λ _ c, Some c) = Some (capsg ++ newg) →
  rmatch whole (seq_of ((nongreedy_piece <$> text) ++ [Eol])) s capsl
         (λ _ c, Some c) = Some (capsl ++ newl) →
  newg.*2 = newl.*2 →
  valid_split text s ys → ys = newg.*2.
Proof.
  revert s capsg capsl newg newl ys.
  induction text as [|c text IH]; intros s capsg capsl newg newl ys.
  - simpl. destruct (at_end s); [|done]. intros [= Hg] _ _.
    intros [-> _]%valid_split_nil.
    rewrite <- (app_nil_r capsg) in Hg at 1.
    by apply app_inv_head in Hg as <-.
  - rewrite !fmap_cons. unfold greedy_piece at 1, nongreedy_piece at 1.
    destruct (is_Han c) eqn:Hc.
    + cbn [app seq_of rmatch]. intros Hg Hl Heq.
      intros (y & ys' & s' & -> & -> & Hy & Hh & Hsplit)%valid_split_kanji;
        [|done].
      apply plus_greedy_longest in Hg
        as (preg & sg & Hsg & _ & _ & Hg & Hmax).
      apply plus_lazy_captures in Hl
        as (prel & sl & Hsl & _ & _ & Hl & Hmin).
      rewrite Hsg, take_consumed in Hg. rewrite Hsl, take_consumed in Hl.
      pose proof Hg as Hg'. pose proof Hl as Hl'.
      apply rmatch_guess_greedy in Hg' as (newg' & Hmg & _).
      apply rmatch_guess_lazy in Hl' as (newl' & Hml & _).
      rewrite <- app_assoc in Hmg, Hml.
      apply app_inv_head in Hmg as ->. apply app_inv_head in Hml as ->.
      simpl in Heq. injection Heq as Hpre Heq. subst prel.
      assert (Hlen : length y = length preg).
      { apply Nat.le_antisymm.
        - apply (Hmax y s'); [done..|]. by eapply valid_split_matches.
        - apply (Hmin y s'); [done..|].
          destruct (guess_loop_inv text) as (Hrel & _).
          destruct (guess_loop_pieces text) as [Hpg Hpl].
          rewrite Hpg, Hpl in Hrel.
          apply (proj1 (greedy_lazy_same_texts whole _ _ s' [] _ Hrel)).
          by eapply valid_split_matches. }
      assert (Hy' : y = preg ∧ s' = sg).
      { apply app_inj_1; [done|]. by rewrite <- Hsg. }
      destruct Hy' as [-> ->]. simpl. f_equal.
      rewrite (app_assoc capsg [_] newg') in Hg.
      rewrite (app_assoc capsl [_] newl') in Hl.
      assert (sl = sg) as -> by (by apply app_inv_head in Hsl).
      eapply IH; [exact Hg|exact Hl|done..].
    + cbn [app seq_of rmatch atom_ok]. intros Hg Hl Heq.
      intros (s' & -> & Hsplit)%valid_split_other; [|done].
      rewrite bool_decide_eq_true_2 in Hg, Hl by done. by eapply IH.
Qed.

(** X14: [guess_split] raises nothing.  It returns a mapping exactly
    when the reading can be split in one way and one only, each kanji
    of the text standing for a non-empty run of hiragana and every other
    character for itself (a newline may end the reading); it returns
    [None] when there is no such split or more than one. *)
Theorem guess_split_unique_split (majiribun reading : list N) :
  match guess_split majiribun reading with
  | Ok (Some d) =>
    ∃ ys, valid_split majiribun reading ys
          ∧ ∀ ys', valid_split majiribun reading ys' → ys' = ys
  | Ok None =>
    ¬ ∃ ys, valid_split majiribun reading ys
            ∧ ∀ ys', valid_split majiribun reading ys' → ys' = ys
  | Raise _ => False
  end.
Proof.
  unfold guess_split.
  destruct (guess_loop_pieces majiribun) as [Hg Hl].
  destruct (guess_loop_inv majiribun) as (Hrel & _ & _ & _ & _ & Hks).
  rewrite Hg, Hl in Hrel. rewrite Hg, Hl, Hks.
  pose proof (greedy_lazy_same_texts reading _ _ reading [] [] Hrel) as Hsame.
  unfold re_match.
  destruct (rmatch reading (seq_of ((greedy_piece <$> majiribun) ++ [Eol]))
              reading [] _) as [m|] eqn:Hm.
  2:{ intros (ys & Hsplit & _).
      pose proof (valid_split_matches reading _ _ _ [] Hsplit) as [? Hsome].
      congruence. }
  destruct (rmatch reading
              (seq_of ((nongreedy_piece <$> majiribun) ++ [Eol]))
              reading [] _) as [m'|] eqn:Hm'.
  2:{ destruct Hsame as [Hsame _]. by destruct Hsame. }
  pose proof Hm as Hvg. pose proof Hm' as Hvl.
  apply rmatch_guess_greedy in Hvg as (newg & -> & Hvg).
  apply rmatch_guess_lazy in Hvl as (newl & -> & Hvl).
  rewrite !app_nil_l in *.
  case_bool_decide as Hne.
  - intros (ys & Hsplit & Huniq).
    apply Hne. unfold groups.
    by rewrite (Huniq _ Hvg), (Huniq _ Hvl).
  - unfold groups in Hne.
    destruct (guess_assign_loop
                (filter (λ c, is_Han c = true) majiribun) (groups newg)
                (length (filter (λ c, is_Han c = true) majiribun)))
      as (d & Hd & _);
      [lia|destruct Hvg as [Hlen _]; unfold groups; by rewrite Hlen|].
    rewrite Hd. simpl. exists newg.*2. split; [done|].
    intros ys' Hys'.
    eapply (same_captures_unique reading majiribun reading [] []);
      [exact Hm|exact Hm'|done..].
Qed.
End SplitUniqueness.

(** ** Instances *)

Example ex_u : u "はな" = [0x306F; 0x306A]%N.
Proof. reflexivity. Qed.

Example ex_matchreg :
  japanese_matchreg (u "こく")
  = Ok [Atom (Cls (u "こご")); Opt (Atom (Cls (u "くっ")))].
Proof. vm_compute. reflexivity. Qed.

Example ex_matchreg_text :
  japanese_matchreg_text (u "こく") = Ok (u "[こご][くっ]?").
Proof. vm_compute. reflexivity. Qed.

Example ex_match1 :
  @japanese_match demo_unicode (u "こく") (u "ごっ") = Ok (Some []).
Proof. vm_compute. reflexivity. Qed.

Example ex_match2 :
  @japanese_match demo_unicode (u "こく") (u "こ") = Ok (Some []).
Proof. vm_compute. reflexivity. Qed.

Example ex_match3 :
  @japanese_match demo_unicode (u "はな") (u "ばな" ++ [NEWLINE]) = Ok (Some []).
Proof. vm_compute. reflexivity. Qed.

Example ex_pieces :
  @yomi_pieces demo_unicode demo_lexicon (u "花見")
  = Ok [Group (Some (u "花"))
          (Alt (seq_of [Atom (Cls (u "はばぱ")); Atom (Lit (ch "な"))])
          (Alt (seq_of [Atom (Cls (u "かが"))])
               (seq_of [Atom (Cls (u "けげ"))])));
        Group (Some (u "見"))
          (Alt (seq_of [Atom (Cls (u "けげ")); Atom (Lit (ch "ん"))])
               (seq_of [Atom (Lit (ch "み"))]))].
Proof. vm_compute. reflexivity. Qed.

Example ex_yomidict :
  @yomidict demo_unicode demo_lexicon (u "花見") (u "はなみ")
  = Ok [(u "花", u "はな"); (u "見", u "み")].
Proof. vm_compute. reflexivity. Qed.

Example ex_group_name :
  @yomi_matchreg demo_unicode demo_lexicon (u "ｶﾞ")
  = Raise (ReError "bad character in group name").
Proof. vm_compute. reflexivity. Qed.

Example ex_canon :
  @canonical_reading demo_unicode demo_lexicon (u "花") (u "ばな")
  = Ok (u "はな", Kun).
Proof. vm_compute. reflexivity. Qed.

Example ex_kokka :
  @yomidict demo_unicode demo_lexicon (u "国歌") (u "こっか")
  = Ok [(u "国", u "こっ"); (u "歌", u "か")].
Proof. vm_compute. reflexivity. Qed.

(** C2: the pattern built for こく also matches こ alone, which is not こく
    with its first character voiced and its last one kept or geminated:
    the [?] after the final class lets the last character be left out. *)
Theorem japanese_match_drops_last :
  (∀ D : UnicodeDB, @japanese_match D (u "こく") (u "こ") = Ok (Some []))
  ∧ ¬ phonological_variant (u "こく") (u "こ").
Proof.
  split.
  - intros D. vm_compute. reflexivity.
  - intros (first & rest & first' & Ha & _ &
            [[-> _]|(middle & l & l' & _ & Hb & _)]).
    + vm_compute in Ha. discriminate.
    + apply (f_equal length) in Hb. rewrite length_cons, length_app in Hb.
      assert (Hlen : length (u "こ") = 1) by (vm_compute; reflexivity).
      rewrite Hlen in Hb. simpl in Hb. lia.
Qed.

(** C10: [yomisplit] returns [None] whatever it is given; the split of a
    reading by slot is what [yomidict] returns. *)
Theorem yomisplit_is_a_stub :
  (∀ (D : UnicodeDB) (L : Lexicon) (kanjiword reading : pystr),
     @yomisplit kanjiword reading = Ok None)
  ∧ @yomidict demo_unicode demo_lexicon (u "花見") (u "はなみ")
    = Ok [(u "花", u "はな"); (u "見", u "み")].
Proof. split; [reflexivity|]. vm_compute. reflexivity. Qed.

(** 胃 has an on-yomi and no kun-yomi entry; あ is not a reading of it. *)
Lemma canonical_reading_on_only_witness :
  @ONYOMI demo_lexicon !! u "胃" = Some [u "い"]
  ∧ @KUNYOMI demo_lexicon !! u "胃" = None
  ∧ @canonical_reading demo_unicode demo_lexicon (u "胃") (u "あ")
    = Raise (UnknownKanji (u "胃")).
Proof.
  split; [vm_compute; reflexivity|]. split; [vm_compute; reflexivity|].
  apply (@canonical_reading_on_only demo_unicode demo_lexicon
           (u "胃") (u "あ") [u "い"]).
  - vm_compute. reflexivity.
  - vm_compute. reflexivity.
  - constructor; [|constructor]. vm_compute. reflexivity.
Defined.

(** C3 as stated fails: in 人々 the group of the repetition mark has the
    pattern of 人 but is named 々, not after 人. *)
Lemma repetition_slot_name_counterexample :
  ∃ reg,
    @yomi_pieces demo_unicode demo_lexicon (u "人々")
    = Ok [Group (Some (u "人")) reg; Group (Some (u "々")) reg]
    ∧ ∀ suffix, u "々" ≠ ch "人" :: suffix.
Proof.
  eexists. split; [vm_compute; reflexivity|].
  intros suffix Heq. vm_compute in Heq. discriminate.
Qed.

Lemma repetition_mark_witness :
  default [] (@ONYOMI demo_lexicon !! [NOMA])
  ++ default [] (@KUNYOMI demo_lexicon !! [NOMA]) = []
  ∧ @yomi_pieces demo_unicode demo_lexicon (u "々人")
    = Raise (ValueError "Repetition character 々 following nothing").
Proof.
  split; [vm_compute; reflexivity|].
  apply (@repetition_mark demo_unicode demo_lexicon (u "人々")).
  vm_compute. reflexivity.
Defined.

(** C4 as stated fails: a reading that does not match and a reading that
    matches in two ways give the same result. *)
Lemma guess_split_counterexample :
  re_match (H:=demo_unicode)
    (seq_of (matchreg_greedy (@guess_loop demo_unicode (u "花")) ++ [Eol])) []
  = None
  ∧ re_match (H:=demo_unicode)
      (seq_of (matchreg_greedy (@guess_loop demo_unicode (u "花見")) ++ [Eol]))
      (u "はなみ")
    = Some [(None, u "はな"); (None, u "み")]
  ∧ re_match (H:=demo_unicode)
      (seq_of (matchreg_nongreedy (@guess_loop demo_unicode (u "花見"))
               ++ [Eol]))
      (u "はなみ")
    = Some [(None, u "は"); (None, u "なみ")]
  ∧ @guess_split demo_unicode (u "花") [] = Ok None
  ∧ @guess_split demo_unicode (u "花見") (u "はなみ") = Ok None.
Proof. split_and!; vm_compute; reflexivity. Qed.

(** C5 as stated fails: the middle dot of 花・見 is matched by an unnamed
    group, so the returned mapping does not spell the whole reading. *)
Lemma yomidict_counterexample :
  ∃ d, @yomidict demo_unicode demo_lexicon (u "花・見") (u "はな・み") = Ok d
       ∧ d = [(u "花", u "はな"); (u "見", u "み")]
       ∧ concat d.*2 ≠ u "はな・み".
Proof.
  eexists. split; [vm_compute; reflexivity|]. split; [reflexivity|].
  vm_compute. discriminate.
Qed.

Lemma yomidict_captures_witness :
  @yomidict demo_unicode demo_lexicon (u "花見") (u "はなみ")
  = Ok [(u "花", u "はな"); (u "見", u "み")]
  ∧ list.last (u "はなみ") ≠ Some NEWLINE
  ∧ concat [(u "花", u "はな"); (u "見", u "み")].*2 = u "はなみ".
Proof.
  assert (Hd : @yomidict demo_unicode demo_lexicon (u "花見") (u "はなみ")
               = Ok [(u "花", u "はな"); (u "見", u "み")])
    by (vm_compute; reflexivity).
  assert (Hnl : list.last (u "はなみ") ≠ Some NEWLINE)
    by (vm_compute; discriminate).
  split; [exact Hd|]. split; [exact Hnl|].
  destruct (@yomidict_captures demo_unicode demo_lexicon _ _ _ Hd Hnl)
    as (reg & m & _ & _ & _ & _ & _ & Hall).
  apply Hall.
  assert (Hword : u "花見" = [ch "花"; ch "見"]) by (vm_compute; reflexivity).
  rewrite Hword.
  constructor; [vm_compute; reflexivity|].
  constructor; [vm_compute; reflexivity|]. constructor.
Defined.

Lemma alternation_longest_first_witness :
  ∃ pieces,
    @yomi_pieces demo_unicode demo_lexicon (u "花見") = Ok pieces
    ∧ u "花見" !! 0 = Some (ch "花")
    ∧ default [] (@ONYOMI demo_lexicon !! [ch "花"])
      ++ default [] (@KUNYOMI demo_lexicon !! [ch "花"])
      = [u "か"; u "け"; u "はな"]
    ∧ ∃ name reg cands,
        pieces !! 0 = Some (Group name reg)
        ∧ Forall2 expansion cands (alternatives reg)
        ∧ cands ≡ₚ [u "か"; u "け"; u "はな"]
        ∧ descending length cands
        ∧ ∀ n, filter (λ y, length y = n) cands
               = filter (λ y, length y = n) [u "か"; u "け"; u "はな"].
Proof.
  destruct (@yomi_pieces demo_unicode demo_lexicon (u "花見"))
    as [pieces|] eqn:Hpieces; [|vm_compute in Hpieces; discriminate].
  assert (Hc : u "花見" !! 0 = Some (ch "花")) by (vm_compute; reflexivity).
  assert (Htable : default [] (@ONYOMI demo_lexicon !! [ch "花"])
                   ++ default [] (@KUNYOMI demo_lexicon !! [ch "花"])
                   = [u "か"; u "け"; u "はな"])
    by (vm_compute; reflexivity).
  exists pieces. split; [reflexivity|]. split; [exact Hc|].
  split; [exact Htable|]. rewrite <- Htable.
  apply (@alternation_longest_first demo_unicode demo_lexicon
           _ _ _ _ Hpieces Hc).
  rewrite Htable. discriminate.
Defined.

Lemma slot_names_by_occurrence_witness :
  ∃ pieces,
    @yomi_pieces demo_unicode demo_lexicon (u "人人") = Ok pieces
    ∧ ∃ reg, pieces !! 1
             = Some (Group (Some (groupname_of (u "人人") 1 (ch "人"))) reg).
Proof.
  destruct (@yomi_pieces demo_unicode demo_lexicon (u "人人"))
    as [pieces|] eqn:Hpieces; [|vm_compute in Hpieces; discriminate].
  exists pieces. split; [reflexivity|].
  destruct (@slot_names_by_occurrence demo_unicode demo_lexicon
              _ _ Hpieces) as [Hname _].
  assert (Hc : u "人人" !! 1 = Some (ch "人")) by (vm_compute; reflexivity).
  destruct (Hname 1 (ch "人") Hc) as [reg Hreg].
  exists reg. rewrite Hreg. f_equal.
Defined.

Example ex_groupname : groupname_of (u "人人") 1 (ch "人") = u "人2".
Proof. vm_compute. reflexivity. Qed.

Lemma guess_split_last_occurrence_witness :
  ∃ d, @guess_split demo_unicode (u "人人") (u "ひと") = Ok (Some d)
       ∧ d !! ch "人" = Some (u "と").
Proof.
  destruct (@guess_split demo_unicode (u "人人") (u "ひと"))
    as [[d|]|] eqn:Hd;
    [|vm_compute in Hd; discriminate|vm_compute in Hd; discriminate].
  exists d. split; [reflexivity|].
  destruct (@guess_split_last_occurrence demo_unicode _ _ _ Hd)
    as (m & Hm & _ & _ & Hlast).
  assert (Hk : kanjis (@guess_loop demo_unicode (u "人人"))
               = [ch "人"; ch "人"]) by (vm_compute; reflexivity).
  rewrite Hk in Hlast. rewrite (Hlast 1 (ch "人")).
  - vm_compute in Hm. injection Hm as <-. vm_compute. reflexivity.
  - reflexivity.
  - intros j' Hj'. destruct j' as [|[|j']]; [lia..|]. discriminate.
Defined.

Lemma japanese_matchreg_parses_witness :
  plain (u "こく") = true
  ∧ ∃ t rs,
      japanese_matchreg_text (u "こく") = Ok t
      ∧ japanese_matchreg (u "こく") = Ok rs
      ∧ pattern_text t rs
      ∧ ∀ rs', pattern_text t rs' → rs' = rs.
Proof.
  assert (Hp : plain (u "こく") = true) by (vm_compute; reflexivity).
  split; [exact Hp|]. exact (japanese_matchreg_parses (u "こく") Hp).
Defined.

Lemma japanese_match_language_witness :
  plain (u "こく") = true
  ∧ ∃ m, @japanese_match demo_unicode (u "こく") (u "ごっ") = Ok m
         ∧ (is_Some m ↔
            ∃ b0 nl, u "ごっ" = b0 ++ nl ∧ at_end nl = true
                     ∧ (phonological_variant (u "こく") b0
                        ∨ last_dropped (u "こく") b0)).
Proof.
  assert (Hp : plain (u "こく") = true) by (vm_compute; reflexivity).
  split; [exact Hp|].
  exact (@japanese_match_language demo_unicode (u "こく") (u "ごっ") Hp).
Defined.

Lemma japanese_match_voiced_witness :
  plain (u "はな") = true
  ∧ ch "ば" ∈ default [ch "は"] (DAKUON !! ch "は")
  ∧ ∃ m, @japanese_match demo_unicode (u "はな") (u "ばな") = Ok (Some m).
Proof.
  assert (Hp : plain (u "はな") = true) by (vm_compute; reflexivity).
  assert (Hv : ch "ば" ∈ default [ch "は"] (DAKUON !! ch "は")).
  { vm_compute. repeat constructor. }
  split; [exact Hp|]. split; [exact Hv|].
  apply (@japanese_match_voiced demo_unicode (ch "は") (ch "ば") [ch "な"]
           Hp Hv).
Defined.

Lemma demo_lexicon_nonempty : @lexicon_nonempty demo_lexicon.
Proof.
  assert (Htable : ∀ (t : list (list N * list (list N))) k,
            Forall (λ e, Forall (λ y : list N, y ≠ []) e.2) t →
            Forall (λ y : list N, y ≠ [])
                   (default [] ((list_to_map t : gmap (list N) _) !! k))).
  { intros t k Ht.
    destruct ((list_to_map t : gmap (list N) _) !! k) as [cs|] eqn:Hk;
      [|constructor].
    apply elem_of_list_to_map_2 in Hk.
    by apply (proj1 (list.Forall_forall _ _) Ht (k, cs)). }
  intros c. unfold yomis_of. apply Forall_app. split.
  - apply Forall_app. split; [constructor|].
    apply Htable. repeat (constructor; [vm_compute; repeat constructor; discriminate|]).
    constructor.
  - apply Htable. repeat (constructor; [vm_compute; repeat constructor; discriminate|]).
    constructor.
Qed.

Lemma canonical_reading_of_candidate_witness :
  u "はな" ∈ default [] (@KUNYOMI demo_lexicon !! u "花")
  ∧ ∃ c tag m,
      @canonical_reading demo_unicode demo_lexicon (u "花") (u "はな")
      = Ok (c, tag)
      ∧ @japanese_match demo_unicode c (u "はな") = Ok (Some m).
Proof.
  assert (Hin : u "はな" ∈ default [] (@KUNYOMI demo_lexicon !! u "花")).
  { vm_compute. repeat constructor. }
  split; [exact Hin|].
  apply (@canonical_reading_of_candidate demo_unicode demo_lexicon).
  - vm_compute. repeat (constructor; [discriminate|]). constructor.
  - vm_compute. repeat (constructor; [discriminate|]). constructor.
  - left. exact Hin.
Defined.

Lemma yomidict_refuses_short_witness :
  (∃ reg, @yomi_matchreg demo_unicode demo_lexicon (u "花見") = Ok reg)
  ∧ @yomidict demo_unicode demo_lexicon (u "花見") (u "は")
    = Raise (UnknownReading (u "花見") (u "は")).
Proof.
  destruct (@yomi_matchreg demo_unicode demo_lexicon (u "花見"))
    as [reg|] eqn:Hreg; [|vm_compute in Hreg; discriminate].
  split; [by exists reg|].
  pose proof (@yomidict_refuses_short demo_unicode demo_lexicon
                (u "花見") (u "は") reg Hreg) as Hout.
  destruct (@yomidict demo_unicode demo_lexicon (u "花見") (u "は"))
    as [d|e].
  - destruct Hout as [Hlen _]. vm_compute in Hlen. lia.
  - by rewrite Hout.
Defined.

Lemma demo_lexicon_plain : @lexicon_plain demo_lexicon.
Proof.
  assert (Htable : ∀ (t : list (list N * list (list N))) k,
            Forall (λ e, Forall (λ y : list N, plain y = true) e.2) t →
            Forall (λ y : list N, plain y = true)
                   (default [] ((list_to_map t : gmap (list N) _) !! k))).
  { intros t k Ht.
    destruct ((list_to_map t : gmap (list N) _) !! k) as [cs|] eqn:Hk;
      [|constructor].
    apply elem_of_list_to_map_2 in Hk.
    by apply (proj1 (list.Forall_forall _ _) Ht (k, cs)). }
  intros c. unfold yomis_of. apply Forall_app. split.
  - apply Forall_app. split; [constructor|].
    apply Htable.
    repeat (constructor; [vm_compute; repeat constructor|]). constructor.
  - apply Htable.
    repeat (constructor; [vm_compute; repeat constructor|]). constructor.
Qed.

(** The halfwidth voiced sound mark is a word character that no
    identifier starts with. *)
Lemma yomi_matchreg_raises_witness :
  @lexicon_nonempty demo_lexicon ∧ @lexicon_plain demo_lexicon
  ∧ @yomi_matchreg demo_unicode demo_lexicon (u "ｶﾞ")
    = Raise (ReError "bad character in group name")
  ∧ ∃ i c, u "ｶﾞ" !! i = Some c
           ∧ negb (@is_word demo_unicode c) || @is_digit demo_unicode c
             = false
           ∧ @is_identifier demo_unicode (groupname_of (u "ｶﾞ") i c) = false.
Proof.
  split; [exact demo_lexicon_nonempty|]. split; [exact demo_lexicon_plain|].
  pose proof (@yomi_matchreg_raises demo_unicode demo_lexicon (u "ｶﾞ")
                demo_lexicon_nonempty demo_lexicon_plain) as Hout.
  destruct (@yomi_matchreg demo_unicode demo_lexicon (u "ｶﾞ"))
    as [reg|e] eqn:Hreg; [vm_compute in Hreg; discriminate|].
  destruct e as [| | |msg| | |msg]; try (vm_compute in Hreg; discriminate).
  destruct Hout as (-> & _ & Hbad). split; [reflexivity|exact Hbad].
Defined.

Lemma guess_split_rebuilds_witness :
  ∃ d, @guess_split demo_unicode (u "お花") (u "おはな") = Ok (Some d)
       ∧ ∃ nl, u "おはな"
               = flat_map (λ c, default [c] (d !! c)) (u "お花") ++ nl.
Proof.
  destruct (@guess_split demo_unicode (u "お花") (u "おはな"))
    as [[d|]|] eqn:Hd;
    [|vm_compute in Hd; discriminate|vm_compute in Hd; discriminate].
  exists d. split; [reflexivity|].
  destruct (@guess_split_rebuilds demo_unicode _ _ _ Hd)
    as (yomis & nl & _ & _ & _ & _ & _ & _ & Hsub).
  exists nl. apply Hsub.
  assert (Hk : filter (λ c, @is_Han demo_unicode c = true) (u "お花")
               = [ch "花"]) by (vm_compute; reflexivity).
  rewrite Hk. apply NoDup_singleton.
Defined.

Lemma guess_split_no_kanji_witness :
  Forall (λ c, @is_Han demo_unicode c = false) (u "はな")
  ∧ @guess_split demo_unicode (u "はな") (u "はな") = Ok (Some ∅)
  ∧ @guess_split demo_unicode (u "はな") (u "はなみ") = Ok None.
Proof.
  assert (Hno : Forall (λ c, @is_Han demo_unicode c = false) (u "はな")).
  { assert (Hw : u "はな" = [ch "は"; ch "な"]) by (vm_compute; reflexivity).
    rewrite Hw. repeat (constructor; [vm_compute; reflexivity|]). constructor. }
  split; [exact Hno|]. split.
  - rewrite (@guess_split_no_kanji demo_unicode _ _ Hno).
    vm_compute. reflexivity.
  - rewrite (@guess_split_no_kanji demo_unicode _ _ Hno).
    vm_compute. reflexivity.
Defined.

Lemma is_joyo_prefix_witness :
  @JOYO_KUNYOMI demo_lexicon !! u "話" = Some [u "はなす"; u "はなし"]
  ∧ @is_joyo demo_lexicon (u "話") (u "はな") = Ok true
  ∧ @is_joyo demo_lexicon (u "話") [] = Ok true.
Proof.
  assert (Hk : @JOYO_KUNYOMI demo_lexicon !! u "話"
               = Some [u "はなす"; u "はなし"]) by (vm_compute; reflexivity).
  split; [exact Hk|]. split.
  - apply (@is_joyo_prefix demo_lexicon _ _ (u "はなす") _ Hk).
    + repeat constructor.
    + exists [ch "す"]. vm_compute. reflexivity.
  - apply (@is_joyo_prefix demo_lexicon _ _ (u "はなす") _ Hk).
    + repeat constructor.
    + apply prefix_nil.
Defined.

Lemma yomidict_keys_witness :
  ∃ d, @yomidict demo_unicode demo_lexicon (u "人人") (u "ひとびと") = Ok d
       ∧ NoDup d.*1.
Proof.
  destruct (@yomidict demo_unicode demo_lexicon (u "人人") (u "ひとびと"))
    as [d|] eqn:Hd; [|vm_compute in Hd; discriminate].
  exists d. split; [reflexivity|].
  apply (@yomidict_keys demo_unicode demo_lexicon _ _ _ Hd).
Defined.

Lemma yomidict_sound_witness :
  ∃ d, @yomidict demo_unicode demo_lexicon (u "国歌") (u "こっか") = Ok d
       ∧ ∃ caps nl, u "こっか" = concat caps ++ nl ∧ length caps = 2.
Proof.
  destruct (@yomidict demo_unicode demo_lexicon (u "国歌") (u "こっか"))
    as [d|] eqn:Hd; [|vm_compute in Hd; discriminate].
  exists d. split; [reflexivity|].
  destruct (@yomidict_sound demo_unicode demo_lexicon _ _ _ Hd)
    as (caps & nl & Hcat & _ & Hlen & _).
  exists caps, nl. split; [exact Hcat|]. rewrite Hlen.
  vm_compute. reflexivity.
Defined.

Lemma slot_lang_hana : @slot_lang demo_lexicon (u "花見") 0 (u "ばな").
Proof.
  unfold slot_lang.
  assert (Hw : reverse (take 1 (u "花見")) = [ch "花"])
    by (vm_compute; reflexivity).
  rewrite Hw, lang_of_cons.
  destruct (decide (@yomis_of demo_lexicon (ch "花") = [])) as [Hnil|_];
    [vm_compute in Hnil; discriminate|].
  exists (u "はな"). split; [vm_compute; repeat constructor|].
  left. exists (ch "は"), [ch "な"], (ch "ば"). split_and!.
  - vm_compute. reflexivity.
  - vm_compute. repeat constructor.
  - right. exists [], (ch "な"), (ch "な"). split_and!.
    + reflexivity.
    + vm_compute. reflexivity.
    + by left.
Qed.

Lemma slot_lang_mi : @slot_lang demo_lexicon (u "花見") 1 (u "み").
Proof.
  unfold slot_lang.
  assert (Hw : reverse (take 2 (u "花見")) = [ch "見"; ch "花"])
    by (vm_compute; reflexivity).
  rewrite Hw, lang_of_cons.
  destruct (decide (@yomis_of demo_lexicon (ch "見") = [])) as [Hnil|_];
    [vm_compute in Hnil; discriminate|].
  exists (u "み"). split; [vm_compute; repeat constructor|].
  left. exists (ch "み"), [], (ch "み"). split_and!.
  - vm_compute. reflexivity.
  - vm_compute. repeat constructor.
  - left. split; [reflexivity|]. vm_compute. reflexivity.
Qed.

Lemma yomidict_complete_witness :
  (∃ reg, @yomi_matchreg demo_unicode demo_lexicon (u "花見") = Ok reg)
  ∧ ∃ d, @yomidict demo_unicode demo_lexicon (u "花見")
           (concat [u "ばな"; u "み"] ++ []) = Ok d.
Proof.
  destruct (@yomi_matchreg demo_unicode demo_lexicon (u "花見"))
    as [reg|] eqn:Hreg; [|vm_compute in Hreg; discriminate].
  split; [by exists reg|].
  apply (@yomidict_complete demo_unicode demo_lexicon _ reg _ [] Hreg).
  - vm_compute. reflexivity.
  - intros [|[|i]] t Ht; simpl in Ht.
    + injection Ht as <-. exact slot_lang_hana.
    + injection Ht as <-. exact slot_lang_mi.
    + discriminate.
  - reflexivity.
Defined.
